(** * k-nearest-neighbour classifier (src/KNN/main.cpp)

    A shallow embedding of the classification core of [main.cpp]:
    [calcDistEuclidean], [predictOne] and [findKNN], together with the
    [std::priority_queue] the selector keeps its candidates in; and of the
    dataset generator [generatePoint], [generatePoints] and the run of
    [main] on its parsed arguments, over an abstract random generator and
    an abstract allocator.

    - [double] is IEEE 754 binary64, i.e. Rocq's primitive [float]; the
      arithmetic of the program ([-], [*], [+], [std::sqrt], [<]) is the
      primitive arithmetic, specified by [FloatAxioms].
    - [int] is a 32-bit two's complement integer carried in [Z]; the one
      narrowing of the program, [(int)v.size()], is written out.
    - [std::vector<T>] is [list T]; [operator[]] outside the vector is
      undefined behaviour and shows up as [Undefined OutOfBounds].
    - A [throw] is the outcome [Throw]; nothing in the core catches. *)

From Stdlib Require Import ZArith List Bool Lia String Floats Uint63 ZifyNat ZifyBool.
From stdpp Require Import base list sorting.

Open Scope Z_scope.

Ltac Zify.zify_post_hook ::= Z.to_euclidean_division_equations.

Arguments Nat.div : simpl never.
Arguments Nat.even : simpl never.
Arguments Nat.mul : simpl never.

(** ** Outcomes of a call *)

Inductive exception : Type :=
| invalid_argument (what : string).

Inductive undefined : Type :=
| OutOfBounds   (* operator[] past the end of a vector *)
| BadCast       (* static_cast<int> of a double that no int represents *)
| EmptyQueue.   (* top() or pop() of an empty priority_queue *)

Inductive result (A : Type) : Type :=
| Ok (a : A)
| Throw (e : exception)
| Undefined (u : undefined).

Arguments Ok {A} a.
Arguments Throw {A} e.
Arguments Undefined {A} u.

#[global] Instance result_ret : MRet result := fun A a => Ok a.

#[global] Instance result_bind : MBind result := fun A B f r =>
  match r with
  | Ok a => f a
  | Throw e => Throw e
  | Undefined u => Undefined u
  end.

(** ** Scalars *)

Abbreviation double := float.

Definition INT_MAX : Z := 2147483647.
Definition INT_MIN : Z := -2147483648.

(** [(int)v.size()]: the size modulo 2^32, read as a signed 32-bit value. *)
Definition int_of_size (n : nat) : Z :=
  (Z.of_nat n + 2147483648) mod 4294967296 - 2147483648.

(** [static_cast<int>(x)]: truncation towards zero; undefined when the
    truncated value is no [int] (out of range, infinite or NaN). *)
Definition static_cast_int (x : double) : result Z :=
  match Prim2SF x with
  | S754_zero _ => Ok 0
  | S754_finite s m e =>
      let mag := Z.shiftl (Zpos m) e in
      let v := if s then - mag else mag in
      if (INT_MIN <=? v) && (v <=? INT_MAX) then Ok v else Undefined BadCast
  | S754_infinity _ | S754_nan => Undefined BadCast
  end.

(** [static_cast<double>(z)] for an [int] [z]: exact, as 32 bits fit the
    53-bit significand. *)
Definition static_cast_double (z : Z) : double :=
  if z <? 0 then PrimFloat.opp (PrimFloat.of_uint63 (Uint63.of_Z (- z)))
  else PrimFloat.of_uint63 (Uint63.of_Z z).

(** ** Vectors *)

Abbreviation vec := (list double).
Abbreviation Dataset := (list vec).

(** [v[i]] with [i] an [int]: a negative [i] converts to a [size_t] beyond
    any vector. *)
Definition vec_at {A : Type} (v : list A) (i : Z) : result A :=
  if i <? 0 then Undefined OutOfBounds
  else match v !! Z.to_nat i with
       | Some x => Ok x
       | None => Undefined OutOfBounds
       end.

(** ** std::priority_queue

    [std::priority_queue<T, std::vector<T>, Compare>] keeps a binary
    max-heap in its vector [c]: [top] is [c.front()], [push] is [push_back]
    followed by [std::push_heap], [pop] is [std::pop_heap] followed by
    [pop_back].  The two heap algorithms follow libstdc++'s [stl_heap.h];
    their index variables ([ptrdiff_t], never negative here) are [nat]. *)

Section PriorityQueue.
Context {A : Type} (comp : A -> A -> bool).

(** [std::__push_heap(first, holeIndex, topIndex, value, comp)]: the hole
    climbs while its parent compares less than [value].  The loop runs at
    most [holeIndex] times, which is what [fuel] is set to. *)
Fixpoint __push_heap (fuel : nat) (first : list A)
    (holeIndex topIndex : nat) (value : A) : list A :=
  match fuel with
  | O => <[holeIndex := value]> first
  | S fuel' =>
      let parent := ((holeIndex - 1) / 2)%nat in
      match first !! parent with
      | Some p =>
          if (topIndex <? holeIndex)%nat && comp p value
          then __push_heap fuel' (<[holeIndex := p]> first) parent topIndex value
          else <[holeIndex := value]> first
      | None => <[holeIndex := value]> first
      end
  end.

(** [std::push_heap(first, last, comp)]: the new element is the last one. *)
Definition push_heap (c : list A) : list A :=
  match last c with
  | Some value => __push_heap (length c - 1) c (length c - 1) 0 value
  | None => c
  end.

(** The [while (secondChild < (len - 1) / 2)] loop of [std::__adjust_heap]:
    the hole sinks to the larger child ([holeIndex] and [secondChild]
    coincide at the head of the loop). *)
Fixpoint __adjust_heap_sink (fuel : nat) (first : list A)
    (holeIndex len : nat) : list A * nat :=
  match fuel with
  | O => (first, holeIndex)
  | S fuel' =>
      if (holeIndex <? (len - 1) / 2)%nat then
        let secondChild := (2 * (holeIndex + 1))%nat in
        match first !! secondChild, first !! (secondChild - 1)%nat with
        | Some r, Some l =>
            if comp r l
            then __adjust_heap_sink fuel' (<[holeIndex := l]> first) (secondChild - 1) len
            else __adjust_heap_sink fuel' (<[holeIndex := r]> first) secondChild len
        | _, _ => (first, holeIndex)
        end
      else (first, holeIndex)
  end.

(** [std::__adjust_heap(first, holeIndex, len, value, comp)]: sink the hole
    to a leaf, then push [value] up from there. *)
Definition __adjust_heap (first : list A) (holeIndex len : nat) (value : A) : list A :=
  let topIndex := holeIndex in
  let '(first1, secondChild) := __adjust_heap_sink len first holeIndex len in
  let '(first2, holeIndex2) :=
    if Nat.even len && (secondChild =? (len - 2) / 2)%nat then
      match first1 !! (2 * (secondChild + 1) - 1)%nat with
      | Some x => (<[secondChild := x]> first1, (2 * (secondChild + 1) - 1)%nat)
      | None => (first1, secondChild)
      end
    else (first1, secondChild) in
  __push_heap holeIndex2 first2 holeIndex2 topIndex value.

(** [std::pop_heap(first, last, comp)]: the first element moves to the last
    slot, and the element that was there is re-inserted in the rest. *)
Definition pop_heap (c : list A) : list A :=
  if (1 <? length c)%nat then
    match head c, last c with
    | Some top, Some value =>
        __adjust_heap (take (length c - 1) c) 0 (length c - 1) value ++ [top]
    | _, _ => c
    end
  else c.

Definition pq_push (x : A) (c : list A) : list A := push_heap (c ++ [x]).

Definition pq_top (c : list A) : result A :=
  match c with
  | x :: _ => Ok x
  | [] => Undefined EmptyQueue
  end.

Definition pq_pop (c : list A) : result (list A) :=
  match c with
  | _ :: _ => Ok (removelast (pop_heap c))
  | [] => Undefined EmptyQueue
  end.
End PriorityQueue.

(** ** The program *)

(** [calcDistEuclidean]: the loop [for (int i = 0; i < d; ++i)], with [n]
    iterations left and the accumulator [sum]. *)
Fixpoint calcDist_loop (p1 p2 : vec) (i : Z) (n : nat) (sum : double) : result double :=
  match n with
  | O => Ok sum
  | S n' =>
      a ← vec_at p1 i;
      b ← vec_at p2 i;
      let diff := (a - b)%float in
      calcDist_loop p1 p2 (i + 1) n' (sum + diff * diff)%float
  end.

Definition calcDistEuclidean (p1 p2 : vec) (d : Z) : result double :=
  sum ← calcDist_loop p1 p2 0 (Z.to_nat d) 0%float;
  Ok (PrimFloat.sqrt sum).

(** [using Neighbor = std::pair<double, int>]: (distance, index). *)
Abbreviation Neighbor := (double * Z)%type.

(** The lambda [cmp] of [predictOne]: a max-heap by distance. *)
Definition cmp (a b : Neighbor) : bool := (a.1 <? b.1)%float.

(** The scan of [predictOne], lines 83-92: [n] training points are left,
    the next one has index [i]. *)
Fixpoint scan_loop (train : Dataset) (test : vec) (k d : Z)
    (i : Z) (n : nat) (heap : list Neighbor) : result (list Neighbor) :=
  match n with
  | O => Ok heap
  | S n' =>
      row ← vec_at train i;
      dist ← calcDistEuclidean test row d;
      if int_of_size (length heap) <? k then
        scan_loop train test k d (i + 1) n' (pq_push cmp (dist, i) heap)
      else
        top ← pq_top heap;
        if (dist <? top.1)%float then
          heap' ← pq_pop cmp heap;
          scan_loop train test k d (i + 1) n' (pq_push cmp (dist, i) heap')
        else scan_loop train test k d (i + 1) n' heap
  end.

(** The vote of [predictOne], lines 95-101; the heap loses one element per
    iteration, so [fuel] is its size.  [vote] moves by one per neighbour and
    stays within [-k, k]: the [int] does not overflow. *)
Fixpoint vote_loop (train : Dataset) (d : Z)
    (fuel : nat) (heap : list Neighbor) (vote : Z) : result Z :=
  match fuel with
  | O => Ok vote
  | S fuel' =>
      match heap with
      | [] => Ok vote
      | _ =>
          top ← pq_top heap;
          let idx := top.2 in
          row ← vec_at train idx;
          x ← vec_at row d;
          label ← static_cast_int x;
          heap' ← pq_pop cmp heap;
          vote_loop train d fuel' heap' (vote + (if label =? 0 then -1 else 1))
      end
  end.

(** The Neighbor Selector: the two argument checks and the scan. *)
Definition selectNeighbors (train : Dataset) (test : vec) (k d : Z) : result (list Neighbor) :=
  if k <=? 0 then Throw (invalid_argument "k must be > 0") else
  if int_of_size (length train) <? k then
    Throw (invalid_argument "k cannot be larger than number of training points")
  else
    scan_loop train test k d 0 (Z.to_nat (int_of_size (length train))) [].

Definition predictOne (train : Dataset) (test : vec) (k d : Z) : result Z :=
  heap ← selectNeighbors train test k d;
  vote ← vote_loop train d (length heap) heap 0;
  Ok (if 0 <=? vote then 1 else 0).

(** [findKNN] updates [test_points] in place: the outcome comes with the
    vector as the call leaves it, also when [predictOne] throws midway. *)
Fixpoint findKNN (train : Dataset) (test_points : Dataset) (k d : Z)
    : Dataset * result unit :=
  match test_points with
  | [] => ([], Ok tt)
  | point :: rest =>
      match predictOne train point k d with
      | Ok cls =>
          let '(rest', r) := findKNN train rest k d in
          ((point ++ [static_cast_double cls]) :: rest', r)
      | Throw e => (point :: rest, Throw e)
      | Undefined u => (point :: rest, Undefined u)
      end
  end.

(** ** The dataset generator

    [std::mt19937] is a state of type [G]; a distribution applied to it
    gives a value and the next state.  [gen] stands for the generator as
    [std::mt19937 gen(rd())] leaves it (a [std::random_device] that cannot
    be opened is not modelled).

    The allocator is a state of type [M].  What it answers to a request is
    left open: [allocate] is any function, so a statement about the
    generator holds for every sequence of answers, the blocks freed between
    two requests being part of what [M] stands for. *)

(** What a vector asks of its allocator: storage for [n] doubles, or for [n]
    vectors of doubles. *)
Inductive request : Type :=
| Doubles (n : Z)
| Vectors (n : Z).

(** How a call of the generator ends: normally, with the [std::length_error]
    of a [reserve], with the [std::bad_alloc] of an allocation that fails,
    or in the undefined behaviour of [d + 1] overflowing. *)
Inductive gen_status : Type :=
| Generated
| length_error
| bad_alloc
| int_overflow.

(** How [main] ends: it returns [code] having printed the rows of [train]
    and of [test], or an exception leaves it uncaught, or the behaviour is
    undefined. *)
Inductive main_outcome : Type :=
| Returns (code : Z) (train test : Dataset)
| Uncaught (e : exception)
| Uncaught_length_error
| Uncaught_bad_alloc
| Undefined_behaviour.

Section Generator.
Context {G M : Type}.
(** [dis(gen)] for [std::uniform_real_distribution<double> dis(0.0, 1.0)]. *)
Variable dis : G -> double * G.
(** [cls(gen)] for [std::uniform_int_distribution<int> cls(0, 1)]. *)
Variable cls : G -> Z * G.
(** [std::allocator<T>::allocate]: the storage is granted and the allocator
    moves on, or [std::bad_alloc] is thrown. *)
Variable allocate : M -> request -> option M.

(** [v.reserve(n)] with [n] an [int], on a vector of capacity [capacity]
    whose storage is asked for as [storage n].  A negative [n] converts to a
    [size_t] above [max_size()] and [reserve] throws [std::length_error]; an
    [n] from 0 to [INT_MAX] is below [max_size()] (64-bit [size_t]), and
    storage is allocated when the capacity is less than [n]. *)
Definition reserve (capacity n : Z) (storage : Z -> request) (mem : M) : M * gen_status :=
  if n <? 0 then (mem, length_error)
  else if n <=? capacity then (mem, Generated)
  else match allocate mem (storage n) with
       | Some mem' => (mem', Generated)
       | None => (mem, bad_alloc)
       end.

(** The loop of [generatePoint], [n] features to go; the capacity reserved
    holds them, so that no [push_back] allocates. *)
Fixpoint generatePoint_loop (n : nat) (point : vec) (gen : G) : vec * G :=
  match n with
  | O => (point, gen)
  | S n' =>
      let '(x, gen') := dis gen in
      generatePoint_loop n' (point ++ [x]) gen'
  end.

(** [generatePoint(point, d, gen, dis)] on a vector [point] of capacity
    [capacity]: [point], [gen] and the allocator as the call leaves them. *)
Definition generatePoint (point : vec) (capacity d : Z) (gen : G) (mem : M)
    : vec * G * M * gen_status :=
  match reserve capacity d Doubles mem with
  | (mem', Generated) =>
      let '(point', gen') := generatePoint_loop (Z.to_nat d) [] gen in
      (point', gen', mem', Generated)
  | (mem', status) => ([], gen, mem', status)
  end.

(** The loop of [generatePoints], [n] points to go.  [temp] is a fresh
    vector (capacity 0); after [temp.reserve(c)] its capacity is [c], which
    the [reserve(d)] of [generatePoint] and the [push_back] of the label
    stay within, as [points.push_back] stays within the capacity [n] that
    [generatePoints] has reserved. *)
Fixpoint generatePoints_loop (n : nat) (points : Dataset) (d : Z) (test : bool)
    (gen : G) (mem : M) : Dataset * G * M * gen_status :=
  match n with
  | O => (points, gen, mem, Generated)
  | S n' =>
      if negb test && (d =? INT_MAX) then (points, gen, mem, int_overflow)
      else
        let c := if test then d else d + 1 in
        match reserve 0 c Doubles mem with
        | (mem1, Generated) =>
            match generatePoint [] c d gen mem1 with
            | (temp, gen1, mem2, Generated) =>
                let '(temp', gen2) :=
                  if test then (temp, gen1)
                  else let '(l, g) := cls gen1 in (temp ++ [static_cast_double l], g) in
                generatePoints_loop n' (points ++ [temp']) d test gen2 mem2
            | (_, gen1, mem2, status) => (points, gen1, mem2, status)
            end
        | (mem1, status) => (points, gen, mem1, status)
        end
  end.

(** [generatePoints(points, n, d, test)] on a vector [points] of capacity
    [capacity]: [points] as the call leaves it. *)
Definition generatePoints (points : Dataset) (capacity n d : Z) (test : bool)
    (gen : G) (mem : M) : Dataset * G * M * gen_status :=
  match reserve capacity n Vectors mem with
  | (mem', Generated) => generatePoints_loop (Z.to_nat n) [] d test gen mem'
  | (mem', status) => ([], gen, mem', status)
  end.

(** [main] from line 129 on, with the four integers [std::stoi] has read.
    Each call of [generatePoints] seeds a generator of its own, on a fresh
    vector.  The rows are printed only when [findKNN] has returned; an
    exception nothing catches ends the program before.  [findKNN] and
    [predictOne] allocate too (the queue, the label pushed back); as in
    their models above, those allocations are taken to succeed. *)
Definition main (n_train d n_test k : Z) (gen_train gen_test : G) (mem : M)
    : main_outcome :=
  match generatePoints [] 0 n_train d false gen_train mem with
  | (train, _, mem1, Generated) =>
      match generatePoints [] 0 n_test d true gen_test mem1 with
      | (test, _, _, Generated) =>
          match findKNN train test k d with
          | (test', Ok _) => Returns 0 train test'
          | (_, Throw e) => Uncaught e
          | (_, Undefined _) => Undefined_behaviour
          end
      | (_, _, _, length_error) => Uncaught_length_error
      | (_, _, _, bad_alloc) => Uncaught_bad_alloc
      | (_, _, _, int_overflow) => Undefined_behaviour
      end
  | (_, _, _, length_error) => Uncaught_length_error
  | (_, _, _, bad_alloc) => Uncaught_bad_alloc
  | (_, _, _, int_overflow) => Undefined_behaviour
  end.
End Generator.

(** * Specification vocabulary

    The predicates and functions the theorems are stated with. *)

(** ** The vote *)

(** The label [predictOne] reads for the neighbour of index [idx]:
    [static_cast<int>(train[idx][d])]. *)
Definition label_of (train : Dataset) (d : Z) (idx : Z) : result Z :=
  row ← vec_at train idx;
  x ← vec_at row d;
  static_cast_int x.

(** What a label adds to the tally. *)
Definition contribution (label : Z) : Z := if label =? 0 then -1 else 1.

(** The signed tally over a set of neighbours. *)
Fixpoint tally (train : Dataset) (d : Z) (h : list Neighbor) : result Z :=
  match h with
  | [] => Ok 0
  | n :: h' =>
      label ← label_of train d n.2;
      t ← tally train d h';
      Ok (contribution label + t)
  end.

(** How many of [labels] are [v]. *)
Definition count_label (v : Z) (labels : list Z) : Z :=
  Z.of_nat (length (List.filter (Z.eqb v) labels)).

(** ** Well-formed inputs *)

(** A size that [(int)] leaves as it is; such is the size of a dataset that
    [generatePoints] builds, whose number of points is an [int]. *)
Definition fits_int (n : nat) : Prop := Z.of_nat n <= INT_MAX.

(** The query and every training point have the [d] components that
    [calcDistEuclidean] reads. *)
Definition comparable (train : Dataset) (test : vec) (d : Z) : Prop :=
  d <= Z.of_nat (length test) /\
  Forall (fun row : vec => d <= Z.of_nat (length row)) train.

(** [d] features in the query, [d] features and a label in every training
    point. *)
Definition well_formed (train : Dataset) (test : vec) (d : Z) : Prop :=
  0 <= d /\ d <= Z.of_nat (length test) /\
  Forall (fun row : vec => d < Z.of_nat (length row)) train.

(** Every training point carries the label 0 or 1 at index [d]. *)
Definition binary_labels (train : Dataset) (d : Z) : Prop :=
  Forall (fun row : vec => exists x, row !! Z.to_nat d = Some x /\ (x = 0 \/ x = 1)%float) train.

(** A double that is neither infinite nor NaN. *)
Definition finite_double (x : double) : bool :=
  match Prim2SF x with
  | S754_zero _ | S754_finite _ _ _ => true
  | S754_infinity _ | S754_nan => false
  end.

(** [ds] are the distances from [test] to [rows]. *)
Definition distances_of (test : vec) (d : Z) (rows : Dataset) (ds : list double) : Prop :=
  Forall2 (fun row x => calcDistEuclidean test row d = Ok x) rows ds.

(** No distance from [test] to a training point is NaN. *)
Definition nonan_distances (train : Dataset) (test : vec) (d : Z) : Prop :=
  Forall (fun row : vec => forall r, calcDistEuclidean test row d = Ok r -> is_nan r = false)
    train.

(** The neighbour [n] is the training point of index [n.2] with its distance
    from [test]. *)
Definition neighbor_of (train : Dataset) (test : vec) (d : Z) (n : Neighbor) : Prop :=
  exists (j : nat) (row : vec),
    n.2 = Z.of_nat j /\ train !! j = Some row /\ calcDistEuclidean test row d = Ok n.1.

(** ** The order of [double]

    [<] on doubles, read off [SFcompare]: an order key for every value
    that is not NaN, compared lexicographically. *)

Definition SFkey (x : spec_float) : Z * Z * Z :=
  match x with
  | S754_infinity true => (-2, 0, 0)
  | S754_finite true m e => (-1, - e, Zneg m)
  | S754_zero _ | S754_nan => (0, 0, 0)
  | S754_finite false m e => (1, e, Zpos m)
  | S754_infinity false => (2, 0, 0)
  end.

Definition key_lt (a b : Z * Z * Z) : Prop :=
  a.1.1 < b.1.1 \/ (a.1.1 = b.1.1 /\ (a.1.2 < b.1.2 \/ (a.1.2 = b.1.2 /\ a.2 < b.2))).

Definition key_le (a b : Z * Z * Z) : Prop := ~ key_lt b a.

#[global] Instance key_le_trans : Transitive key_le.
Proof. intros [[a1 a2] a3] [[b1 b2] b3] [[c1 c2] c3]. unfold key_le, key_lt. simpl. lia. Qed.

#[global] Instance key_le_antisym : AntiSymm (=) key_le.
Proof.
  intros [[a1 a2] a3] [[b1 b2] b3]. unfold key_le, key_lt. simpl. intros H1 H2.
  assert (a1 = b1) by lia. assert (a2 = b2) by lia. assert (a3 = b3) by lia.
  congruence.
Qed.

Definition fkey (x : double) : Z * Z * Z := SFkey (Prim2SF x).

(** [x <= y] on doubles as the heap sees it: [!(y < x)]. *)
Definition fle (x y : double) : Prop := (y <? x)%float = false.

#[global] Instance fle_dec (x y : double) : Decision (fle x y).
Proof. unfold fle. apply _. Defined.

(** Not NaN, with sign [s]. *)
Definition SFsigned (s : bool) (x : spec_float) : Prop :=
  match x with
  | S754_zero s' | S754_infinity s' | S754_finite s' _ _ => s' = s
  | S754_nan => False
  end.

Definition nonan (n : Neighbor) : Prop := is_nan n.1 = false.

(** ** Heaps *)

(** No element compares greater than its parent. *)
Definition heap_ok {A : Type} (comp : A -> A -> bool) (l : list A) : Prop :=
  forall i x p, (0 < i)%nat ->
    l !! i = Some x -> l !! ((i - 1) / 2)%nat = Some p -> comp p x = false.

(** A heap with a hole: the order holds at every index but [hole], and the
    children of the hole are not greater than its parent. *)
Definition heap_hole {A : Type} (comp : A -> A -> bool) (l : list A) (hole : nat) : Prop :=
  (forall i x p, (0 < i)%nat -> i <> hole ->
     l !! i = Some x -> l !! ((i - 1) / 2)%nat = Some p -> comp p x = false) /\
  (forall i x g, (0 < hole)%nat -> (0 < i)%nat -> ((i - 1) / 2)%nat = hole ->
     l !! i = Some x -> l !! ((hole - 1) / 2)%nat = Some g -> comp g x = false).

(** The children of [hole] are not greater than [v]. *)
Definition below {A : Type} (comp : A -> A -> bool) (l : list A) (hole : nat) (v : A) : Prop :=
  forall i x, (0 < i)%nat -> ((i - 1) / 2)%nat = hole ->
    l !! i = Some x -> comp v x = false.

(** ** The scan, on the distances alone

    When every access of the scan succeeds, the heap it builds is a function
    of the distances [ds] of the training points: [scan_pure] is the loop of
    [scan_loop] with the reads taken out. *)

Definition scan_step (k : Z) (heap : list Neighbor) (dist : double) (i : Z) : list Neighbor :=
  if int_of_size (length heap) <? k then pq_push cmp (dist, i) heap
  else match heap with
       | top :: _ =>
           if (dist <? top.1)%float
           then pq_push cmp (dist, i) (removelast (pop_heap cmp heap))
           else heap
       | [] => heap
       end.

Fixpoint scan_pure (k : Z) (i : Z) (ds : list double) (heap : list Neighbor) : list Neighbor :=
  match ds with
  | [] => heap
  | dist :: ds' => scan_pure k (i + 1) ds' (scan_step k heap dist i)
  end.

(** After [i] training points: the heap holds [min i k] neighbours, of
    pairwise distinct indices below [i], each with its own distance. *)
Record scan_inv (k : Z) (ds : list double) (i : nat) (heap : list Neighbor) : Prop := {
  inv_length : Z.of_nat (length heap) = Z.min (Z.of_nat i) k;
  inv_nodup : NoDup heap.*2;
  inv_elem : forall n, n ∈ heap ->
    exists j, n.2 = Z.of_nat j /\ (j < i)%nat /\ ds !! j = Some n.1
}.

(** The heap is heap-ordered, and a training point that is not in it was
    left out of a full heap, every neighbour of which is at least as near. *)
Record order_inv (k : Z) (ds : list double) (i : nat) (heap : list Neighbor) : Prop := {
  ord_heap : heap_ok cmp heap;
  ord_out : forall j dj, (j < i)%nat -> ds !! j = Some dj ->
    Z.of_nat j ∈ heap.*2 \/
    (k <= Z.of_nat (length heap) /\ forall n, n ∈ heap -> (dj <? n.1)%float = false)
}.

(** The heap holds the first of the nearest points seen so far. *)
Definition nearest_inv (ds : list double) (i : nat) (heap : list Neighbor) : Prop :=
  exists (m : nat) (x : double),
    heap = [(x, Z.of_nat m)] /\ (m < i)%nat /\ ds !! m = Some x /\
    (forall j dj, (j < i)%nat -> ds !! j = Some dj -> (dj <? x)%float = false) /\
    (forall j dj, (j < m)%nat -> ds !! j = Some dj -> (x <? dj)%float = true).

(** ** The reference selection

    The selection in the words of the specification (section 8, property 3):
    all the distances fully sorted, ties broken by lowest index, and the
    prefix of length [k]. *)

(** Nearer first; at the same distance, lower index first. *)
Definition lex_le (a b : Neighbor) : Prop :=
  (a.1 <? b.1)%float = true \/ ((b.1 <? a.1)%float = false /\ a.2 <= b.2).

#[global] Instance lex_le_dec (a b : Neighbor) : Decision (lex_le a b).
Proof. unfold lex_le. apply _. Defined.

#[global] Instance lex_le_total : Total lex_le.
Proof.
  intros a b. unfold lex_le.
  destruct (a.1 <? b.1)%float eqn:E1; [left; left; reflexivity|].
  destruct (b.1 <? a.1)%float eqn:E2; [right; left; reflexivity|].
  destruct (Z.le_ge_cases a.2 b.2); [left | right]; right; split; auto; lia.
Qed.

(** The training points as (distance, index) pairs. *)
Definition indexed (ds : list double) : list Neighbor :=
  imap (fun i x => (x, Z.of_nat i)) ds.

Definition spec_kSmallest (ds : list double) (k : Z) : list Neighbor :=
  take (Z.to_nat k) (merge_sort lex_le (indexed ds)).

(** ** Examples *)

Definition example_train : Dataset := [[0; 0; 0]; [1; 1; 1]]%float.
Definition example_query : vec := [0.125; 0.125]%float.

(** A query at the same distance from a point labelled 0 and a point
    labelled 1. *)
Definition tie_train : Dataset := [[0; 0; 0]; [2; 0; 1]]%float.
Definition tie_query : vec := [1; 0]%float.

(** Distances 5, 5 and 3 from the query, [k = 2]: the two training points at
    distance 5 tie for the second place. *)
Definition tied_train : Dataset := [[5; 1]; [-5; 0]; [3; 0]]%float.
Definition tied_query : vec := [0]%float.

(** A generator for examples: the draws 0.5, 0.25, 0.5, ... and the labels
    0, 1, 0, ... *)
Definition example_dis (g : nat) : double * nat :=
  (if Nat.even g then 0.5%float else 0.25%float, S g).

Definition example_cls (g : nat) : Z * nat :=
  (if Nat.even g then 0 else 1, S g).

(** An allocator that grants every request, and one with a budget of [mem]
    bytes (8 for a double, 24 for a vector). *)
Definition example_allocate (mem : nat) (r : request) : option nat := Some (S mem).

Definition budget_allocate (mem : Z) (r : request) : option Z :=
  let bytes := match r with Doubles n => 8 * n | Vectors n => 24 * n end in
  if bytes <=? mem then Some (mem - bytes) else None.

(** ** Generated data *)

(** No request is refused. *)
Definition never_fails {M : Type} (allocate : M -> request -> option M) : Prop :=
  forall mem r, allocate mem r <> None.

(** A row as [generatePoints] builds it: [d] features, each a draw that
    satisfies [P], and for a training point the label, a draw that satisfies
    [Q]. *)
Definition generated_row (P : double -> Prop) (Q : Z -> Prop) (d : Z) (test : bool)
    (row : vec) : Prop :=
  exists feats,
    Z.of_nat (length feats) = d /\ Forall P feats /\
    if test then row = feats
    else exists c, Q c /\ row = feats ++ [static_cast_double c].

(** * Doubles *)

(** ** [<] is a strict weak order on the doubles that are not NaN *)

Lemma is_nan_Prim2SF (x : double) :
  is_nan x = false <-> Prim2SF x <> S754_nan.
Proof.
  unfold is_nan. rewrite FloatAxioms.eqb_spec. unfold SFeqb.
  destruct (Prim2SF x) as [s|s| |s m e]; simpl.
  - split; [discriminate | reflexivity].
  - destruct s; split; try discriminate; reflexivity.
  - split; [discriminate | intros H; contradiction H; reflexivity].
  - destruct s; rewrite Z.compare_refl; simpl;
      change (Pos.compare_cont Eq m m) with (Pos.compare m m);
      rewrite Pos.compare_refl; simpl; split; try discriminate; reflexivity.
Qed.

Lemma SFltb_key (x y : spec_float) :
  x <> S754_nan -> y <> S754_nan ->
  SFltb x y = true <-> key_lt (SFkey x) (SFkey y).
Proof.
  intros Hx Hy. unfold SFltb, key_lt.
  destruct x as [sx|sx| |sx mx ex], y as [sy|sy| |sy my ey];
    try contradiction; simpl;
    try (destruct sx); try (destruct sy); simpl;
    try (split; [discriminate | lia]); try (split; [lia | reflexivity]).
  - change (Pos.compare_cont Eq mx my) with (Pos.compare mx my).
    destruct (Z.compare_spec ex ey); simpl;
      [destruct (Pos.compare_spec mx my); simpl| |]; split; try discriminate; try reflexivity; lia.
  - change (Pos.compare_cont Eq mx my) with (Pos.compare mx my).
    destruct (Z.compare_spec ex ey); simpl;
      [destruct (Pos.compare_spec mx my); simpl| |]; split; try discriminate; try reflexivity; lia.
Qed.

Lemma ltb_key (x y : double) :
  is_nan x = false -> is_nan y = false ->
  (x <? y)%float = true <-> key_lt (fkey x) (fkey y).
Proof.
  intros Hx Hy. rewrite FloatAxioms.ltb_spec.
  apply SFltb_key; apply is_nan_Prim2SF; assumption.
Qed.

Lemma ltb_irrefl (x : double) : (x <? x)%float = false.
Proof.
  rewrite FloatAxioms.ltb_spec. unfold SFltb.
  destruct (Prim2SF x) as [s|s| |s m e]; simpl; try reflexivity.
  - destruct s; reflexivity.
  - destruct s; rewrite Z.compare_refl;
      change (Pos.compare_cont Eq m m) with (Pos.compare m m);
      rewrite Pos.compare_refl; reflexivity.
Qed.

Lemma fle_key (x y : double) :
  is_nan x = false -> is_nan y = false ->
  fle x y <-> ~ key_lt (fkey y) (fkey x).
Proof.
  intros Hx Hy. unfold fle. rewrite <- (ltb_key y x Hy Hx).
  destruct (y <? x)%float; split; congruence.
Qed.

Lemma fle_refl (x : double) : fle x x.
Proof. apply ltb_irrefl. Qed.

Lemma fle_trans (x y z : double) :
  is_nan x = false -> is_nan y = false -> is_nan z = false ->
  fle x y -> fle y z -> fle x z.
Proof.
  intros Hx Hy Hz. rewrite !fle_key by assumption.
  unfold key_lt. lia.
Qed.

Lemma ltb_fle (x y : double) : (x <? y)%float = true -> fle x y.
Proof.
  unfold fle. rewrite !FloatAxioms.ltb_spec. unfold SFltb.
  destruct (Prim2SF x) as [sx|sx| |sx mx ex], (Prim2SF y) as [sy|sy| |sy my ey];
    simpl; try discriminate; try reflexivity;
    try (destruct sx); try (destruct sy); simpl; try discriminate; try reflexivity.
  - change (Pos.compare_cont Eq mx my) with (Pos.compare mx my).
    change (Pos.compare_cont Eq my mx) with (Pos.compare my mx).
    rewrite (Z.compare_antisym ex ey), (Pos.compare_antisym mx my).
    destruct (ex ?= ey); simpl; try discriminate; try reflexivity.
    destruct (mx ?= my)%positive; simpl; try discriminate; reflexivity.
  - change (Pos.compare_cont Eq mx my) with (Pos.compare mx my).
    change (Pos.compare_cont Eq my mx) with (Pos.compare my mx).
    rewrite (Z.compare_antisym ex ey), (Pos.compare_antisym mx my).
    destruct (ex ?= ey); simpl; try discriminate; try reflexivity.
    destruct (mx ?= my)%positive; simpl; try discriminate; reflexivity.
Qed.

Lemma ltb_fle_trans (x y z : double) :
  is_nan x = false -> is_nan y = false -> is_nan z = false ->
  (x <? y)%float = true -> fle y z -> (x <? z)%float = true.
Proof.
  intros Hx Hy Hz. rewrite fle_key, !ltb_key by assumption.
  unfold key_lt. lia.
Qed.

Lemma fle_total (x y : double) : fle x y \/ fle y x.
Proof.
  destruct (y <? x)%float eqn:E; [right; apply ltb_fle, E | left; exact E].
Qed.

(** ** Squares of differences

    [a - b] and [b - a] are opposite, or both [+0]; a square does not see
    the sign. *)

Lemma binary_round_aux_opp (prec emax : Z) (s : bool) (m e : Z) (l : location) :
  binary_round_aux prec emax (negb s) m e l = SFopp (binary_round_aux prec emax s m e l).
Proof.
  unfold binary_round_aux.
  destruct (shr_fexp prec emax m e l) as [mrs' e'].
  destruct (shr_fexp prec emax _ e' loc_Exact) as [mrs'' e''].
  destruct (shr_m mrs''); simpl; try reflexivity.
  destruct (e'' <=? emax - prec); reflexivity.
Qed.

Lemma binary_normalize_opp (prec emax : Z) (m e : Z) :
  m <> 0 ->
  binary_normalize prec emax (- m) e false = SFopp (binary_normalize prec emax m e false).
Proof.
  intros Hm. destruct m as [|p|p]; [contradiction Hm; reflexivity| |]; simpl;
    unfold binary_round;
    destruct (shl_align p e _) as [mz ez].
  - apply (binary_round_aux_opp prec emax false).
  - rewrite <- (binary_round_aux_opp prec emax true). reflexivity.
Qed.

Lemma SFmul_square_opp (prec emax : Z) (x : spec_float) :
  SFmul prec emax (SFopp x) (SFopp x) = SFmul prec emax x x.
Proof. destruct x as [s|s| |s m e]; try destruct s; reflexivity. Qed.

Lemma SFsub_swap (prec emax : Z) (x y : spec_float) :
  SFsub prec emax y x = SFopp (SFsub prec emax x y) \/
  SFsub prec emax y x = SFsub prec emax x y.
Proof.
  destruct x as [sx|sx| |sx mx ex], y as [sy|sy| |sy my ey];
    try (destruct sx; destruct sy; simpl; auto; fail);
    try (destruct sx; simpl; auto; fail); try (destruct sy; simpl; auto; fail);
    try (simpl; auto; fail).
  lazy beta iota zeta delta [SFsub].
  rewrite (Z.min_comm ey ex).
  set (a := cond_Zopp sx (Zpos (shl_align mx ex (Z.min ex ey)).1)).
  set (b := cond_Zopp sy (Zpos (shl_align my ey (Z.min ex ey)).1)).
  destruct (Z.eq_dec (a - b) 0) as [E|E].
  - right. replace (b - a) with 0 by lia. rewrite E. reflexivity.
  - left. replace (b - a) with (- (a - b)) by lia. apply binary_normalize_opp, E.
Qed.

Lemma square_diff_sym (a b : double) :
  ((a - b) * (a - b))%float = ((b - a) * (b - a))%float.
Proof.
  apply Prim2SF_inj. rewrite !FloatAxioms.mul_spec, !FloatAxioms.sub_spec. unfold SF64mul, SF64sub.
  destruct (SFsub_swap prec emax (Prim2SF a) (Prim2SF b)) as [E|E]; rewrite E.
  - rewrite SFmul_square_opp. reflexivity.
  - reflexivity.
Qed.

(** ** Finite features give a distance that is not NaN *)

Lemma shr_1_nonneg (mrs : shr_record) : 0 <= shr_m mrs -> 0 <= shr_m (shr_1 mrs).
Proof.
  destruct mrs as [m r s]. simpl. destruct m as [|p|p]; [simpl; lia| |lia].
  destruct p; simpl; lia.
Qed.

Lemma iter_shr_1_nonneg (p : positive) :
  forall mrs, 0 <= shr_m mrs -> 0 <= shr_m (SpecFloat.iter_pos shr_1 p mrs).
Proof.
  induction p as [p IH|p IH|]; intros mrs H; simpl.
  - apply IH, IH, shr_1_nonneg, H.
  - apply IH, IH, H.
  - apply shr_1_nonneg, H.
Qed.

Lemma shr_fexp_nonneg (prec emax m e : Z) (l : location) :
  0 <= m -> 0 <= shr_m (shr_fexp prec emax m e l).1.
Proof.
  intros H. unfold shr_fexp, shr.
  assert (H0 : 0 <= shr_m (shr_record_of_loc m l))
    by (destruct l as [|[]]; simpl; exact H).
  destruct (fexp prec emax (Zdigits2 m + e) - e); simpl; try exact H0.
  apply iter_shr_1_nonneg, H0.
Qed.

Lemma round_nearest_even_nonneg (m : Z) (l : location) :
  0 <= m -> 0 <= round_nearest_even m l.
Proof.
  intros H. unfold round_nearest_even.
  destruct l as [|[]]; try lia. destruct (Z.even m); lia.
Qed.

Lemma binary_round_aux_signed (prec emax : Z) (s : bool) (m e : Z) (l : location) :
  0 <= m -> SFsigned s (binary_round_aux prec emax s m e l).
Proof.
  intros H. unfold binary_round_aux.
  pose proof (shr_fexp_nonneg prec emax m e l H) as H1.
  destruct (shr_fexp prec emax m e l) as [mrs' e']. simpl in H1.
  pose proof (shr_fexp_nonneg prec emax _ e' loc_Exact
    (round_nearest_even_nonneg (shr_m mrs') (loc_of_shr_record mrs') H1)) as H2.
  destruct (shr_fexp prec emax _ e' loc_Exact) as [mrs'' e'']. simpl in H2.
  destruct (shr_m mrs''); simpl; [reflexivity | | lia].
  destruct (e'' <=? emax - prec); reflexivity.
Qed.

Lemma binary_round_signed (prec emax : Z) (s : bool) (m : positive) (e : Z) :
  SFsigned s (binary_round prec emax s m e).
Proof.
  unfold binary_round. destruct (shl_align m e _) as [mz ez].
  apply binary_round_aux_signed. lia.
Qed.

Lemma binary_normalize_notnan (prec emax m e : Z) :
  binary_normalize prec emax m e false <> S754_nan.
Proof.
  destruct m as [|p|p]; simpl; [discriminate| |].
  - pose proof (binary_round_signed prec emax false p e) as H.
    destruct (binary_round prec emax false p e); simpl in H; congruence.
  - pose proof (binary_round_signed prec emax true p e) as H.
    destruct (binary_round prec emax true p e); simpl in H; congruence.
Qed.

Lemma SFsub_finite (prec emax : Z) (x y : spec_float) :
  match x with S754_zero _ | S754_finite _ _ _ => True | _ => False end ->
  match y with S754_zero _ | S754_finite _ _ _ => True | _ => False end ->
  SFsub prec emax x y <> S754_nan.
Proof.
  destruct x as [sx|sx| |sx mx ex], y as [sy|sy| |sy my ey]; try contradiction; intros _ _.
  - destruct sx, sy; discriminate.
  - discriminate.
  - discriminate.
  - apply binary_normalize_notnan.
Qed.

Lemma SFmul_square_signed (prec emax : Z) (x : spec_float) :
  x <> S754_nan -> SFsigned false (SFmul prec emax x x).
Proof.
  destruct x as [s|s| |s m e]; intros H; try (destruct s; reflexivity); [contradiction|].
  cbn [SFmul]. replace (xorb s s) with false by (destruct s; reflexivity).
  apply binary_round_aux_signed. lia.
Qed.

Lemma SFadd_signed (prec emax : Z) (x y : spec_float) :
  SFsigned false x -> SFsigned false y -> SFsigned false (SFadd prec emax x y).
Proof.
  destruct x as [sx|sx| |sx mx ex], y as [sy|sy| |sy my ey];
    simpl; try contradiction; intros -> ->; try reflexivity.
  apply binary_round_signed.
Qed.

Lemma SFsqrt_signed (prec emax : Z) (x : spec_float) :
  SFsigned false x -> SFsigned false (SFsqrt prec emax x).
Proof.
  destruct x as [s|s| |s m e]; simpl; try contradiction; intros ->; try reflexivity.
  destruct (SFsqrt_core_binary prec emax (Z.pos m) e) as [[mz ez] lz] eqn:E.
  apply binary_round_aux_signed.
  unfold SFsqrt_core_binary in E.
  destruct (Z.sqrtrem _) as [q r] eqn:Hq in E. injection E as <- _ _.
  match type of Hq with Z.sqrtrem ?n = _ => destruct n as [|p|p] end; simpl in Hq.
  - injection Hq as <- _. lia.
  - destruct (Pos.sqrtrem p) as [sq [| |]]; injection Hq as <- _; lia.
  - injection Hq as <- _. lia.
Qed.

Lemma calcDist_loop_signed (p1 p2 : vec) (n : nat) :
  Forall (fun x => finite_double x = true) p1 ->
  Forall (fun x => finite_double x = true) p2 ->
  forall i sum r, SFsigned false (Prim2SF sum) ->
    calcDist_loop p1 p2 i n sum = Ok r -> SFsigned false (Prim2SF r).
Proof.
  intros H1 H2. induction n as [|n IH]; intros i sum r Hs E; cbn [calcDist_loop] in E.
  { injection E as <-. exact Hs. }
  unfold vec_at in E. destruct (i <? 0); [discriminate|].
  destruct (p1 !! Z.to_nat i) as [a|] eqn:Ha; [|discriminate].
  destruct (p2 !! Z.to_nat i) as [b|] eqn:Hb; [|discriminate].
  cbn [mbind result_bind] in E. refine (IH _ _ _ _ E). clear E IH.
  pose proof (Forall_lookup_1 _ _ _ _ H1 Ha) as Fa.
  pose proof (Forall_lookup_1 _ _ _ _ H2 Hb) as Fb.
  unfold finite_double in Fa, Fb.
  rewrite FloatAxioms.add_spec, FloatAxioms.mul_spec, FloatAxioms.sub_spec.
  apply SFadd_signed; [exact Hs|]. apply SFmul_square_signed, SFsub_finite.
  - destruct (Prim2SF a); try discriminate; exact I.
  - destruct (Prim2SF b); try discriminate; exact I.
Qed.

Lemma calcDistEuclidean_finite (p1 p2 : vec) (d : Z) (r : double) :
  Forall (fun x => finite_double x = true) p1 ->
  Forall (fun x => finite_double x = true) p2 ->
  calcDistEuclidean p1 p2 d = Ok r -> is_nan r = false.
Proof.
  intros H1 H2 E. unfold calcDistEuclidean in E.
  destruct (calcDist_loop p1 p2 0 (Z.to_nat d) 0) as [s| |] eqn:Es;
    cbn [mbind result_bind] in E; try discriminate.
  injection E as <-. apply is_nan_Prim2SF.
  pose proof (calcDist_loop_signed p1 p2 _ H1 H2 0 0%float s eq_refl Es) as Hs.
  apply (SFsqrt_signed prec emax) in Hs. rewrite FloatAxioms.sqrt_spec.
  unfold SF64sqrt. destruct (SFsqrt prec emax (Prim2SF s)); simpl in Hs; congruence.
Qed.

(** * The priority queue *)

(** ** The heap algorithms keep the elements *)

Section HeapPermutation.
Context {A : Type} (comp : A -> A -> bool).
Implicit Types (l first c : list A) (x y v : A).

Lemma insert_cons_perm l j x y :
  l !! j = Some y -> y :: <[j := x]> l ≡ₚ x :: l.
Proof.
  revert j. induction l as [|a l IH]; intros [|j] H; simplify_eq/=.
  - apply perm_swap.
  - rewrite (perm_swap a y), (IH j H). apply perm_swap.
Qed.

(** Moving the element at [p] into the hole and the hole to [p]. *)
Lemma insert_move_perm l hole p a v :
  l !! p = Some a -> (hole < length l)%nat -> p <> hole ->
  <[p := v]> (<[hole := a]> l) ≡ₚ <[hole := v]> l.
Proof.
  intros Hp Hh Hne.
  destruct (lookup_lt_is_Some_2 l hole Hh) as [h Hl].
  assert (H1 : <[hole := a]> l !! p = Some a)
    by (rewrite list_lookup_insert_ne by congruence; exact Hp).
  apply (insert_cons_perm _ _ v) in H1.
  pose proof (insert_cons_perm l hole a h Hl) as H2.
  pose proof (insert_cons_perm l hole v h Hl) as H3.
  apply (Permutation_cons_inv (a := a)), (Permutation_cons_inv (a := h)).
  etrans; [apply perm_skip, H1|].
  etrans; [apply perm_swap|].
  etrans; [apply perm_skip, H2|].
  symmetry. etrans; [apply perm_swap|].
  etrans; [apply perm_skip, H3|]. apply perm_swap.
Qed.

Lemma __push_heap_perm fuel first holeIndex topIndex v :
  (holeIndex < length first)%nat ->
  __push_heap comp fuel first holeIndex topIndex v ≡ₚ <[holeIndex := v]> first.
Proof.
  revert first holeIndex.
  induction fuel as [|fuel IH]; intros first hole Hh; simpl; [reflexivity|].
  destruct (first !! ((hole - 1) / 2)%nat) as [p|] eqn:Hp; [|reflexivity].
  destruct ((topIndex <? hole)%nat && comp p v) eqn:Hc; [|reflexivity].
  apply andb_true_iff in Hc as [Ht _]. apply Nat.ltb_lt in Ht.
  rewrite IH by (rewrite length_insert; lia).
  apply insert_move_perm; [exact Hp | exact Hh | lia].
Qed.

Lemma __push_heap_length fuel first holeIndex topIndex v :
  length (__push_heap comp fuel first holeIndex topIndex v) = length first.
Proof.
  revert first holeIndex.
  induction fuel as [|fuel IH]; intros first hole; simpl.
  - apply length_insert.
  - destruct (first !! ((hole - 1) / 2)%nat) as [p|]; [|apply length_insert].
    destruct ((topIndex <? hole)%nat && comp p v); [|apply length_insert].
    rewrite IH. apply length_insert.
Qed.

Lemma __adjust_heap_sink_perm fuel first holeIndex len first' hole' v :
  __adjust_heap_sink comp fuel first holeIndex len = (first', hole') ->
  (holeIndex < length first)%nat ->
  (hole' < length first')%nat /\ <[hole' := v]> first' ≡ₚ <[holeIndex := v]> first.
Proof.
  revert first holeIndex.
  induction fuel as [|fuel IH]; intros first hole E Hh; simpl in E.
  { simplify_eq. split; [exact Hh | reflexivity]. }
  destruct (hole <? (len - 1) / 2)%nat; [|simplify_eq; split; [exact Hh | reflexivity]].
  destruct (first !! (2 * (hole + 1))%nat) as [r|] eqn:Hr;
    [|simplify_eq; split; [exact Hh | reflexivity]].
  destruct (first !! (2 * (hole + 1) - 1)%nat) as [l|] eqn:Hl;
    [|simplify_eq; split; [exact Hh | reflexivity]].
  destruct (comp r l); apply IH in E as [E1 E2];
    try (rewrite length_insert; eauto using lookup_lt_Some);
    (split; [exact E1|]); rewrite E2;
    (apply insert_move_perm; [eassumption | exact Hh | lia]).
Qed.

Lemma __adjust_heap_perm first holeIndex len v :
  (holeIndex < length first)%nat ->
  __adjust_heap comp first holeIndex len v ≡ₚ <[holeIndex := v]> first.
Proof.
  intros Hh. unfold __adjust_heap.
  destruct (__adjust_heap_sink comp len first holeIndex len) as [first1 sc] eqn:E.
  apply (__adjust_heap_sink_perm _ _ _ _ _ _ v) in E as [E1 E2]; [|exact Hh].
  destruct (Nat.even len && (sc =? (len - 2) / 2)%nat).
  - destruct (first1 !! (2 * (sc + 1) - 1)%nat) as [x|] eqn:Hx.
    + rewrite __push_heap_perm
        by (rewrite length_insert; eauto using lookup_lt_Some).
      rewrite <- E2. apply insert_move_perm; [exact Hx | exact E1 | lia].
    + rewrite __push_heap_perm by exact E1. exact E2.
  - rewrite __push_heap_perm by exact E1. exact E2.
Qed.

Lemma pq_push_perm x c : pq_push comp x c ≡ₚ x :: c.
Proof.
  unfold pq_push, push_heap. rewrite last_snoc, length_app. simpl.
  rewrite __push_heap_perm by (rewrite length_app; simpl; lia).
  replace (length c + 1 - 1)%nat with (length c + 0)%nat by lia.
  rewrite insert_app_r. simpl. symmetry. apply Permutation_cons_append.
Qed.

Lemma pq_push_length x c : length (pq_push comp x c) = S (length c).
Proof. rewrite (Permutation_length (pq_push_perm x c)). reflexivity. Qed.

Lemma pop_heap_snoc (c : list A) top :
  head c = Some top ->
  exists c', pop_heap comp c = c' ++ [top] /\ top :: c' ≡ₚ c.
Proof.
  intros Hd. unfold pop_heap. rewrite Hd.
  destruct (1 <? length c)%nat eqn:Hn.
  - apply Nat.ltb_lt in Hn.
    destruct (last c) as [value|] eqn:Hl;
      [|apply last_None in Hl; subst; discriminate].
    apply last_Some in Hl as [body ->].
    rewrite length_app, Nat.add_sub, take_app_length. simpl.
    eexists; split; [reflexivity|].
    rewrite length_app in Hn. simpl in Hn.
    destruct body as [|t body]; [simpl in Hn; lia|].
    simpl in Hd. simplify_eq.
    rewrite __adjust_heap_perm by (simpl; lia). simpl.
    apply perm_skip. apply Permutation_cons_append.
  - apply Nat.ltb_ge in Hn.
    destruct c as [|t [|u c]]; simpl in *; simplify_eq; [|lia].
    exists []. split; reflexivity.
Qed.

Lemma pq_pop_perm (c : list A) top :
  head c = Some top ->
  exists c', pq_pop comp c = Ok c' /\ top :: c' ≡ₚ c.
Proof.
  intros Hd. destruct (pop_heap_snoc c top Hd) as (c' & E & Hp).
  exists c'. split; [|exact Hp].
  destruct c as [|t c]; [discriminate|].
  unfold pq_pop. rewrite E, removelast_last. reflexivity.
Qed.
End HeapPermutation.

(** ** The heap algorithms keep the heap order

    [P] picks the elements the comparison orders (for [cmp]: a distance that
    is not NaN). *)

Section HeapOrder.
Context {A : Type} (comp : A -> A -> bool) (P : A -> Prop).
Hypothesis comp_irrefl : forall x, comp x x = false.
Hypothesis comp_asym : forall x y, comp x y = true -> comp y x = false.
Hypothesis comp_trans : forall x y z, P x -> P y -> P z ->
  comp y x = false -> comp z y = false -> comp z x = false.
Implicit Types (l first c : list A) (x y v : A).

Lemma Forall_at l i x : Forall P l -> l !! i = Some x -> P x.
Proof. intros H. apply (Forall_lookup_1 P l i x H). Qed.

Lemma heap_ok_nil : heap_ok comp [].
Proof. intros i x p _ H. discriminate. Qed.

Lemma heap_ok_hole l hole : Forall P l -> heap_ok comp l -> heap_hole comp l hole.
Proof.
  intros HP Hok. split.
  - intros i x p Hi _. apply Hok, Hi.
  - intros i x g Hh Hi Hpar Hx Hg.
    destruct (lookup_lt_is_Some_2 l hole) as [h Hl];
      [apply lookup_lt_Some in Hx; lia|].
    apply (comp_trans x h g);
      [eapply Forall_at; eassumption .. | |].
    + apply (Hok i x h Hi Hx). rewrite Hpar. exact Hl.
    + apply (Hok hole h g Hh Hl Hg).
Qed.

Lemma insert_heap_ok l hole v :
  heap_hole comp l hole -> below comp l hole v ->
  (forall p, (0 < hole)%nat -> l !! ((hole - 1) / 2)%nat = Some p -> comp p v = false) ->
  heap_ok comp (<[hole := v]> l).
Proof.
  intros [Ha _] Hb Hp i x q Hi Hx Hq.
  apply list_lookup_insert_Some in Hx as [(-> & -> & _) | (Hne & Hx)].
  - rewrite list_lookup_insert_ne in Hq by lia. apply (Hp q Hi Hq).
  - apply list_lookup_insert_Some in Hq as [(E & -> & _) | (Hne2 & Hq)].
    + apply (Hb i x Hi); [symmetry; exact E | exact Hx].
    + apply (Ha i x q Hi); [congruence | exact Hx | exact Hq].
Qed.

Lemma __push_heap_ok fuel l hole v :
  (hole <= fuel)%nat -> (hole < length l)%nat ->
  Forall P l -> P v -> heap_hole comp l hole -> below comp l hole v ->
  heap_ok comp (__push_heap comp fuel l hole 0 v).
Proof.
  revert l hole.
  induction fuel as [|fuel IH]; intros l hole Hf Hh HP Hv Hhole Hb; simpl.
  { apply insert_heap_ok; [exact Hhole | exact Hb | intros; lia]. }
  destruct (l !! ((hole - 1) / 2)%nat) as [p|] eqn:Hp;
    [|apply insert_heap_ok; [exact Hhole | exact Hb | intros; congruence]].
  destruct ((0 <? hole)%nat && comp p v) eqn:Hc.
  - apply andb_true_iff in Hc as [Ht Hc]. apply Nat.ltb_lt in Ht.
    assert (Pp : P p) by eauto using Forall_at.
    destruct Hhole as [Ha Hg].
    apply IH.
    + lia.
    + rewrite length_insert. lia.
    + apply Forall_insert; assumption.
    + exact Hv.
    + split.
      * intros i x q Hi Hne Hx Hq.
        apply list_lookup_insert_Some in Hx as [(-> & -> & _) | (Hne' & Hx)].
        -- rewrite list_lookup_insert_ne in Hq by lia.
           rewrite Hp in Hq. simplify_eq. apply comp_irrefl.
        -- apply list_lookup_insert_Some in Hq as [(E & -> & _) | (Hne2 & Hq)].
           ++ apply (Hg i x q Ht Hi); [symmetry; exact E | exact Hx | exact Hp].
           ++ apply (Ha i x q Hi); [congruence | exact Hx | exact Hq].
      * intros i x g Hpos Hi Hpar Hx Hgp.
        rewrite list_lookup_insert_ne in Hgp by lia.
        assert (Hpg : comp g p = false)
          by (apply (Ha _ p g Hpos); [lia | exact Hp | exact Hgp]).
        apply list_lookup_insert_Some in Hx as [(-> & -> & _) | (Hne' & Hx)];
          [exact Hpg|].
        apply (comp_trans x p g);
          [eapply Forall_at; eassumption .. | | exact Hpg].
        apply (Ha i x p Hi); [congruence | exact Hx | rewrite Hpar; exact Hp].
    + intros i x Hi Hpar Hx.
      apply list_lookup_insert_Some in Hx as [(-> & -> & _) | (Hne' & Hx)];
        [apply comp_asym, Hc|].
      apply (comp_trans x p v);
        [eapply Forall_at; eassumption | exact Pp | exact Hv | | apply comp_asym, Hc].
      apply (Ha i x p Hi); [congruence | exact Hx | rewrite Hpar; exact Hp].
  - apply insert_heap_ok; [exact Hhole | exact Hb |].
    intros q Hpos Hq. rewrite Hp in Hq. simplify_eq.
    apply andb_false_iff in Hc as [Hc|Hc]; [apply Nat.ltb_ge in Hc; lia | exact Hc].
Qed.
(** One step down: the greater child moves into the hole. *)
Lemma sink_step_ok l hole i child :
  Forall P l -> heap_ok comp l ->
  (0 < i)%nat -> ((i - 1) / 2)%nat = hole -> l !! i = Some child ->
  below comp l hole child ->
  heap_ok comp (<[hole := child]> l).
Proof.
  intros HP Hok Hi Hpar Hc Hb j x q Hj Hx Hq.
  destruct (lookup_lt_is_Some_2 l hole) as [h Hl];
    [apply lookup_lt_Some in Hc; lia|].
  apply list_lookup_insert_Some in Hx as [(-> & -> & _) | (Hne & Hx)].
  - rewrite list_lookup_insert_ne in Hq by lia.
    apply (comp_trans x h q); [eapply Forall_at; eassumption .. | |].
    + apply (Hok i x h Hi Hc). rewrite Hpar. exact Hl.
    + apply (Hok _ h q Hj Hl Hq).
  - apply list_lookup_insert_Some in Hq as [(E & -> & _) | (Hne2 & Hq)].
    + apply (Hb j x Hj); [symmetry; exact E | exact Hx].
    + apply (Hok j x q Hj Hx Hq).
Qed.

Lemma __adjust_heap_sink_ok fuel l hole len l' hole' :
  __adjust_heap_sink comp fuel l hole len = (l', hole') ->
  length l = len -> (hole < len)%nat -> (len <= hole + fuel)%nat ->
  Forall P l -> heap_ok comp l ->
  heap_ok comp l' /\ Forall P l' /\ length l' = len /\
  (hole' < len)%nat /\ ((len - 1) / 2 <= hole')%nat.
Proof.
  revert l hole.
  induction fuel as [|fuel IH]; intros l hole E Hlen Hh Hf HP Hok; simpl in E; [lia|].
  destruct (hole <? (len - 1) / 2)%nat eqn:Hlt;
    [apply Nat.ltb_lt in Hlt
    |apply Nat.ltb_ge in Hlt; simplify_eq; auto with lia].
  destruct (l !! (2 * (hole + 1))%nat) as [r|] eqn:Hr;
    [|apply lookup_ge_None in Hr; lia].
  destruct (l !! (2 * (hole + 1) - 1)%nat) as [lc|] eqn:Hl;
    [|apply lookup_ge_None in Hl; lia].
  destruct (comp r lc) eqn:Hc; apply IH in E; try exact E;
    try (rewrite length_insert; exact Hlen); try lia;
    try (apply Forall_insert; [exact HP | eapply Forall_at; eassumption]).
  - apply (sink_step_ok l hole (2 * (hole + 1) - 1)); try assumption; try lia.
    intros j x Hj Hpar Hx.
    assert (Hcases : j = (2 * (hole + 1) - 1)%nat \/ j = (2 * (hole + 1))%nat) by lia.
    destruct Hcases as [-> | ->]; simplify_eq; [apply comp_irrefl | apply comp_asym, Hc].
  - apply (sink_step_ok l hole (2 * (hole + 1))); try assumption; try lia.
    intros j x Hj Hpar Hx.
    assert (Hcases : j = (2 * (hole + 1) - 1)%nat \/ j = (2 * (hole + 1))%nat) by lia.
    destruct Hcases as [-> | ->]; simplify_eq; [exact Hc | apply comp_irrefl].
Qed.

Lemma leaf_below l hole v : (length l <= 2 * hole + 1)%nat -> below comp l hole v.
Proof. intros H i x Hi Hpar Hx. apply lookup_lt_Some in Hx. lia. Qed.

Lemma __adjust_heap_ok l len v :
  length l = len -> (0 < len)%nat -> Forall P l -> P v -> heap_ok comp l ->
  heap_ok comp (__adjust_heap comp l 0 len v).
Proof.
  intros Hlen Hpos HP Hv Hok. unfold __adjust_heap.
  destruct (__adjust_heap_sink comp len l 0 len) as [l1 sc] eqn:E.
  apply __adjust_heap_sink_ok in E as (Hok1 & HP1 & Hlen1 & Hsc & Hge);
    try assumption; try lia.
  destruct (Nat.even len && (sc =? (len - 2) / 2)%nat) eqn:Hev.
  - apply andb_true_iff in Hev as [Hev Hsc2].
    apply Nat.even_spec in Hev as [m Hm]. apply Nat.eqb_eq in Hsc2.
    destruct (l1 !! (2 * (sc + 1) - 1)%nat) as [x|] eqn:Hx;
      [|apply lookup_ge_None in Hx; lia].
    apply __push_heap_ok; try assumption.
    + lia.
    + rewrite length_insert. lia.
    + apply Forall_insert; [exact HP1 | eapply Forall_at; eassumption].
    + apply heap_ok_hole.
      { apply Forall_insert; [exact HP1 | eapply Forall_at; eassumption]. }
      apply (sink_step_ok l1 sc (2 * (sc + 1) - 1)); try assumption; try lia.
      intros j y Hj Hpar Hy.
      assert (Hcases : j = (2 * (sc + 1) - 1)%nat \/ j = (2 * (sc + 1))%nat) by lia.
      destruct Hcases as [-> | ->]; simplify_eq; [apply comp_irrefl|].
      apply lookup_lt_Some in Hy. lia.
    + apply leaf_below. rewrite length_insert. lia.
  - apply __push_heap_ok; try assumption.
    + lia.
    + lia.
    + apply heap_ok_hole; assumption.
    + apply leaf_below. apply andb_false_iff in Hev as [Hev|Hev].
      * destruct (Nat.Even_or_Odd len) as [Hl|[m Hm]];
          [apply Nat.even_spec in Hl; congruence | lia].
      * apply Nat.eqb_neq in Hev. lia.
Qed.

Lemma heap_ok_take l n : heap_ok comp l -> heap_ok comp (take n l).
Proof.
  intros Hok i x p Hi Hx Hp.
  apply lookup_take_Some in Hx as [Hx _]. apply lookup_take_Some in Hp as [Hp _].
  apply (Hok i x p Hi Hx Hp).
Qed.

Lemma pq_push_ok x c :
  heap_ok comp c -> Forall P c -> P x -> heap_ok comp (pq_push comp x c).
Proof.
  intros Hok HP Hx. unfold pq_push, push_heap.
  rewrite last_snoc, length_app. simpl.
  replace (length c + 1 - 1)%nat with (length c) by lia.
  apply __push_heap_ok.
  - lia.
  - rewrite length_app. simpl. lia.
  - apply Forall_app. split; [exact HP | repeat constructor; exact Hx].
  - exact Hx.
  - split.
    + intros i y p Hi Hne Hy Hp.
      apply lookup_app_Some in Hy as [Hy | [Hge Hy]];
        [|apply lookup_lt_Some in Hy; simpl in Hy; lia].
      apply (Hok i y p Hi Hy).
      rewrite lookup_app_l in Hp; [exact Hp | apply lookup_lt_Some in Hy; lia].
    + intros i y g _ Hi Hpar Hy _.
      apply lookup_lt_Some in Hy. rewrite length_app in Hy. simpl in Hy. lia.
  - apply leaf_below. rewrite length_app. simpl. lia.
Qed.

Lemma pq_pop_ok c c' :
  heap_ok comp c -> Forall P c -> pq_pop comp c = Ok c' -> heap_ok comp c'.
Proof.
  intros Hok HP E. destruct c as [|t c]; [discriminate|].
  unfold pq_pop in E. injection E as <-. unfold pop_heap.
  destruct (1 <? length (t :: c))%nat eqn:Hn.
  - apply Nat.ltb_lt in Hn. cbn [head].
    destruct (last (t :: c)) as [value|] eqn:Hl;
      [|apply last_None in Hl; discriminate].
    rewrite removelast_last.
    apply __adjust_heap_ok.
    + rewrite length_take. lia.
    + lia.
    + apply Forall_take, HP.
    + rewrite last_lookup in Hl. eapply Forall_at; eassumption.
    + apply heap_ok_take, Hok.
  - apply Nat.ltb_ge in Hn. destruct c; [|simpl in Hn; lia].
    simpl. apply heap_ok_nil.
Qed.

(** The top of a heap is a greatest element. *)
Lemma heap_top_max l t i x :
  heap_ok comp l -> Forall P l -> l !! 0%nat = Some t -> l !! i = Some x ->
  comp t x = false.
Proof.
  intros Hok HP Ht. revert x.
  induction i as [i IH] using lt_wf_ind. intros x Hx.
  destruct (Nat.eq_dec i 0%nat) as [->|Hi]; [simplify_eq; apply comp_irrefl|].
  destruct (lookup_lt_is_Some_2 l ((i - 1) / 2)%nat) as [p Hp];
    [apply lookup_lt_Some in Hx; lia|].
  apply (comp_trans x p t); [eapply Forall_at; eassumption .. | |].
  - apply (Hok i x p); [lia | exact Hx | exact Hp].
  - apply (IH ((i - 1) / 2)%nat); [lia | exact Hp].
Qed.
End HeapOrder.

(** ** [cmp] orders the neighbours whose distance is not NaN *)

Lemma cmp_irrefl (x : Neighbor) : cmp x x = false.
Proof. apply ltb_irrefl. Qed.

Lemma cmp_asym (x y : Neighbor) : cmp x y = true -> cmp y x = false.
Proof. apply ltb_fle. Qed.

Lemma cmp_trans (x y z : Neighbor) :
  nonan x -> nonan y -> nonan z ->
  cmp y x = false -> cmp z y = false -> cmp z x = false.
Proof. unfold cmp, nonan. intros Hx Hy Hz. apply (fle_trans x.1 y.1 z.1 Hx Hy Hz). Qed.

(** * The scan and the vote *)

(** ** The scan is [scan_pure] on the distances *)

Lemma int_of_size_fits (n : nat) :
  Z.of_nat n <= INT_MAX -> int_of_size n = Z.of_nat n.
Proof.
  unfold INT_MAX, int_of_size. intros H.
  rewrite Z.mod_small by lia. lia.
Qed.

Lemma vec_at_middle {A : Type} (pre : list A) (x : A) (post : list A) :
  vec_at (pre ++ x :: post) (Z.of_nat (length pre)) = Ok x.
Proof.
  unfold vec_at. destruct (Z.of_nat (length pre) <? 0) eqn:E; [lia|].
  rewrite Nat2Z.id, list_lookup_middle by reflexivity. reflexivity.
Qed.

Lemma scan_loop_pure (train : Dataset) (test : vec) (k d : Z) :
  0 < k ->
  forall rows ds, distances_of test d rows ds ->
  forall pre heap, train = pre ++ rows ->
    scan_loop train test k d (Z.of_nat (length pre)) (length rows) heap
    = Ok (scan_pure k (Z.of_nat (length pre)) ds heap).
Proof.
  intros Hk rows ds HF.
  induction HF as [|row x rows ds Hx HF IH]; intros pre heap ->; [reflexivity|].
  cbn [length scan_loop scan_pure]. rewrite vec_at_middle. cbn [mbind result_bind].
  rewrite Hx. cbn [mbind result_bind].
  assert (Hnext : forall h,
    scan_loop (pre ++ row :: rows) test k d (Z.of_nat (length pre) + 1) (length rows) h
    = Ok (scan_pure k (Z.of_nat (length pre) + 1) ds h)).
  { intros h. specialize (IH (pre ++ [row]) h).
    rewrite length_app in IH. simpl in IH.
    rewrite Nat2Z.inj_add in IH. apply IH.
    rewrite <- app_assoc. reflexivity. }
  unfold scan_step.
  destruct (int_of_size (length heap) <? k) eqn:Hlen; [apply Hnext|].
  destruct heap as [|top heap];
    [change (int_of_size (length (@nil Neighbor))) with 0 in Hlen; lia|].
  cbn [pq_top mbind result_bind].
  destruct (x <? top.1)%float; [|apply Hnext].
  cbn [pq_pop mbind result_bind]. apply Hnext.
Qed.

Lemma scan_step_cases (k : Z) (heap : list Neighbor) (dist : double) (i : Z) :
  0 < k -> Z.of_nat (length heap) <= INT_MAX ->
  (Z.of_nat (length heap) < k /\ scan_step k heap dist i = pq_push cmp (dist, i) heap) \/
  (k <= Z.of_nat (length heap) /\
   exists top c', head heap = Some top /\ pq_pop cmp heap = Ok c' /\ top :: c' ≡ₚ heap /\
     (((dist <? top.1)%float = true /\ scan_step k heap dist i = pq_push cmp (dist, i) c') \/
      ((dist <? top.1)%float = false /\ scan_step k heap dist i = heap))).
Proof.
  intros Hk Hfit. unfold scan_step. rewrite int_of_size_fits by exact Hfit.
  destruct (Z.of_nat (length heap) <? k) eqn:Hlen; [left; split; [lia | reflexivity]|].
  right. split; [lia|].
  destruct heap as [|top heap]; [simpl in Hlen; lia|].
  destruct (pq_pop_perm cmp (top :: heap) top eq_refl) as (c' & Hpop & Hperm).
  exists top, c'. repeat split; try assumption.
  cbn [pq_pop] in Hpop. injection Hpop as Hc'. rewrite Hc'.
  destruct (dist <? top.1)%float; [left | right]; split; reflexivity.
Qed.

Section ScanInvariant.
Variables (k : Z) (ds : list double).
Hypothesis k_pos : 0 < k.
Hypothesis ds_fits : Z.of_nat (length ds) <= INT_MAX.

Lemma scan_inv_nil : scan_inv k ds 0 [].
Proof.
  split.
  - simpl. lia.
  - constructor.
  - intros n Hn. inversion Hn.
Qed.

Lemma scan_inv_fresh i heap : scan_inv k ds i heap -> Z.of_nat i ∉ heap.*2.
Proof.
  intros Hinv Hin. apply list_elem_of_fmap in Hin as (n & E & Hn).
  destruct (inv_elem _ _ _ _ Hinv n Hn) as (j & Ej & Hj & _). lia.
Qed.

Lemma scan_step_inv i heap dist :
  ds !! i = Some dist -> scan_inv k ds i heap ->
  scan_inv k ds (S i) (scan_step k heap dist (Z.of_nat i)).
Proof.
  intros Hd Hinv. pose proof (lookup_lt_Some _ _ _ Hd) as Hi.
  pose proof (scan_inv_fresh i heap Hinv) as Hfresh.
  destruct Hinv as [Hlen Hnd Hel].
  destruct (scan_step_cases k heap dist (Z.of_nat i) k_pos) as
    [[Hlt ->] | (Hge & top & c' & Hhd & Hpop & Hperm & [[Hc ->] | [Hc ->]])];
    [lia | | | ].
  - pose proof (pq_push_perm cmp (dist, Z.of_nat i) heap) as Hp. split.
    + rewrite pq_push_length. lia.
    + rewrite Hp. cbn [fmap list_fmap]. apply NoDup_cons. split; assumption.
    + intros n Hn. rewrite Hp in Hn. apply elem_of_cons in Hn as [-> | Hn].
      * exists i. repeat split; [lia | exact Hd].
      * destruct (Hel n Hn) as (j & Ej & Hj & Hds). exists j. repeat split; [exact Ej | lia | exact Hds].
  - pose proof (pq_push_perm cmp (dist, Z.of_nat i) c') as Hp.
    assert (Hsub : forall n, n ∈ c' -> n ∈ heap)
      by (intros n Hn; rewrite <- Hperm; apply elem_of_cons; right; exact Hn).
    rewrite <- Hperm in Hnd, Hlen, Hfresh. cbn [fmap list_fmap length] in Hnd, Hlen, Hfresh.
    apply NoDup_cons in Hnd as [_ Hnd]. apply not_elem_of_cons in Hfresh as [_ Hfresh].
    split.
    + rewrite pq_push_length. rewrite <- Hperm in Hge. cbn [length] in Hge. lia.
    + rewrite Hp. cbn [fmap list_fmap]. apply NoDup_cons. split; assumption.
    + intros n Hn. rewrite Hp in Hn. apply elem_of_cons in Hn as [-> | Hn].
      * exists i. repeat split; [lia | exact Hd].
      * destruct (Hel n (Hsub n Hn)) as (j & Ej & Hj & Hds).
        exists j. repeat split; [exact Ej | lia | exact Hds].
  - split.
    + lia.
    + exact Hnd.
    + intros n Hn. destruct (Hel n Hn) as (j & Ej & Hj & Hds).
      exists j. repeat split; [exact Ej | lia | exact Hds].
Qed.
End ScanInvariant.

Section ScanOrder.
Variables (k : Z) (ds : list double).
Hypothesis k_pos : 0 < k.
Hypothesis ds_fits : Z.of_nat (length ds) <= INT_MAX.
Hypothesis ds_nonan : Forall (fun x => is_nan x = false) ds.

Lemma scan_inv_nonan i heap : scan_inv k ds i heap -> Forall nonan heap.
Proof.
  intros Hinv. apply Forall_forall. intros n Hn.
  destruct (inv_elem _ _ _ _ Hinv n Hn) as (j & _ & _ & Hds).
  apply (Forall_lookup_1 _ _ _ _ ds_nonan Hds).
Qed.

Lemma order_inv_nil : order_inv k ds 0 [].
Proof. split; [apply heap_ok_nil | intros j dj Hj; lia]. Qed.

Lemma scan_step_order i heap dist :
  ds !! i = Some dist -> scan_inv k ds i heap -> order_inv k ds i heap ->
  order_inv k ds (S i) (scan_step k heap dist (Z.of_nat i)).
Proof.
  intros Hd Hinv [Hok Hout]. pose proof (lookup_lt_Some _ _ _ Hd) as Hi.
  pose proof (scan_inv_nonan i heap Hinv) as Hnn.
  assert (Hdn : is_nan dist = false) by apply (Forall_lookup_1 _ _ _ _ ds_nonan Hd).
  pose proof (inv_length _ _ _ _ Hinv) as Hlen.
  destruct (scan_step_cases k heap dist (Z.of_nat i) k_pos) as
    [[Hlt E] | (Hge & top & c' & Hhd & Hpop & Hperm & [[Hc E] | [Hc E]])];
    [lia | | | ]; rewrite E; clear E.
  - (* the heap was not full *)
    pose proof (pq_push_perm cmp (dist, Z.of_nat i) heap) as Hp. split.
    + apply (pq_push_ok cmp nonan cmp_irrefl cmp_asym cmp_trans); assumption.
    + intros j dj Hj Hdj. left. rewrite Hp. cbn [fmap list_fmap].
      apply elem_of_cons.
      destruct (Nat.eq_dec j i) as [-> | Hne]; [left; reflexivity | right].
      destruct (Hout j dj) as [Hin | [Hfull _]]; [lia | exact Hdj | exact Hin | lia].
  - (* the new point replaces the top *)
    pose proof (pq_push_perm cmp (dist, Z.of_nat i) c') as Hp.
    assert (Htop : top ∈ heap) by (rewrite <- Hperm; apply elem_of_cons; left; reflexivity).
    assert (Hsub : forall n, n ∈ c' -> n ∈ heap)
      by (intros n Hn; rewrite <- Hperm; apply elem_of_cons; right; exact Hn).
    assert (Hnc : Forall nonan c')
      by (apply Forall_forall; intros n Hn; apply (proj1 (Forall_forall _ _) Hnn), Hsub, Hn).
    assert (Htn : nonan top) by apply (proj1 (Forall_forall _ _) Hnn _ Htop).
    assert (Hmax : forall n, n ∈ heap -> cmp top n = false).
    { intros n Hn. apply list_elem_of_lookup in Hn as [m Hm].
      apply (heap_top_max cmp nonan cmp_irrefl cmp_trans heap top m n Hok Hnn); [|exact Hm].
      rewrite <- head_lookup. exact Hhd. }
    split.
    + apply (pq_push_ok cmp nonan cmp_irrefl cmp_asym cmp_trans); [|exact Hnc|exact Hdn].
      apply (pq_pop_ok cmp nonan cmp_irrefl cmp_asym cmp_trans heap c' Hok Hnn Hpop).
    + assert (Hfull : k <= Z.of_nat (length (pq_push cmp (dist, Z.of_nat i) c'))).
      { rewrite pq_push_length. rewrite <- Hperm in Hge. cbn [length] in Hge. lia. }
      assert (Hnew : forall dj, is_nan dj = false ->
        (forall n, n ∈ heap -> (dj <? n.1)%float = false) ->
        forall n, n ∈ pq_push cmp (dist, Z.of_nat i) c' -> (dj <? n.1)%float = false).
      { intros dj Hjn Hall n Hn. rewrite Hp in Hn.
        apply elem_of_cons in Hn as [-> | Hn]; [|apply Hall, Hsub, Hn].
        apply ltb_fle. apply (ltb_fle_trans dist top.1 dj Hdn Htn Hjn Hc).
        apply (Hall top Htop). }
      intros j dj Hj Hdj.
      assert (Hjn : is_nan dj = false) by apply (Forall_lookup_1 _ _ _ _ ds_nonan Hdj).
      destruct (Nat.eq_dec j i) as [-> | Hne].
      { left. rewrite Hp. apply elem_of_cons. left. reflexivity. }
      destruct (Hout j dj) as [Hin | [_ Hall]]; [lia | exact Hdj | | ].
      * rewrite <- Hperm in Hin. cbn [fmap list_fmap] in Hin.
        apply elem_of_cons in Hin as [Ej | Hin].
        -- right. split; [exact Hfull|].
           destruct (inv_elem _ _ _ _ Hinv top Htop) as (j' & Ej' & _ & Hds').
           assert (j' = j) by lia. subst j'. rewrite Hdj in Hds'. injection Hds' as ->.
           apply Hnew; [exact Htn | exact Hmax].
        -- left. rewrite Hp. apply elem_of_cons. right. exact Hin.
      * right. split; [exact Hfull|]. apply Hnew; assumption.
  - (* the new point is left out *)
    assert (Htop : top ∈ heap) by (rewrite <- Hperm; apply elem_of_cons; left; reflexivity).
    assert (Htn : nonan top) by apply (proj1 (Forall_forall _ _) Hnn _ Htop).
    split; [exact Hok|].
    intros j dj Hj Hdj.
    destruct (Nat.eq_dec j i) as [-> | Hne]; [|apply Hout; [lia | exact Hdj]].
    right. split; [exact Hge|]. intros n Hn.
    rewrite Hd in Hdj. injection Hdj as <-.
    apply (fle_trans n.1 top.1 dist); try assumption.
    + apply (proj1 (Forall_forall _ _) Hnn _ Hn).
    + apply list_elem_of_lookup in Hn as [m Hm].
      apply (heap_top_max cmp nonan cmp_irrefl cmp_trans heap top m n Hok Hnn); [|exact Hm].
      rewrite <- head_lookup. exact Hhd.
Qed.
End ScanOrder.

Lemma scan_pure_inv (k : Z) (ds : list double) :
  0 < k -> Z.of_nat (length ds) <= INT_MAX ->
  forall rest pre heap, ds = pre ++ rest ->
    scan_inv k ds (length pre) heap ->
    scan_inv k ds (length ds) (scan_pure k (Z.of_nat (length pre)) rest heap).
Proof.
  intros Hk Hfit rest.
  induction rest as [|x rest IH]; intros pre heap E Hinv; cbn [scan_pure].
  - replace (length ds) with (length pre)
      by (rewrite E, length_app, Nat.add_0_r; reflexivity).
    exact Hinv.
  - specialize (IH (pre ++ [x]) (scan_step k heap x (Z.of_nat (length pre)))).
    rewrite length_app, Nat.add_1_r, Nat2Z.inj_succ, <- Z.add_1_r in IH.
    apply IH; [rewrite <- app_assoc; exact E|].
    apply scan_step_inv; try assumption.
    rewrite E. apply list_lookup_middle. reflexivity.
Qed.

Lemma scan_pure_order (k : Z) (ds : list double) :
  0 < k -> Z.of_nat (length ds) <= INT_MAX ->
  Forall (fun x => is_nan x = false) ds ->
  forall rest pre heap, ds = pre ++ rest ->
    scan_inv k ds (length pre) heap -> order_inv k ds (length pre) heap ->
    order_inv k ds (length ds) (scan_pure k (Z.of_nat (length pre)) rest heap).
Proof.
  intros Hk Hfit Hnn rest.
  induction rest as [|x rest IH]; intros pre heap E Hinv Hord; cbn [scan_pure].
  - replace (length ds) with (length pre)
      by (rewrite E, length_app, Nat.add_0_r; reflexivity).
    exact Hord.
  - assert (Hx : ds !! length pre = Some x)
      by (rewrite E; apply list_lookup_middle; reflexivity).
    specialize (IH (pre ++ [x]) (scan_step k heap x (Z.of_nat (length pre)))).
    rewrite length_app, Nat.add_1_r, Nat2Z.inj_succ, <- Z.add_1_r in IH.
    apply IH; [rewrite <- app_assoc; exact E | |].
    + apply scan_step_inv; assumption.
    + apply scan_step_order; assumption.
Qed.

(** ** Distances of well-formed data *)

Lemma vec_at_ok {A : Type} (v : list A) (i : Z) :
  0 <= i < Z.of_nat (length v) -> exists x, vec_at v i = Ok x /\ v !! Z.to_nat i = Some x.
Proof.
  intros H. unfold vec_at. destruct (i <? 0) eqn:E; [lia|].
  destruct (lookup_lt_is_Some_2 v (Z.to_nat i)) as [x Hx]; [lia|].
  exists x. rewrite Hx. split; reflexivity.
Qed.

Lemma calcDist_loop_ok (p1 p2 : vec) (n : nat) :
  forall i sum, 0 <= i ->
    i + Z.of_nat n <= Z.of_nat (length p1) -> i + Z.of_nat n <= Z.of_nat (length p2) ->
    exists r, calcDist_loop p1 p2 i n sum = Ok r.
Proof.
  induction n as [|n IH]; intros i sum Hi H1 H2; cbn [calcDist_loop]; [eauto|].
  destruct (vec_at_ok p1 i) as (a & -> & _); [lia|].
  destruct (vec_at_ok p2 i) as (b & -> & _); [lia|].
  cbn [mbind result_bind]. apply IH; lia.
Qed.

Lemma calcDistEuclidean_ok (p1 p2 : vec) (d : Z) :
  d <= Z.of_nat (length p1) -> d <= Z.of_nat (length p2) ->
  exists r, calcDistEuclidean p1 p2 d = Ok r.
Proof.
  intros H1 H2. unfold calcDistEuclidean.
  destruct (calcDist_loop_ok p1 p2 (Z.to_nat d) 0 0%float) as [s ->]; try lia.
  cbn [mbind result_bind]. eauto.
Qed.

Lemma distances_exist (train : Dataset) (test : vec) (d : Z) :
  d <= Z.of_nat (length test) ->
  Forall (fun row : vec => d <= Z.of_nat (length row)) train ->
  exists ds, distances_of test d train ds.
Proof.
  intros Ht HF. induction HF as [|row train Hrow HF [ds IH]].
  - exists []. constructor.
  - destruct (calcDistEuclidean_ok test row d Ht Hrow) as [x Hx].
    exists (x :: ds). constructor; assumption.
Qed.

Lemma well_formed_comparable (train : Dataset) (test : vec) (d : Z) :
  well_formed train test d -> comparable train test d.
Proof.
  intros (_ & Ht & HF). split; [exact Ht|].
  eapply Forall_impl; [exact HF|]. simpl. intros row H. lia.
Qed.

Lemma comparable_distances (train : Dataset) (test : vec) (d : Z) :
  comparable train test d -> exists ds, distances_of test d train ds.
Proof. intros [Ht HF]. apply distances_exist; assumption. Qed.

Lemma well_formed_distances (train : Dataset) (test : vec) (d : Z) :
  well_formed train test d -> exists ds, distances_of test d train ds.
Proof. intros H. apply comparable_distances, well_formed_comparable, H. Qed.

Lemma selectNeighbors_pure (train : Dataset) (test : vec) (k d : Z) (ds : list double) :
  0 < k -> k <= Z.of_nat (length train) -> fits_int (length train) ->
  distances_of test d train ds ->
  selectNeighbors train test k d = Ok (scan_pure k 0 ds []).
Proof.
  intros Hk Hn Hfit Hds. unfold selectNeighbors.
  rewrite (int_of_size_fits _ Hfit), Nat2Z.id.
  destruct (k <=? 0) eqn:E1; [lia|]. destruct (Z.of_nat (length train) <? k) eqn:E2; [lia|].
  apply (scan_loop_pure train test k d Hk train ds Hds []). reflexivity.
Qed.

(** ** The vote adds up the tally *)

Lemma bind_not_Throw {A B : Type} (r : result A) (f : A -> result B) (e : exception) :
  r <> Throw e -> (forall a, f a <> Throw e) -> r ≫= f <> Throw e.
Proof.
  intros Hr Hf. destruct r as [a|e'|u]; cbn [mbind result_bind];
    [apply Hf | intros E; apply Hr; congruence | discriminate].
Qed.

Lemma vec_at_not_Throw {A : Type} (v : list A) (i : Z) (e : exception) :
  vec_at v i <> Throw e.
Proof.
  unfold vec_at. destruct (i <? 0); [discriminate|].
  destruct (v !! Z.to_nat i); discriminate.
Qed.

Lemma static_cast_int_not_Throw (x : double) (e : exception) :
  static_cast_int x <> Throw e.
Proof.
  unfold static_cast_int.
  destruct (Prim2SF x) as [s|s| |s m e']; try discriminate.
  destruct (_ && _); discriminate.
Qed.

Lemma label_of_not_Throw (train : Dataset) (d idx : Z) (e : exception) :
  label_of train d idx <> Throw e.
Proof.
  unfold label_of.
  apply bind_not_Throw; [apply vec_at_not_Throw | intros row].
  apply bind_not_Throw; [apply vec_at_not_Throw | intros x].
  apply static_cast_int_not_Throw.
Qed.

Lemma tally_perm (train : Dataset) (d : Z) (h h' : list Neighbor) (t : Z) :
  h ≡ₚ h' -> tally train d h = Ok t -> tally train d h' = Ok t.
Proof.
  intros Hp. revert t.
  induction Hp as [|n h h' Hp IH|n m h|h h' h'' Hp1 IH1 Hp2 IH2]; intros t; cbn [tally].
  - auto.
  - destruct (label_of train d n.2) as [l| |]; cbn [mbind result_bind]; try discriminate.
    destruct (tally train d h) as [t'| |]; cbn [mbind result_bind]; try discriminate.
    rewrite (IH t' eq_refl). auto.
  - destruct (label_of train d n.2) as [l| |], (label_of train d m.2) as [l'| |];
      cbn [mbind result_bind]; try discriminate.
    destruct (tally train d h) as [t'| |]; cbn [mbind result_bind]; try discriminate.
    intros E. injection E as <-. f_equal. lia.
  - auto.
Qed.

Lemma tally_bound (train : Dataset) (d : Z) (h : list Neighbor) (t : Z) :
  tally train d h = Ok t -> - Z.of_nat (length h) <= t <= Z.of_nat (length h).
Proof.
  revert t. induction h as [|n h IH]; intros t E; cbn [tally] in E.
  - injection E as <-. simpl. lia.
  - destruct (label_of train d n.2) as [l| |]; cbn [mbind result_bind] in E; try discriminate.
    destruct (tally train d h) as [t'| |]; cbn [mbind result_bind] in E; try discriminate.
    injection E as <-. specialize (IH t' eq_refl). unfold contribution.
    cbn [length]. destruct (l =? 0); lia.
Qed.

Lemma tally_elem (train : Dataset) (d : Z) (h : list Neighbor) (t : Z) (n : Neighbor) :
  tally train d h = Ok t -> n ∈ h -> exists l, label_of train d n.2 = Ok l.
Proof.
  revert t. induction h as [|m h IH]; intros t E Hn; [inversion Hn|].
  cbn [tally] in E.
  destruct (label_of train d m.2) as [l| |] eqn:El; cbn [mbind result_bind] in E; try discriminate.
  destruct (tally train d h) as [t'| |]; cbn [mbind result_bind] in E; try discriminate.
  apply elem_of_cons in Hn as [-> | Hn]; [eauto | apply (IH t' eq_refl Hn)].
Qed.

(** The loop either adds the tally to [vote], or stops at a neighbour whose
    label cannot be read. *)
Lemma vote_loop_tally (train : Dataset) (d : Z) (fuel : nat) :
  forall h vote, length h = fuel ->
    (exists t, tally train d h = Ok t /\
       vote_loop train d fuel h vote = Ok (vote + t)) \/
    (exists n u, n ∈ h /\ label_of train d n.2 = Undefined u /\
       vote_loop train d fuel h vote = Undefined u).
Proof.
  induction fuel as [|fuel IH]; intros h vote Hlen.
  { destruct h; [|discriminate]. left. exists 0. split; [reflexivity | simpl; f_equal; lia]. }
  destruct h as [|top h]; [discriminate|].
  destruct (pq_pop_perm cmp (top :: h) top eq_refl) as (c' & Hpop & Hperm).
  assert (Hstep : vote_loop train d (S fuel) (top :: h) vote =
    label ← label_of train d top.2;
    vote_loop train d fuel c' (vote + contribution label)).
  { cbn [vote_loop pq_top]. unfold label_of. cbn [mbind result_bind].
    destruct (vec_at train top.2) as [row| |]; cbn [mbind result_bind]; try reflexivity.
    destruct (vec_at row d) as [x| |]; cbn [mbind result_bind]; try reflexivity.
    destruct (static_cast_int x) as [l| |]; cbn [mbind result_bind]; try reflexivity.
    rewrite Hpop. reflexivity. }
  rewrite Hstep.
  destruct (label_of train d top.2) as [l|e|u] eqn:El; cbn [mbind result_bind].
  - assert (Hc : length c' = fuel).
    { apply Permutation_length in Hperm. simpl in Hperm, Hlen. lia. }
    destruct (IH c' (vote + contribution l) Hc) as [(t & Ht & ->) | (n & u & Hn & Hu & ->)].
    + left. exists (contribution l + t). split; [|f_equal; lia].
      apply (tally_perm train d (top :: c')); [exact Hperm|].
      cbn [tally]. rewrite El, Ht. reflexivity.
    + right. exists n, u. repeat split; try assumption.
      rewrite <- Hperm. apply elem_of_cons. right. exact Hn.
  - contradiction (label_of_not_Throw train d top.2 e El).
  - right. exists top, u. repeat split; [apply elem_of_cons; left; reflexivity | exact El].
Qed.

(** ** Nothing but the two checks throws *)

Lemma calcDistEuclidean_not_Throw (p1 p2 : vec) (d : Z) (e : exception) :
  calcDistEuclidean p1 p2 d <> Throw e.
Proof.
  unfold calcDistEuclidean.
  apply bind_not_Throw; [|discriminate].
  generalize 0 at 1. generalize 0%float.
  induction (Z.to_nat d) as [|n IH]; intros sum i; cbn [calcDist_loop]; [discriminate|].
  apply bind_not_Throw; [apply vec_at_not_Throw | intros a].
  apply bind_not_Throw; [apply vec_at_not_Throw | intros b].
  apply IH.
Qed.

Lemma pq_top_not_Throw {A : Type} (c : list A) (e : exception) : pq_top c <> Throw e.
Proof. destruct c; discriminate. Qed.

Lemma pq_pop_not_Throw {A : Type} (comp : A -> A -> bool) (c : list A) (e : exception) :
  pq_pop comp c <> Throw e.
Proof. destruct c; discriminate. Qed.

Lemma scan_loop_not_Throw (train : Dataset) (test : vec) (k d : Z) (e : exception) (n : nat) :
  forall i heap, scan_loop train test k d i n heap <> Throw e.
Proof.
  induction n as [|n IH]; intros i heap; cbn [scan_loop]; [discriminate|].
  apply bind_not_Throw; [apply vec_at_not_Throw | intros row].
  apply bind_not_Throw; [apply calcDistEuclidean_not_Throw | intros x].
  destruct (int_of_size (length heap) <? k); [apply IH|].
  apply bind_not_Throw; [apply pq_top_not_Throw | intros top].
  destruct (x <? top.1)%float; [|apply IH].
  apply bind_not_Throw; [apply pq_pop_not_Throw | intros heap'; apply IH].
Qed.

Lemma vote_loop_not_Throw (train : Dataset) (d : Z) (e : exception) (fuel : nat) :
  forall heap vote, vote_loop train d fuel heap vote <> Throw e.
Proof.
  induction fuel as [|fuel IH]; intros heap vote; cbn [vote_loop]; [discriminate|].
  destruct heap as [|top heap]; [discriminate|].
  apply bind_not_Throw; [apply pq_top_not_Throw | intros t].
  apply bind_not_Throw; [apply vec_at_not_Throw | intros row].
  apply bind_not_Throw; [apply vec_at_not_Throw | intros x].
  apply bind_not_Throw; [apply static_cast_int_not_Throw | intros label].
  apply bind_not_Throw; [apply pq_pop_not_Throw | intros heap'; apply IH].
Qed.

(** ** The selector on well-formed data *)

Lemma selectNeighbors_inv (train : Dataset) (test : vec) (k d : Z) (ds : list double) :
  0 < k -> k <= Z.of_nat (length train) -> fits_int (length train) ->
  distances_of test d train ds ->
  selectNeighbors train test k d = Ok (scan_pure k 0 ds []) /\
  scan_inv k ds (length ds) (scan_pure k 0 ds []) /\
  (Forall (fun x => is_nan x = false) ds ->
   order_inv k ds (length ds) (scan_pure k 0 ds [])).
Proof.
  intros Hk Hn Hfit Hds.
  pose proof (Forall2_length _ _ _ Hds) as Hlen.
  assert (Hfit' : Z.of_nat (length ds) <= INT_MAX) by (rewrite <- Hlen; exact Hfit).
  split; [apply selectNeighbors_pure; assumption|]. split.
  - apply (scan_pure_inv k ds Hk Hfit' ds [] []); [reflexivity | apply scan_inv_nil, Hk].
  - intros Hnn.
    apply (scan_pure_order k ds Hk Hfit' Hnn ds [] []);
      [reflexivity | apply scan_inv_nil, Hk | apply order_inv_nil].
Qed.

Lemma label_of_binary (train : Dataset) (d : Z) (j : nat) :
  0 <= d -> binary_labels train d -> (j < length train)%nat ->
  exists l, label_of train d (Z.of_nat j) = Ok l /\ (l = 0 \/ l = 1).
Proof.
  intros Hd Hb Hj.
  destruct (lookup_lt_is_Some_2 train j Hj) as [row Hrow].
  destruct (Forall_lookup_1 _ _ _ _ Hb Hrow) as (x & Hx & Hl).
  unfold label_of, vec_at.
  destruct (Z.of_nat j <? 0) eqn:E1; [lia|]. rewrite Nat2Z.id, Hrow. cbn [mbind result_bind].
  destruct (d <? 0) eqn:E2; [lia|]. rewrite Hx. cbn [mbind result_bind].
  destruct Hl as [-> | ->]; [exists 0 | exists 1]; split; auto.
Qed.

Lemma tally_exists (train : Dataset) (d : Z) (h : list Neighbor) :
  (forall n, n ∈ h -> exists l, label_of train d n.2 = Ok l) ->
  exists t, tally train d h = Ok t.
Proof.
  induction h as [|n h IH]; intros H; [exists 0; reflexivity|].
  destruct (H n) as [l Hl]; [apply elem_of_cons; left; reflexivity|].
  destruct IH as [t Ht]; [intros m Hm; apply H, elem_of_cons; right; exact Hm|].
  exists (contribution l + t). cbn [tally]. rewrite Hl, Ht. reflexivity.
Qed.

Lemma predictOne_tally (train : Dataset) (test : vec) (k d : Z) (h : list Neighbor) (t : Z) :
  selectNeighbors train test k d = Ok h -> tally train d h = Ok t ->
  predictOne train test k d = Ok (if 0 <=? t then 1 else 0).
Proof.
  intros Hs Ht. unfold predictOne. rewrite Hs. cbn [mbind result_bind].
  destruct (vote_loop_tally train d (length h) h 0 eq_refl)
    as [(t' & Ht' & ->) | (n & u & Hn & Hu & _)].
  - rewrite Ht in Ht'. injection Ht' as <-. reflexivity.
  - destruct (tally_elem train d h t n Ht Hn) as [l Hl]. congruence.
Qed.

Lemma predictOne_ok (train : Dataset) (test : vec) (k d : Z) :
  0 < k -> k <= Z.of_nat (length train) -> fits_int (length train) ->
  well_formed train test d -> binary_labels train d ->
  exists cls, predictOne train test k d = Ok cls /\ (cls = 0 \/ cls = 1).
Proof.
  intros Hk Hn Hfit Hwf Hb.
  destruct (well_formed_distances train test d Hwf) as [ds Hds].
  destruct (selectNeighbors_inv train test k d ds Hk Hn Hfit Hds) as (Hs & Hinv & _).
  destruct (tally_exists train d (scan_pure k 0 ds [])) as [t Ht].
  { intros n Hin. destruct (inv_elem _ _ _ _ Hinv n Hin) as (j & Ej & Hj & _).
    rewrite Ej. rewrite <- (Forall2_length _ _ _ Hds) in Hj.
    destruct (label_of_binary train d j) as (l & Hl & _); try assumption; [apply Hwf | eauto]. }
  rewrite (predictOne_tally train test k d _ t Hs Ht).
  eexists; split; [reflexivity|]. destruct (0 <=? t); auto.
Qed.

(** * Properties of the classifier *)

(** ** The distance *)

Lemma vec_at_Undefined {A : Type} (v : list A) (i : Z) (u : undefined) :
  vec_at v i = Undefined u -> u = OutOfBounds.
Proof.
  unfold vec_at. destruct (i <? 0); [congruence|].
  destruct (v !! Z.to_nat i); congruence.
Qed.

Lemma calcDist_loop_sym (a b : vec) (n : nat) :
  forall i sum, calcDist_loop a b i n sum = calcDist_loop b a i n sum.
Proof.
  induction n as [|n IH]; intros i sum; cbn [calcDist_loop]; [reflexivity|].
  destruct (vec_at a i) as [x|e|u] eqn:Ha, (vec_at b i) as [y|e'|u'] eqn:Hb;
    cbn [mbind result_bind]; try reflexivity;
    try (contradiction (vec_at_not_Throw _ _ _ Ha));
    try (contradiction (vec_at_not_Throw _ _ _ Hb)).
  - rewrite (square_diff_sym x y). apply IH.
  - apply vec_at_Undefined in Ha, Hb. congruence.
Qed.

(** C6: on two vectors of at least [d] components [calcDistEuclidean]
    returns the same double in either order of its arguments.  The two
    results compare equal with [==] unless that double is NaN, and it is not
    NaN when the components are finite. *)
Theorem calcDistEuclidean_symmetric (a b : vec) (d : Z) :
  d <= Z.of_nat (length a) -> d <= Z.of_nat (length b) ->
  exists x y,
    calcDistEuclidean a b d = Ok x /\ calcDistEuclidean b a d = Ok y /\
    x = y /\
    (is_nan x = false -> (x =? y)%float = true) /\
    (Forall (fun c => finite_double c = true) a ->
     Forall (fun c => finite_double c = true) b -> (x =? y)%float = true).
Proof.
  intros Ha Hb.
  destruct (calcDistEuclidean_ok a b d Ha Hb) as [x Hx].
  assert (Heq : is_nan x = false -> (x =? x)%float = true)
    by (unfold is_nan; intros H; apply negb_false_iff in H; exact H).
  exists x, x. repeat split.
  - exact Hx.
  - unfold calcDistEuclidean in *. rewrite <- calcDist_loop_sym. exact Hx.
  - exact Heq.
  - intros Fa Fb. apply Heq, (calcDistEuclidean_finite a b d x Fa Fb Hx).
Qed.

Lemma calcDistEuclidean_symmetric_witness :
  exists x y,
    calcDistEuclidean [3; 0; 7]%float [0; 4]%float 2 = Ok x /\
    calcDistEuclidean [0; 4]%float [3; 0; 7]%float 2 = Ok y /\
    x = y /\
    (is_nan x = false -> (x =? y)%float = true) /\
    (Forall (fun c => finite_double c = true) [3; 0; 7]%float ->
     Forall (fun c => finite_double c = true) [0; 4]%float -> (x =? y)%float = true).
Proof.
  apply (calcDistEuclidean_symmetric [3; 0; 7]%float [0; 4]%float 2); simpl; lia.
Defined.

(** ** The selection *)

Lemma finite_nonan_distances (train : Dataset) (test : vec) (d : Z) :
  Forall (fun x => finite_double x = true) test ->
  Forall (Forall (fun x => finite_double x = true)) train ->
  nonan_distances train test d.
Proof.
  intros Ht Htr. unfold nonan_distances.
  eapply Forall_impl; [exact Htr|]. simpl.
  intros row Hrow r. apply calcDistEuclidean_finite; assumption.
Qed.

Lemma distances_nonan (train : Dataset) (test : vec) (d : Z) (ds : list double) :
  distances_of test d train ds -> nonan_distances train test d ->
  Forall (fun x => is_nan x = false) ds.
Proof.
  intros Hds Hnn. apply Forall_lookup. intros j x Hx.
  destruct (Forall2_lookup_r _ _ _ _ _ Hds Hx) as (row & Hrow & Hd).
  apply (Forall_lookup_1 _ _ _ _ Hnn Hrow x Hd).
Qed.

Lemma scan_inv_neighbor_of (train : Dataset) (test : vec) (k d : Z) (ds : list double)
    (i : nat) (heap : list Neighbor) (n : Neighbor) :
  distances_of test d train ds -> scan_inv k ds i heap -> n ∈ heap ->
  neighbor_of train test d n.
Proof.
  intros Hds Hinv Hn. destruct (inv_elem _ _ _ _ Hinv n Hn) as (j & Ej & _ & Hj).
  destruct (Forall2_lookup_r _ _ _ _ _ Hds Hj) as (row & Hrow & Hd).
  exists j, row. repeat split; assumption.
Qed.

(** C9: on a valid call the scan ends with exactly [k] neighbours, of
    pairwise distinct training indices, each the training point of its index
    with its distance from the query. *)
Theorem selection_size_distinct (train : Dataset) (test : vec) (k d : Z) :
  0 < k -> k <= Z.of_nat (length train) -> fits_int (length train) ->
  comparable train test d ->
  exists heap,
    selectNeighbors train test k d = Ok heap /\
    Z.of_nat (length heap) = k /\
    NoDup heap.*2 /\
    (forall n, n ∈ heap -> neighbor_of train test d n).
Proof.
  intros Hk Hn Hfit Hwf.
  destruct (comparable_distances train test d Hwf) as [ds Hds].
  destruct (selectNeighbors_inv train test k d ds Hk Hn Hfit Hds) as (Hs & Hinv & _).
  exists (scan_pure k 0 ds []). repeat split.
  - exact Hs.
  - rewrite (inv_length _ _ _ _ Hinv), <- (Forall2_length _ _ _ Hds). lia.
  - apply (inv_nodup _ _ _ _ Hinv).
  - intros n Hin. apply (scan_inv_neighbor_of train test k d ds _ _ n Hds Hinv Hin).
Qed.

Lemma selection_size_distinct_witness :
  exists heap,
    selectNeighbors example_train example_query 1 2 = Ok heap /\
    Z.of_nat (length heap) = 1 /\
    NoDup heap.*2 /\
    (forall n, n ∈ heap -> neighbor_of example_train example_query 2 n).
Proof.
  apply (selection_size_distinct example_train example_query 1 2).
  - lia.
  - simpl. lia.
  - unfold fits_int, INT_MAX. simpl. lia.
  - split; [simpl; lia|]. repeat constructor; simpl; lia.
Defined.

(** ** The selection and the sorted prefix *)

(** C1, as stated, fails: the selector keeps the training points 1 and 2,
    the sorted prefix with ties broken by lowest index is the points 2 and
    0.  When the point at distance 3 arrives the heap holds both points at
    distance 5 and evicts its top, which is the point of index 0.  The
    prediction shows it: the vote over the points 1 and 2 is -2 and gives 0,
    the vote over the points 2 and 0 would be 0 and give 1. *)
Lemma selection_ties_counterexample :
  0 < 2 /\ 2 <= Z.of_nat (length tied_train) /\
  distances_of tied_query 1 tied_train [5; 5; 3]%float /\
  selectNeighbors tied_train tied_query 2 1 = Ok [(5%float, 1); (3%float, 2)] /\
  spec_kSmallest [5; 5; 3]%float 2 = [(3%float, 2); (5%float, 0)] /\
  ~ [(5%float, 1); (3%float, 2)] ≡ₚ spec_kSmallest [5; 5; 3]%float 2 /\
  predictOne tied_train tied_query 2 1 = Ok 0 /\
  tally tied_train 1 (spec_kSmallest [5; 5; 3]%float 2) = Ok 0.
Proof.
  repeat split; try reflexivity; try (simpl; lia).
  - repeat constructor.
  - intros Hp.
    assert (Hin : (5%float, 0) ∈ [(5%float, 1); (3%float, 2)]).
    { rewrite Hp. apply elem_of_cons. right. apply elem_of_cons. left. reflexivity. }
    apply elem_of_cons in Hin as [E | Hin]; [discriminate|].
    apply elem_of_cons in Hin as [E | Hin]; [discriminate|].
    inversion Hin.
Qed.

(** *** Sorted lists of distances, through their keys *)

#[global] Instance fle_Total : Total fle.
Proof. intros x y. apply fle_total. Qed.

Lemma Sorted_fle_keys (l : list double) :
  Forall (fun x => is_nan x = false) l -> Sorted fle l -> Sorted key_le (fkey <$> l).
Proof.
  intros Hnn Hs. induction Hs as [|x l Hs IH Hd]; [constructor|].
  apply Forall_cons in Hnn as [Hx Hnn]. cbn [fmap list_fmap]. constructor; [apply IH, Hnn|].
  destruct Hd as [|y l Hxy]; constructor.
  apply Forall_cons in Hnn as [Hy _]. apply (fle_key x y Hx Hy), Hxy.
Qed.

Lemma eqb_key (x y : double) :
  is_nan x = false -> is_nan y = false -> fkey x = fkey y -> (x =? y)%float = true.
Proof.
  intros Hx Hy. apply is_nan_Prim2SF in Hx, Hy.
  rewrite FloatAxioms.eqb_spec. unfold fkey, SFeqb.
  destruct (Prim2SF x) as [sx|sx| |sx mx ex], (Prim2SF y) as [sy|sy| |sy my ey];
    try contradiction; try (destruct sx); try (destruct sy); simpl;
    try discriminate; try reflexivity; intros E; injection E as E1 E2.
  - assert (ex = ey) by lia. subst. rewrite Z.compare_refl.
    change (Pos.compare_cont Eq my my) with (Pos.compare my my).
    rewrite Pos.compare_refl. reflexivity.
  - subst. rewrite Z.compare_refl.
    change (Pos.compare_cont Eq my my) with (Pos.compare my my).
    rewrite Pos.compare_refl. reflexivity.
Qed.

Lemma keys_eq_Forall2 (l1 l2 : list double) :
  Forall (fun x => is_nan x = false) l1 -> Forall (fun x => is_nan x = false) l2 ->
  fkey <$> l1 = fkey <$> l2 ->
  Forall2 (fun a b => (a =? b)%float = true) l1 l2.
Proof.
  intros H1. revert l2. induction H1 as [|x l1 Hx H1 IH]; intros [|y l2] H2 E;
    try discriminate; [constructor|].
  apply Forall_cons in H2 as [Hy H2]. injection E as Ex E.
  constructor; [apply eqb_key; assumption | apply IH; assumption].
Qed.

Lemma indexed_elem (ds : list double) (n : Neighbor) :
  n ∈ indexed ds <-> exists j, ds !! j = Some n.1 /\ n.2 = Z.of_nat j.
Proof.
  unfold indexed. rewrite list_elem_of_lookup. split.
  - intros [j Hj]. rewrite list_lookup_imap in Hj.
    destruct (ds !! j) as [x|] eqn:E; simplify_eq/=. exists j. auto.
  - intros (j & Hj & E). exists j. rewrite list_lookup_imap, Hj. simpl.
    destruct n as [x i]. simpl in *. congruence.
Qed.

Lemma indexed_NoDup (ds : list double) : NoDup (indexed ds).
Proof.
  apply NoDup_alt. intros i j x Hi Hj. unfold indexed in *.
  rewrite list_lookup_imap in Hi, Hj.
  destruct (ds !! i), (ds !! j); simplify_eq/=. lia.
Qed.

(** The training points are the retained ones and the ones left out. *)
Lemma heap_split (k : Z) (ds : list double) (heap : list Neighbor) :
  scan_inv k ds (length ds) heap ->
  indexed ds ≡ₚ heap ++ filter (fun n : Neighbor => n.2 ∉ heap.*2) (indexed ds).
Proof.
  intros Hinv.
  rewrite <- (filter_app_complement (fun n : Neighbor => n.2 ∈ heap.*2) (indexed ds)) at 1.
  apply Permutation_app; [|reflexivity].
  apply NoDup_Permutation.
  - apply NoDup_filter, indexed_NoDup.
  - apply (NoDup_fmap_1 snd), (inv_nodup _ _ _ _ Hinv).
  - intros x. rewrite list_elem_of_filter, indexed_elem. split.
    + intros [Hin (j & Hj & Ej)].
      apply list_elem_of_fmap in Hin as (n & En & Hn).
      destruct (inv_elem _ _ _ _ Hinv n Hn) as (j' & Ej' & _ & Hj').
      assert (j' = j) by lia. subst j'.
      replace x with n; [exact Hn|].
      destruct x, n. simpl in *. congruence.
    + intros Hx. destruct (inv_elem _ _ _ _ Hinv x Hx) as (j & Ej & _ & Hj).
      split; [|eauto]. apply list_elem_of_fmap. eauto.
Qed.

(** The distances of the retained neighbours, sorted, are the distances of
    the sorted prefix. *)
Lemma retained_sorted_prefix (k : Z) (ds : list double) (heap : list Neighbor) :
  0 < k -> k <= Z.of_nat (length ds) ->
  Forall (fun x => is_nan x = false) ds ->
  scan_inv k ds (length ds) heap -> order_inv k ds (length ds) heap ->
  Forall2 (fun a b => (a =? b)%float = true)
    (merge_sort fle heap.*1) (spec_kSmallest ds k).*1.
Proof.
  intros Hk Hn Hnn Hinv Hord.
  set (out := filter (fun n : Neighbor => n.2 ∉ heap.*2) (indexed ds)).
  pose proof (heap_split k ds heap Hinv) as Hsplit. fold out in Hsplit.
  assert (Hall : Forall (fun x => is_nan x = false) (indexed ds).*1).
  { apply Forall_fmap, Forall_forall. intros n Hin.
    apply indexed_elem in Hin as (j & Hj & _).
    apply (Forall_lookup_1 _ _ _ _ Hnn Hj). }
  assert (Hboth : Forall (fun x => is_nan x = false) (heap.*1 ++ out.*1))
    by (rewrite <- fmap_app, <- Hsplit; exact Hall).
  apply Forall_app in Hboth as [Hheap Hout].
  assert (HKH : StronglySorted key_le (fkey <$> merge_sort fle heap.*1)).
  { apply Sorted_StronglySorted; [apply _|]. apply Sorted_fle_keys.
    - rewrite merge_sort_Permutation. exact Hheap.
    - apply Sorted_merge_sort. apply _. }
  assert (HKO : StronglySorted key_le (fkey <$> merge_sort fle out.*1)).
  { apply Sorted_StronglySorted; [apply _|]. apply Sorted_fle_keys.
    - rewrite merge_sort_Permutation. exact Hout.
    - apply Sorted_merge_sort. apply _. }
  assert (HKS : StronglySorted key_le (fkey <$> (merge_sort lex_le (indexed ds)).*1)).
  { apply Sorted_StronglySorted; [apply _|]. apply Sorted_fle_keys.
    - rewrite merge_sort_Permutation. exact Hall.
    - apply (Sorted_fmap fst lex_le fle); [|apply Sorted_merge_sort; apply _].
      intros a b [H|[H _]]; [apply ltb_fle, H | exact H]. }
  assert (Heq : (fkey <$> merge_sort fle heap.*1) ++ (fkey <$> merge_sort fle out.*1)
                = fkey <$> (merge_sort lex_le (indexed ds)).*1).
  { apply (StronglySorted_unique key_le); [|exact HKS|].
    - apply StronglySorted_app_2; [|exact HKH|exact HKO].
      intros x1 x2 H1 H2.
      apply list_elem_of_fmap in H1 as (h & -> & H1). apply list_elem_of_fmap in H2 as (o & -> & H2).
      rewrite merge_sort_Permutation in H1, H2.
      apply fle_key;
        [apply (proj1 (Forall_forall _ _) Hheap h H1)
        |apply (proj1 (Forall_forall _ _) Hout o H2)|].
      apply list_elem_of_fmap in H1 as (n & -> & Hin1). apply list_elem_of_fmap in H2 as (m & -> & Hm).
      apply list_elem_of_filter in Hm as [Hm Hin].
      apply indexed_elem in Hin as (j & Hj & Ej).
      destruct (ord_out _ _ _ _ Hord j m.1) as [Hc | [_ Hc]];
        [apply lookup_lt_Some in Hj; exact Hj | exact Hj | | apply Hc, Hin1].
      rewrite <- Ej in Hc. contradiction.
    - rewrite !merge_sort_Permutation, <- fmap_app, <- fmap_app, <- Hsplit. reflexivity. }
  assert (Hlen : length (fkey <$> merge_sort fle heap.*1) = Z.to_nat k).
  { rewrite length_fmap, merge_sort_Permutation, length_fmap.
    pose proof (inv_length _ _ _ _ Hinv). lia. }
  apply keys_eq_Forall2.
  - rewrite merge_sort_Permutation. exact Hheap.
  - unfold spec_kSmallest. rewrite fmap_take. apply Forall_take.
    rewrite merge_sort_Permutation. exact Hall.
  - unfold spec_kSmallest. rewrite !fmap_take, <- Heq.
    rewrite take_app_length' by (symmetry; exact Hlen). reflexivity.
Qed.

(** Without two training points at the same distance the retained
    neighbours are the sorted prefix. *)
Lemma retained_prefix_distinct (k : Z) (ds : list double) (heap : list Neighbor) :
  0 < k -> k <= Z.of_nat (length ds) ->
  Forall (fun x => is_nan x = false) ds ->
  scan_inv k ds (length ds) heap -> order_inv k ds (length ds) heap ->
  (forall i j x y, ds !! i = Some x -> ds !! j = Some y -> (x =? y)%float = true -> i = j) ->
  heap ≡ₚ spec_kSmallest ds k.
Proof.
  intros Hk Hn Hnn Hinv Hord Hdist.
  pose proof (retained_sorted_prefix k ds heap Hk Hn Hnn Hinv Hord) as HF.
  apply submseteq_length_Permutation.
  - apply NoDup_submseteq; [apply (NoDup_fmap_1 snd), (inv_nodup _ _ _ _ Hinv)|].
    intros n Hin.
    assert (Hn1 : n.1 ∈ merge_sort fle heap.*1).
    { rewrite merge_sort_Permutation. apply list_elem_of_fmap. eauto. }
    apply list_elem_of_lookup in Hn1 as [i Hi].
    destruct (Forall2_lookup_l _ _ _ _ _ HF Hi) as (y & Hy & Heq).
    apply list_elem_of_lookup_2, list_elem_of_fmap in Hy as (p & -> & Hp).
    replace n with p; [exact Hp|].
    assert (Hp' : p ∈ indexed ds).
    { rewrite <- (merge_sort_Permutation lex_le). apply (subseteq_take _ _ _ Hp). }
    apply indexed_elem in Hp' as (j & Hj & Ej).
    destruct (inv_elem _ _ _ _ Hinv n Hin) as (m & Em & _ & Hm).
    assert (m = j) by apply (Hdist m j n.1 p.1 Hm Hj Heq). subst m.
    destruct n, p. simpl in *. congruence.
  - unfold spec_kSmallest. rewrite length_take, merge_sort_Permutation.
    unfold indexed. rewrite length_imap.
    pose proof (inv_length _ _ _ _ Hinv). lia.
Qed.

Lemma scan_pure_snoc (k : Z) (x : double) (ds : list double) :
  forall i heap,
    scan_pure k i (ds ++ [x]) heap
    = scan_step k (scan_pure k i ds heap) x (i + Z.of_nat (length ds)).
Proof.
  induction ds as [|y ds IH]; intros i heap; cbn [scan_pure app length].
  - rewrite Z.add_0_r. reflexivity.
  - rewrite IH. f_equal. lia.
Qed.

(** A point that is not strictly nearer than any neighbour of a full heap
    leaves the heap as it is. *)
Lemma scan_step_keeps (k : Z) (heap : list Neighbor) (x : double) (i : Z) :
  0 < k -> Z.of_nat (length heap) = k -> k <= INT_MAX ->
  (forall n, n ∈ heap -> (x <? n.1)%float = false) ->
  scan_step k heap x i = heap.
Proof.
  intros Hk Hlen Hmax Hall.
  destruct (scan_step_cases k heap x i Hk) as
    [[Hlt _] | (_ & top & c' & Hhd & _ & _ & [[Hc _] | [_ E]])]; [lia | lia | | exact E].
  rewrite Hall in Hc; [discriminate|].
  destruct heap; simplify_eq/=. apply elem_of_cons. left. reflexivity.
Qed.

(** C1, amended: on a valid call without NaN distances the selector returns
    [k] neighbours of pairwise distinct indices, each a training point with
    its distance; no training point left out is strictly nearer than a
    retained one, and the retained distances, sorted, are those of the first
    [k] of all the distances sorted; with no two training points at the same
    distance the retained neighbours are that prefix.  A further training
    point that is not strictly nearer than any retained one (one at the
    distance of the farthest, say) changes nothing.  Which of several points
    at the greatest retained distance is dropped for a nearer one is not
    settled by the index. *)
Theorem selection_k_smallest (train : Dataset) (test : vec) (k d : Z) :
  0 < k -> k <= Z.of_nat (length train) -> fits_int (length train) ->
  comparable train test d -> nonan_distances train test d ->
  exists heap ds,
    selectNeighbors train test k d = Ok heap /\
    distances_of test d train ds /\
    Z.of_nat (length heap) = k /\
    NoDup heap.*2 /\
    (forall n, n ∈ heap -> neighbor_of train test d n) /\
    (forall j dj, ds !! j = Some dj -> Z.of_nat j ∉ heap.*2 ->
       forall n, n ∈ heap -> (dj <? n.1)%float = false) /\
    Forall2 (fun a b => (a =? b)%float = true)
      (merge_sort fle heap.*1) (spec_kSmallest ds k).*1 /\
    ((forall i j x y, ds !! i = Some x -> ds !! j = Some y ->
        (x =? y)%float = true -> i = j) ->
     heap ≡ₚ spec_kSmallest ds k) /\
    (forall row x,
       calcDistEuclidean test row d = Ok x -> fits_int (S (length train)) ->
       (forall n, n ∈ heap -> (x <? n.1)%float = false) ->
       selectNeighbors (train ++ [row]) test k d = Ok heap).
Proof.
  intros Hk Hn Hfit Hwf Hnn.
  destruct (comparable_distances train test d Hwf) as [ds Hds].
  pose proof (Forall2_length _ _ _ Hds) as Hlen.
  pose proof (distances_nonan train test d ds Hds Hnn) as Hdn.
  destruct (selectNeighbors_inv train test k d ds Hk Hn Hfit Hds) as (Hs & Hinv & Hord).
  specialize (Hord Hdn).
  assert (Hsize : Z.of_nat (length (scan_pure k 0 ds [])) = k)
    by (rewrite (inv_length _ _ _ _ Hinv), <- Hlen; lia).
  exists (scan_pure k 0 ds []), ds.
  split; [|split; [|split; [|split; [|split; [|split; [|split; [|split]]]]]]].
  - exact Hs.
  - exact Hds.
  - exact Hsize.
  - apply (inv_nodup _ _ _ _ Hinv).
  - intros n Hin. apply (scan_inv_neighbor_of train test k d ds _ _ n Hds Hinv Hin).
  - intros j dj Hj Hout n Hin.
    destruct (ord_out _ _ _ _ Hord j dj) as [Hc | [_ Hc]];
      [apply lookup_lt_Some in Hj; exact Hj | exact Hj | contradiction | apply Hc, Hin].
  - apply retained_sorted_prefix; try assumption. rewrite <- Hlen. exact Hn.
  - apply retained_prefix_distinct; try assumption. rewrite <- Hlen. exact Hn.
  - intros row x Hx Hfit' Hall.
    rewrite (selectNeighbors_pure (train ++ [row]) test k d (ds ++ [x])); try assumption.
    + rewrite scan_pure_snoc. f_equal.
      apply scan_step_keeps; try assumption. unfold fits_int in Hfit. lia.
    + rewrite length_app. simpl. lia.
    + unfold fits_int in *. rewrite length_app. simpl. lia.
    + apply Forall2_app; [exact Hds | constructor; [exact Hx | constructor]].
Qed.

Lemma selection_k_smallest_witness :
  exists heap ds,
    selectNeighbors tied_train tied_query 2 1 = Ok heap /\
    distances_of tied_query 1 tied_train ds /\
    Z.of_nat (length heap) = 2 /\
    NoDup heap.*2 /\
    (forall n, n ∈ heap -> neighbor_of tied_train tied_query 1 n) /\
    (forall j dj, ds !! j = Some dj -> Z.of_nat j ∉ heap.*2 ->
       forall n, n ∈ heap -> (dj <? n.1)%float = false) /\
    Forall2 (fun a b => (a =? b)%float = true)
      (merge_sort fle heap.*1) (spec_kSmallest ds 2).*1 /\
    ((forall i j x y, ds !! i = Some x -> ds !! j = Some y ->
        (x =? y)%float = true -> i = j) ->
     heap ≡ₚ spec_kSmallest ds 2) /\
    (forall row x,
       calcDistEuclidean tied_query row 1 = Ok x -> fits_int (S (length tied_train)) ->
       (forall n, n ∈ heap -> (x <? n.1)%float = false) ->
       selectNeighbors (tied_train ++ [row]) tied_query 2 1 = Ok heap).
Proof.
  apply (selection_k_smallest tied_train tied_query 2 1).
  - lia.
  - simpl. lia.
  - unfold fits_int, INT_MAX. simpl. lia.
  - split; [simpl; lia|]. repeat constructor; simpl; lia.
  - repeat constructor; intros r E; vm_compute in E; injection E as <-; reflexivity.
Defined.

(** ** k = 1 *)

Lemma scan_step_one_empty (x : double) (i : Z) : scan_step 1 [] x i = [(x, i)].
Proof. reflexivity. Qed.

Lemma scan_step_one_full (y x : double) (m i : Z) :
  scan_step 1 [(y, m)] x i = if (x <? y)%float then [(x, i)] else [(y, m)].
Proof. unfold scan_step. simpl. destruct (x <? y)%float; reflexivity. Qed.

Lemma scan_step_nearest (ds : list double) (i : nat) (heap : list Neighbor) (x : double) :
  Forall (fun x => is_nan x = false) ds ->
  ds !! i = Some x ->
  (i = 0%nat /\ heap = []) \/ nearest_inv ds i heap ->
  nearest_inv ds (S i) (scan_step 1 heap x (Z.of_nat i)).
Proof.
  intros Hnn Hx [[-> ->] | (m & y & -> & Hm & Hy & Hmin & Hfirst)].
  - rewrite scan_step_one_empty. exists 0%nat, x. repeat split; try assumption; try lia.
    intros j dj Hj Hdj. assert (j = 0%nat) by lia. subst.
    rewrite Hx in Hdj. injection Hdj as <-. apply ltb_irrefl.
  - rewrite scan_step_one_full.
    pose proof (Forall_lookup_1 _ _ _ _ Hnn Hx) as Nx.
    pose proof (Forall_lookup_1 _ _ _ _ Hnn Hy) as Ny.
    destruct (x <? y)%float eqn:Hc.
    + assert (Hlt : forall j dj, (j < i)%nat -> ds !! j = Some dj -> (x <? dj)%float = true).
      { intros j dj Hj Hdj.
        apply (ltb_fle_trans x y dj Nx Ny (Forall_lookup_1 _ _ _ _ Hnn Hdj) Hc).
        apply (Hmin j dj Hj Hdj). }
      exists i, x. repeat split; try assumption; try lia.
      intros j dj Hj Hdj. destruct (Nat.eq_dec j i) as [-> | Hne].
      * rewrite Hx in Hdj. injection Hdj as <-. apply ltb_irrefl.
      * apply ltb_fle. apply (Hlt j dj); [lia | exact Hdj].
    + exists m, y. repeat split; try assumption; try lia.
      intros j dj Hj Hdj. destruct (Nat.eq_dec j i) as [-> | Hne].
      * rewrite Hx in Hdj. injection Hdj as <-. exact Hc.
      * apply (Hmin j dj); [lia | exact Hdj].
Qed.

Lemma scan_pure_nearest (ds : list double) :
  Forall (fun x => is_nan x = false) ds ->
  forall rest pre heap, ds = pre ++ rest ->
    (length pre = 0%nat /\ heap = []) \/ nearest_inv ds (length pre) heap ->
    (length ds = 0%nat /\ scan_pure 1 (Z.of_nat (length pre)) rest heap = []) \/
    nearest_inv ds (length ds) (scan_pure 1 (Z.of_nat (length pre)) rest heap).
Proof.
  intros Hnn rest.
  induction rest as [|x rest IH]; intros pre heap E H; cbn [scan_pure].
  - replace (length ds) with (length pre)
      by (rewrite E, length_app, Nat.add_0_r; reflexivity).
    exact H.
  - specialize (IH (pre ++ [x]) (scan_step 1 heap x (Z.of_nat (length pre)))).
    rewrite length_app, Nat.add_1_r, Nat2Z.inj_succ, <- Z.add_1_r in IH.
    apply IH; [rewrite <- app_assoc; exact E|].
    right. apply scan_step_nearest; try assumption.
    rewrite E. apply list_lookup_middle. reflexivity.
Qed.

(** C5: with [k = 1] the prediction is the label of the training point
    nearest to the query, the first such point when several are as near. *)
Theorem nearest_neighbor (train : Dataset) (test : vec) (d : Z) :
  1 <= Z.of_nat (length train) -> fits_int (length train) ->
  well_formed train test d -> nonan_distances train test d -> binary_labels train d ->
  exists (m : nat) (row : vec) (x : double) (label : Z),
    train !! m = Some row /\ calcDistEuclidean test row d = Ok x /\
    (forall j rowj dj, train !! j = Some rowj -> calcDistEuclidean test rowj d = Ok dj ->
       (dj <? x)%float = false) /\
    (forall j rowj dj, (j < m)%nat ->
       train !! j = Some rowj -> calcDistEuclidean test rowj d = Ok dj ->
       (x <? dj)%float = true) /\
    label_of train d (Z.of_nat m) = Ok label /\
    row !! Z.to_nat d = Some (static_cast_double label) /\
    predictOne train test 1 d = Ok label.
Proof.
  intros Hn Hfit Hwf Hnn Hb.
  destruct (well_formed_distances train test d Hwf) as [ds Hds].
  pose proof (Forall2_length _ _ _ Hds) as Hlen.
  pose proof (distances_nonan train test d ds Hds Hnn) as Hdn.
  pose proof (selectNeighbors_pure train test 1 d ds ltac:(lia) Hn Hfit Hds) as Hs.
  destruct (scan_pure_nearest ds Hdn ds [] [] eq_refl (or_introl (conj eq_refl eq_refl)))
    as [[H0 _] | (m & x & Hheap & Hm & Hx & Hmin & Hfirst)]; [lia|].
  change (Z.of_nat (length (@nil double))) with 0 in Hheap. rewrite Hheap in Hs.
  destruct (Forall2_lookup_r _ _ _ _ _ Hds Hx) as (row & Hrow & Hd).
  destruct (Forall_lookup_1 _ _ _ _ Hb Hrow) as (lx & Hlx & Hl01).
  assert (Hlabel : exists label, label_of train d (Z.of_nat m) = Ok label /\
            (label = 0 \/ label = 1) /\ lx = static_cast_double label).
  { unfold label_of, vec_at. destruct (Z.of_nat m <? 0) eqn:E1; [lia|].
    rewrite Nat2Z.id, Hrow. cbn [mbind result_bind].
    destruct (d <? 0) eqn:E2; [destruct Hwf; lia|]. rewrite Hlx. cbn [mbind result_bind].
    destruct Hl01 as [-> | ->]; [exists 0 | exists 1]; repeat split; auto. }
  destruct Hlabel as (label & Hlabel & Hl & ->).
  exists m, row, x, label. repeat split; try assumption.
  - intros j rowj dj Hj Hdj.
    destruct (Forall2_lookup_l _ _ _ _ _ Hds Hj) as (dj' & Hdj' & E).
    assert (dj' = dj) by congruence. subst dj'.
    apply (Hmin j dj); [apply lookup_lt_Some in Hdj'; exact Hdj' | exact Hdj'].
  - intros j rowj dj Hjm Hj Hdj.
    destruct (Forall2_lookup_l _ _ _ _ _ Hds Hj) as (dj' & Hdj' & E).
    assert (dj' = dj) by congruence. subst dj'.
    apply (Hfirst j dj Hjm Hdj').
  - rewrite (predictOne_tally train test 1 d _ (contribution label) Hs).
    + destruct Hl as [-> | ->]; reflexivity.
    + cbn [tally snd]. rewrite Hlabel. cbn [mbind result_bind]. f_equal. lia.
Qed.

Lemma nearest_neighbor_witness :
  exists (m : nat) (row : vec) (x : double) (label : Z),
    example_train !! m = Some row /\ calcDistEuclidean example_query row 2 = Ok x /\
    (forall j rowj dj, example_train !! j = Some rowj ->
       calcDistEuclidean example_query rowj 2 = Ok dj -> (dj <? x)%float = false) /\
    (forall j rowj dj, (j < m)%nat ->
       example_train !! j = Some rowj -> calcDistEuclidean example_query rowj 2 = Ok dj ->
       (x <? dj)%float = true) /\
    label_of example_train 2 (Z.of_nat m) = Ok label /\
    row !! Z.to_nat 2 = Some (static_cast_double label) /\
    predictOne example_train example_query 1 2 = Ok label.
Proof.
  apply (nearest_neighbor example_train example_query 2).
  - simpl. lia.
  - unfold fits_int, INT_MAX. simpl. lia.
  - repeat split; simpl; try lia. repeat constructor; simpl; lia.
  - repeat constructor; intros r E; vm_compute in E; injection E as <-; reflexivity.
  - repeat constructor; eexists; (split; [reflexivity|]); auto.
Defined.

(** ** The classifier *)

Lemma tally_binary (train : Dataset) (d : Z) (heap : list Neighbor) (labels : list Z) :
  Forall2 (fun n l => label_of train d n.2 = Ok l) heap labels ->
  Forall (fun l => l = 0 \/ l = 1) labels ->
  tally train d heap =
    Ok (count_label 1 labels - count_label 0 labels).
Proof.
  intros HF. induction HF as [|n l heap labels Hl HF IH]; intros Hb; [reflexivity|].
  apply Forall_cons in Hb as [Hl01 Hb]. cbn [tally]. rewrite Hl, (IH Hb).
  cbn [mbind result_bind]. f_equal.
  unfold count_label, contribution. destruct Hl01 as [-> | ->]; simpl; lia.
Qed.

(** C2: when the labels of the selected neighbours are 0 or 1, [predictOne]
    returns 1 if (number of 1s) - (number of 0s) >= 0 and 0 otherwise: a
    label 0 counts -1, a label 1 counts +1, and equal counts give 1. *)
Theorem predictOne_majority_vote
    (train : Dataset) (test : vec) (k d : Z) (heap : list Neighbor) (labels : list Z) :
  selectNeighbors train test k d = Ok heap ->
  Forall2 (fun n l => label_of train d n.2 = Ok l) heap labels ->
  Forall (fun l => l = 0 \/ l = 1) labels ->
  contribution 0 = -1 /\ contribution 1 = 1 /\
  tally train d heap =
    Ok (count_label 1 labels - count_label 0 labels) /\
  predictOne train test k d =
    Ok (if 0 <=? count_label 1 labels - count_label 0 labels
        then 1 else 0) /\
  (count_label 1 labels = count_label 0 labels ->
   predictOne train test k d = Ok 1).
Proof.
  intros Hs HF Hb.
  pose proof (tally_binary train d heap labels HF Hb) as Ht.
  pose proof (predictOne_tally train test k d heap _ Hs Ht) as Hp.
  repeat split; try assumption.
  intros E. rewrite Hp, E, Z.sub_diag. reflexivity.
Qed.

Lemma predictOne_majority_vote_witness :
  contribution 0 = -1 /\ contribution 1 = 1 /\
  tally tie_train 2 [(1%float, 0); (1%float, 1)] =
    Ok (count_label 1 [0; 1] - count_label 0 [0; 1]) /\
  predictOne tie_train tie_query 2 2 =
    Ok (if 0 <=? count_label 1 [0; 1] - count_label 0 [0; 1]
        then 1 else 0) /\
  (count_label 1 [0; 1] = count_label 0 [0; 1] ->
   predictOne tie_train tie_query 2 2 = Ok 1).
Proof.
  apply (predictOne_majority_vote tie_train tie_query 2 2 [(1%float, 0); (1%float, 1)] [0; 1]).
  - reflexivity.
  - constructor; [reflexivity|]. constructor; [reflexivity|]. constructor.
  - constructor; [left; reflexivity|]. constructor; [right; reflexivity|]. constructor.
Defined.

(** ** Outcomes of [predictOne] *)

Lemma selectNeighbors_Throw_iff (train : Dataset) (test : vec) (k d : Z) :
  fits_int (length train) ->
  (exists e, selectNeighbors train test k d = Throw e) <->
  k <= 0 \/ Z.of_nat (length train) < k.
Proof.
  intros Hfit. unfold selectNeighbors. rewrite (int_of_size_fits _ Hfit).
  destruct (k <=? 0) eqn:E1; [split; [lia | eauto]|].
  destruct (Z.of_nat (length train) <? k) eqn:E2; [split; [lia | eauto]|].
  split; [|lia]. intros [e He].
  contradiction (scan_loop_not_Throw _ _ _ _ _ _ _ _ He).
Qed.

Lemma predictOne_Throw (train : Dataset) (test : vec) (k d : Z) (e : exception) :
  predictOne train test k d = Throw e <-> selectNeighbors train test k d = Throw e.
Proof.
  unfold predictOne.
  destruct (selectNeighbors train test k d) as [heap|e'|u]; cbn [mbind result_bind].
  - split; [|discriminate]. intros E. exfalso. revert E.
    apply bind_not_Throw; [apply vote_loop_not_Throw | discriminate].
  - split; intros E; injection E as ->; reflexivity.
  - split; discriminate.
Qed.

Lemma predictOne_Throw_iff (train : Dataset) (test : vec) (k d : Z) :
  fits_int (length train) ->
  (exists e, predictOne train test k d = Throw e) <->
  k <= 0 \/ Z.of_nat (length train) < k.
Proof.
  intros Hfit. rewrite <- (selectNeighbors_Throw_iff train test k d Hfit).
  split; intros [e He]; exists e; apply predictOne_Throw, He.
Qed.

(** C3: [predictOne] throws [std::invalid_argument] exactly when [k <= 0]
    (first message) or [k] exceeds the number of training points (second
    message).  The throw is the outcome of the selector itself, whatever the
    vectors hold, so no neighbour set comes out of it; and nothing else in
    [predictOne] throws. *)
Theorem predictOne_invalid_argument (train : Dataset) (test : vec) (k d : Z) :
  fits_int (length train) ->
  (k <= 0 ->
     selectNeighbors train test k d = Throw (invalid_argument "k must be > 0") /\
     predictOne train test k d = Throw (invalid_argument "k must be > 0")) /\
  (0 < k -> Z.of_nat (length train) < k ->
     selectNeighbors train test k d =
       Throw (invalid_argument "k cannot be larger than number of training points") /\
     predictOne train test k d =
       Throw (invalid_argument "k cannot be larger than number of training points")) /\
  ((exists e, selectNeighbors train test k d = Throw e) <->
     k <= 0 \/ Z.of_nat (length train) < k) /\
  ((exists e, predictOne train test k d = Throw e) <->
     k <= 0 \/ Z.of_nat (length train) < k).
Proof.
  intros Hfit.
  assert (H1 : k <= 0 ->
    selectNeighbors train test k d = Throw (invalid_argument "k must be > 0")).
  { intros Hk. unfold selectNeighbors. destruct (k <=? 0) eqn:E; [reflexivity | lia]. }
  assert (H2 : 0 < k -> Z.of_nat (length train) < k ->
    selectNeighbors train test k d =
      Throw (invalid_argument "k cannot be larger than number of training points")).
  { intros Hk Hn. unfold selectNeighbors. rewrite (int_of_size_fits _ Hfit).
    destruct (k <=? 0) eqn:E1; [lia|].
    destruct (Z.of_nat (length train) <? k) eqn:E2; [reflexivity | lia]. }
  repeat split.
  - apply H1, H.
  - apply predictOne_Throw, H1, H.
  - apply H2; assumption.
  - apply predictOne_Throw, H2; assumption.
  - apply selectNeighbors_Throw_iff, Hfit.
  - apply selectNeighbors_Throw_iff, Hfit.
  - apply predictOne_Throw_iff, Hfit.
  - apply predictOne_Throw_iff, Hfit.
Qed.

Lemma predictOne_invalid_argument_witness :
  (exists e, predictOne example_train example_query 3 2 = Throw e) <->
  3 <= 0 \/ Z.of_nat (length example_train) < 3.
Proof.
  apply (predictOne_invalid_argument example_train example_query 3 2).
  unfold fits_int, INT_MAX. simpl. lia.
Defined.

(** ** Vector accesses *)

Lemma vec_at_Ok_inv {A : Type} (v : list A) (i : Z) (x : A) :
  vec_at v i = Ok x -> 0 <= i < Z.of_nat (length v) /\ v !! Z.to_nat i = Some x.
Proof.
  unfold vec_at. destruct (i <? 0) eqn:E; [discriminate|].
  destruct (v !! Z.to_nat i) as [y|] eqn:Hy; [|discriminate].
  intros H. injection H as ->. apply lookup_lt_Some in Hy as Hlt. split; [lia | reflexivity].
Qed.






(** A training point with its [d] features and no label: the distance is
    computed, the vote reads past the end. *)
Example label_read_out_of_bounds :
  calcDistEuclidean [0.5]%float [1]%float 1 = Ok 0.5%float /\
  predictOne [[1]%float] [0.5]%float 1 1 = Undefined OutOfBounds.
Proof. split; reflexivity. Qed.

(** ** The batch *)

(** What a successful batch returns: every point with its own prediction
    appended, in the order of the input. *)
Lemma findKNN_Ok (train : Dataset) (k d : Z) :
  forall tests out, findKNN train tests k d = (out, Ok tt) ->
  exists labels,
    Forall2 (fun p l => predictOne train p k d = Ok l) tests labels /\
    out = zip_with (fun p l => p ++ [static_cast_double l]) tests labels.
Proof.
  induction tests as [|p tests IH]; intros out E; cbn [findKNN] in E.
  - injection E as <-. exists []. split; [constructor | reflexivity].
  - destruct (predictOne train p k d) as [cls|e|u] eqn:Hp; try discriminate.
    destruct (findKNN train tests k d) as [rest r] eqn:Hrest.
    injection E as <- ->.
    destruct (IH rest eq_refl) as (labels & HF & ->).
    exists (cls :: labels). split; [constructor; assumption | reflexivity].
Qed.

Lemma findKNN_all_Ok (train : Dataset) (k d : Z) :
  forall tests labels,
    Forall2 (fun p l => predictOne train p k d = Ok l) tests labels ->
    findKNN train tests k d =
      (zip_with (fun p l => p ++ [static_cast_double l]) tests labels, Ok tt).
Proof.
  intros tests labels HF.
  induction HF as [|p l tests labels Hp HF IH]; cbn [findKNN]; [reflexivity|].
  rewrite Hp, IH. reflexivity.
Qed.

(** C4: on a valid call [findKNN] leaves every test point in its place, with
    the prediction [predictOne] makes for that point appended and nothing else
    changed; the predictions are all made against the one [train] the call
    was given ([train] is a [const] reference: no result of the call holds a
    changed copy of it). *)
Theorem findKNN_appends_in_order (train tests : Dataset) (k d : Z) :
  0 < k -> k <= Z.of_nat (length train) -> fits_int (length train) ->
  Forall (fun p => well_formed train p d) tests -> binary_labels train d ->
  exists labels,
    length labels = length tests /\
    Forall2 (fun p l => predictOne train p k d = Ok l /\ (l = 0 \/ l = 1)) tests labels /\
    findKNN train tests k d =
      (zip_with (fun p l => p ++ [static_cast_double l]) tests labels, Ok tt).
Proof.
  intros Hk Hn Hfit Hwf Hb.
  assert (H : exists labels,
    Forall2 (fun p l => predictOne train p k d = Ok l /\ (l = 0 \/ l = 1)) tests labels).
  { induction Hwf as [|p tests Hp Hwf [labels IH]]; [exists []; constructor|].
    destruct (predictOne_ok train p k d Hk Hn Hfit Hp Hb) as (cls & Hc & Hcls).
    exists (cls :: labels). constructor; [split|]; assumption. }
  destruct H as [labels HF]. exists labels. repeat split.
  - symmetry. apply (Forall2_length _ _ _ HF).
  - exact HF.
  - apply findKNN_all_Ok. eapply Forall2_impl; [exact HF|]. simpl. intros p l [H _]. exact H.
Qed.

Lemma findKNN_appends_in_order_witness :
  exists labels,
    length labels = length [example_query; [0.75; 1]%float] /\
    Forall2 (fun p l => predictOne example_train p 1 2 = Ok l /\ (l = 0 \/ l = 1))
      [example_query; [0.75; 1]%float] labels /\
    findKNN example_train [example_query; [0.75; 1]%float] 1 2 =
      (zip_with (fun p l => p ++ [static_cast_double l])
         [example_query; [0.75; 1]%float] labels, Ok tt).
Proof.
  apply (findKNN_appends_in_order example_train [example_query; [0.75; 1]%float] 1 2).
  - lia.
  - simpl. lia.
  - unfold fits_int, INT_MAX. simpl. lia.
  - repeat constructor; simpl; lia.
  - repeat constructor; eexists; (split; [reflexivity|]); auto.
Defined.

(** C7: with [k <= 0] or [k] above the number of training points the batch
    stops at its first point: [findKNN] throws and [test_points] is as it
    was, no label appended (an empty batch has no point to stop at). *)
Theorem findKNN_aborts (train tests : Dataset) (k d : Z) :
  fits_int (length train) ->
  k <= 0 \/ Z.of_nat (length train) < k ->
  (findKNN train tests k d).1 = tests /\
  (tests <> [] -> exists e, (findKNN train tests k d).2 = Throw e) /\
  (forall p, p ∈ tests -> exists e, predictOne train p k d = Throw e).
Proof.
  intros Hfit Hbad.
  assert (Hp : forall p, exists e, predictOne train p k d = Throw e).
  { intros p. apply (predictOne_Throw_iff train p k d Hfit), Hbad. }
  repeat split.
  - destruct tests as [|p tests]; [reflexivity|]. cbn [findKNN].
    destruct (Hp p) as [e ->]. reflexivity.
  - intros Hne. destruct tests as [|p tests]; [contradiction|]. cbn [findKNN].
    destruct (Hp p) as [e ->]. exists e. reflexivity.
  - intros p _. apply Hp.
Qed.

Lemma findKNN_aborts_witness :
  (findKNN example_train [example_query] 0 2).1 = [example_query] /\
  ([example_query] <> [] -> exists e, (findKNN example_train [example_query] 0 2).2 = Throw e) /\
  (forall p, p ∈ [example_query] -> exists e, predictOne example_train p 0 2 = Throw e).
Proof.
  apply (findKNN_aborts example_train [example_query] 0 2).
  - unfold fits_int, INT_MAX. simpl. lia.
  - left. lia.
Defined.

(** * Further properties *)

(** ** The distance *)

Lemma vec_at_past_end {A : Type} (v : list A) (i : Z) :
  Z.of_nat (length v) <= i -> vec_at v i = Undefined OutOfBounds.
Proof.
  intros H. unfold vec_at. destruct (i <? 0); [reflexivity|].
  rewrite (lookup_ge_None_2 v (Z.to_nat i)) by lia. reflexivity.
Qed.

Lemma calcDist_loop_out_of_bounds (p1 p2 : vec) (n : nat) :
  forall i sum, 0 <= i ->
    i <= Z.of_nat (length p1) -> i <= Z.of_nat (length p2) ->
    Z.of_nat (length p1) < i + Z.of_nat n \/ Z.of_nat (length p2) < i + Z.of_nat n ->
    calcDist_loop p1 p2 i n sum = Undefined OutOfBounds.
Proof.
  induction n as [|n IH]; intros i sum Hi H1 H2 Hlt; cbn [calcDist_loop]; [lia|].
  destruct (Z.eq_dec i (Z.of_nat (length p1))) as [E1|E1].
  { rewrite (vec_at_past_end p1 i) by lia. reflexivity. }
  destruct (vec_at_ok p1 i) as (a & -> & _); [lia|]. cbn [mbind result_bind].
  destruct (Z.eq_dec i (Z.of_nat (length p2))) as [E2|E2].
  { rewrite (vec_at_past_end p2 i) by lia. reflexivity. }
  destruct (vec_at_ok p2 i) as (b & -> & _); [lia|]. cbn [mbind result_bind].
  apply IH; lia.
Qed.

(** X1: [calcDistEuclidean] returns a distance exactly when both vectors
    have [d] components, and reads past the end of the shorter one
    otherwise; with [d <= 0] it reads nothing and returns 0. *)
Theorem calcDistEuclidean_domain (p1 p2 : vec) (d : Z) :
  ((exists r, calcDistEuclidean p1 p2 d = Ok r) <->
     d <= Z.of_nat (length p1) /\ d <= Z.of_nat (length p2)) /\
  (Z.of_nat (length p1) < d \/ Z.of_nat (length p2) < d ->
     calcDistEuclidean p1 p2 d = Undefined OutOfBounds) /\
  (d <= 0 -> calcDistEuclidean p1 p2 d = Ok 0%float).
Proof.
  assert (Hbad : Z.of_nat (length p1) < d \/ Z.of_nat (length p2) < d ->
                 calcDistEuclidean p1 p2 d = Undefined OutOfBounds).
  { intros H. unfold calcDistEuclidean.
    rewrite calcDist_loop_out_of_bounds by lia. reflexivity. }
  split; [|split].
  - split.
    + intros [r Hr].
      destruct (Z_lt_le_dec (Z.of_nat (length p1)) d) as [H1|H1];
        [rewrite Hbad in Hr by lia; discriminate|].
      destruct (Z_lt_le_dec (Z.of_nat (length p2)) d) as [H2|H2];
        [rewrite Hbad in Hr by lia; discriminate|].
      lia.
    + intros [H1 H2]. apply calcDistEuclidean_ok; assumption.
  - exact Hbad.
  - intros Hd. unfold calcDistEuclidean.
    replace (Z.to_nat d) with 0%nat by lia. reflexivity.
Qed.

Lemma sub_self_finite (a : double) :
  finite_double a = true -> (a - a)%float = 0%float.
Proof.
  unfold finite_double. intros H. apply Prim2SF_inj.
  rewrite FloatAxioms.sub_spec. unfold SF64sub.
  change (Prim2SF 0) with (S754_zero false).
  destruct (Prim2SF a) as [s|s| |s m e]; try discriminate.
  - destruct s; reflexivity.
  - lazy beta iota zeta delta [SFsub]. rewrite Z.sub_diag. reflexivity.
Qed.

Lemma calcDist_loop_self (a : vec) (n : nat) :
  Forall (fun c => finite_double c = true) a ->
  forall i, 0 <= i -> i + Z.of_nat n <= Z.of_nat (length a) ->
    calcDist_loop a a i n 0%float = Ok 0%float.
Proof.
  intros Hfin. induction n as [|n IH]; intros i Hi Hlen; cbn [calcDist_loop]; [reflexivity|].
  destruct (vec_at_ok a i) as (x & -> & Hx); [lia|]. cbn [mbind result_bind].
  rewrite (sub_self_finite x (Forall_lookup_1 _ _ _ _ Hfin Hx)).
  change (0 + 0 * 0)%float with 0%float. apply IH; lia.
Qed.

(** X2: the distance from a vector of finite components to itself is 0. *)
Theorem calcDistEuclidean_self (a : vec) (d : Z) :
  d <= Z.of_nat (length a) ->
  Forall (fun c => finite_double c = true) a ->
  calcDistEuclidean a a d = Ok 0%float.
Proof.
  intros Hd Hfin. unfold calcDistEuclidean.
  rewrite (calcDist_loop_self a (Z.to_nat d) Hfin 0) by lia. reflexivity.
Qed.

Lemma calcDistEuclidean_self_witness :
  calcDistEuclidean [0.5; -3; 7]%float [0.5; -3; 7]%float 2 = Ok 0%float.
Proof.
  apply (calcDistEuclidean_self [0.5; -3; 7]%float 2).
  - simpl. lia.
  - repeat constructor.
Defined.

Lemma SFsigned_leb_zero (x : spec_float) :
  SFsigned false x -> SFleb (S754_zero false) x = true.
Proof.
  destruct x as [s|s| |s m e]; simpl; try contradiction; intros ->; reflexivity.
Qed.

(** X3: between vectors of finite components the distance is not NaN and is
    at least 0. *)
Theorem calcDistEuclidean_nonnegative (a b : vec) (d : Z) (r : double) :
  Forall (fun c => finite_double c = true) a ->
  Forall (fun c => finite_double c = true) b ->
  calcDistEuclidean a b d = Ok r ->
  is_nan r = false /\ (0 <=? r)%float = true /\ (r <? 0)%float = false.
Proof.
  intros Ha Hb E.
  assert (Hs : SFsigned false (Prim2SF r)).
  { unfold calcDistEuclidean in E.
    destruct (calcDist_loop a b 0 (Z.to_nat d) 0) as [s| |] eqn:Es;
      cbn [mbind result_bind] in E; try discriminate.
    injection E as <-. rewrite FloatAxioms.sqrt_spec.
    apply (SFsqrt_signed prec emax).
    apply (calcDist_loop_signed a b _ Ha Hb 0 0%float s eq_refl Es). }
  split; [apply (calcDistEuclidean_finite a b d r Ha Hb E)|]. split.
  - rewrite FloatAxioms.leb_spec. change (Prim2SF 0) with (S754_zero false).
    apply SFsigned_leb_zero, Hs.
  - rewrite FloatAxioms.ltb_spec. change (Prim2SF 0) with (S754_zero false).
    unfold SFltb. destruct (Prim2SF r) as [s|s| |s m e]; simpl in *;
      try contradiction; subst; reflexivity.
Qed.

Lemma calcDistEuclidean_nonnegative_witness :
  is_nan 5%float = false /\ (0 <=? 5)%float = true /\ (5 <? 0)%float = false.
Proof.
  apply (calcDistEuclidean_nonnegative [3; 0]%float [0; 4]%float 2 5%float).
  - repeat constructor.
  - repeat constructor.
  - reflexivity.
Defined.

Lemma vec_at_take {A : Type} (v v' : list A) (d i : Z) :
  take (Z.to_nat d) v = take (Z.to_nat d) v' -> i < d -> vec_at v i = vec_at v' i.
Proof.
  intros E Hi. unfold vec_at. destruct (i <? 0) eqn:E0; [reflexivity|].
  rewrite <- (lookup_take_lt v (Z.to_nat d) (Z.to_nat i)) by lia.
  rewrite <- (lookup_take_lt v' (Z.to_nat d) (Z.to_nat i)) by lia.
  rewrite E. reflexivity.
Qed.

Lemma calcDist_loop_take (a a' b b' : vec) (d : Z) (n : nat) :
  take (Z.to_nat d) a = take (Z.to_nat d) a' ->
  take (Z.to_nat d) b = take (Z.to_nat d) b' ->
  forall i sum, i + Z.of_nat n <= d ->
    calcDist_loop a b i n sum = calcDist_loop a' b' i n sum.
Proof.
  intros Ea Eb. induction n as [|n IH]; intros i sum H; cbn [calcDist_loop]; [reflexivity|].
  rewrite (vec_at_take a a' d i Ea), (vec_at_take b b' d i Eb) by lia.
  destruct (vec_at a' i) as [x| |]; cbn [mbind result_bind]; try reflexivity.
  destruct (vec_at b' i) as [y| |]; cbn [mbind result_bind]; try reflexivity.
  apply IH; lia.
Qed.

Lemma calcDistEuclidean_take (a a' b b' : vec) (d : Z) :
  take (Z.to_nat d) a = take (Z.to_nat d) a' ->
  take (Z.to_nat d) b = take (Z.to_nat d) b' ->
  calcDistEuclidean a b d = calcDistEuclidean a' b' d.
Proof.
  intros Ea Eb. unfold calcDistEuclidean.
  destruct (Z_lt_le_dec d 0) as [Hd|Hd].
  - rewrite (Z2Nat.nonpos d) by lia. reflexivity.
  - rewrite (calcDist_loop_take a a' b b' d (Z.to_nat d) Ea Eb) by lia. reflexivity.
Qed.

(** X4: [calcDistEuclidean] reads the first [d] components only: two pairs
    of vectors that agree there have the same distance, undefined behaviour
    included; what follows the features in either vector (a label, say) does
    not change the result. *)
Theorem calcDistEuclidean_first_d (a a' b b' : vec) (d : Z) :
  take (Z.to_nat d) a = take (Z.to_nat d) a' ->
  take (Z.to_nat d) b = take (Z.to_nat d) b' ->
  calcDistEuclidean a b d = calcDistEuclidean a' b' d /\
  forall e1 e2,
    d <= Z.of_nat (length a) -> d <= Z.of_nat (length b) ->
    calcDistEuclidean (a ++ e1) (b ++ e2) d = calcDistEuclidean a b d.
Proof.
  intros Ea Eb. split; [apply calcDistEuclidean_take; assumption|].
  intros e1 e2 Ha Hb. apply calcDistEuclidean_take; apply take_app_le; lia.
Qed.

Lemma calcDistEuclidean_first_d_witness :
  calcDistEuclidean [3; 0; 1]%float [0; 4]%float 2
    = calcDistEuclidean [3; 0]%float [0; 4; 0; 9]%float 2 /\
  forall e1 e2,
    2 <= Z.of_nat (length [3; 0; 1]%float) -> 2 <= Z.of_nat (length [0; 4]%float) ->
    calcDistEuclidean ([3; 0; 1]%float ++ e1) ([0; 4]%float ++ e2) 2
    = calcDistEuclidean [3; 0; 1]%float [0; 4]%float 2.
Proof.
  apply (calcDistEuclidean_first_d [3; 0; 1]%float [3; 0]%float [0; 4]%float [0; 4; 0; 9]%float 2);
    reflexivity.
Defined.

(** ** What the selector reads *)

Lemma scan_loop_ext (train train' : Dataset) (test test' : vec) (k d : Z) :
  (forall j, (vec_at train j ≫= fun row => calcDistEuclidean test row d)
             = (vec_at train' j ≫= fun row => calcDistEuclidean test' row d)) ->
  forall n i heap,
    scan_loop train test k d i n heap = scan_loop train' test' k d i n heap.
Proof.
  intros H. induction n as [|n IH]; intros i heap; cbn [scan_loop]; [reflexivity|].
  specialize (H i).
  destruct (vec_at train i) as [row|e|u], (vec_at train' i) as [row'|e'|u'];
    cbn [mbind result_bind] in H |- *;
    try (rewrite H; reflexivity); try (rewrite <- H; reflexivity); try congruence.
  rewrite H. destruct (calcDistEuclidean test' row' d) as [x| |];
    cbn [mbind result_bind]; try reflexivity.
  destruct (int_of_size (length heap) <? k); [apply IH|].
  destruct (pq_top heap) as [top| |]; cbn [mbind result_bind]; try reflexivity.
  destruct (x <? top.1)%float; [|apply IH].
  destruct (pq_pop cmp heap) as [heap'| |]; cbn [mbind result_bind]; try reflexivity.
  apply IH.
Qed.

Lemma selectNeighbors_take_query (train : Dataset) (test test' : vec) (k d : Z) :
  take (Z.to_nat d) test = take (Z.to_nat d) test' ->
  selectNeighbors train test' k d = selectNeighbors train test k d.
Proof.
  intros E. unfold selectNeighbors.
  destruct (k <=? 0); [reflexivity|].
  destruct (int_of_size (length train) <? k); [reflexivity|].
  apply scan_loop_ext. intros j.
  destruct (vec_at train j) as [row| |]; cbn [mbind result_bind]; try reflexivity.
  apply calcDistEuclidean_take; [symmetry; exact E | reflexivity].
Qed.

Lemma predictOne_take_query (train : Dataset) (test test' : vec) (k d : Z) :
  take (Z.to_nat d) test = take (Z.to_nat d) test' ->
  predictOne train test' k d = predictOne train test k d.
Proof.
  intros E. unfold predictOne.
  rewrite (selectNeighbors_take_query train test test' k d E). reflexivity.
Qed.

(** X5: [predictOne] reads the first [d] components of the query only: two
    queries that agree there select the same neighbours and get the same
    outcome, whatever follows the features. *)
Theorem predictOne_query_first_d (train : Dataset) (test test' : vec) (k d : Z) :
  take (Z.to_nat d) test = take (Z.to_nat d) test' ->
  selectNeighbors train test' k d = selectNeighbors train test k d /\
  predictOne train test' k d = predictOne train test k d.
Proof.
  intros E. split;
    [apply selectNeighbors_take_query | apply predictOne_take_query]; exact E.
Qed.

Lemma predictOne_query_first_d_witness :
  selectNeighbors example_train (example_query ++ [7]%float) 1 2
    = selectNeighbors example_train example_query 1 2 /\
  predictOne example_train (example_query ++ [7]%float) 1 2
    = predictOne example_train example_query 1 2.
Proof.
  apply (predictOne_query_first_d example_train example_query (example_query ++ [7]%float) 1 2).
  reflexivity.
Defined.

Lemma vec_at_Forall2 {A : Type} (R : A -> A -> Prop) (v v' : list A) (j : Z) :
  Forall2 R v v' ->
  (exists x x', vec_at v j = Ok x /\ vec_at v' j = Ok x' /\ R x x') \/
  (vec_at v j = Undefined OutOfBounds /\ vec_at v' j = Undefined OutOfBounds).
Proof.
  intros HF. unfold vec_at. destruct (j <? 0); [right; split; reflexivity|].
  destruct (v !! Z.to_nat j) as [x|] eqn:Hx.
  - destruct (Forall2_lookup_l _ _ _ _ _ HF Hx) as (x' & -> & HR).
    left. exists x, x'. repeat split. exact HR.
  - right. split; [reflexivity|].
    apply lookup_ge_None in Hx. rewrite (Forall2_length _ _ _ HF) in Hx.
    apply lookup_ge_None in Hx. rewrite Hx. reflexivity.
Qed.

(** X6: the selector does not read the labels: training sets whose points
    agree on their first [d] components give the same neighbours, the same
    distances and indices in the same heap order, and the same undefined
    behaviour. *)
Theorem selectNeighbors_ignores_labels (train train' : Dataset) (test : vec) (k d : Z) :
  Forall2 (fun r r' : vec => take (Z.to_nat d) r = take (Z.to_nat d) r') train train' ->
  selectNeighbors train' test k d = selectNeighbors train test k d.
Proof.
  intros HF. unfold selectNeighbors. rewrite <- (Forall2_length _ _ _ HF).
  destruct (k <=? 0); [reflexivity|].
  destruct (int_of_size (length train) <? k); [reflexivity|].
  apply scan_loop_ext. intros j.
  destruct (vec_at_Forall2 _ train train' j HF) as [(r & r' & -> & -> & E) | [-> ->]];
    cbn [mbind result_bind]; [|reflexivity].
  apply calcDistEuclidean_take; [reflexivity | symmetry; exact E].
Qed.

Lemma selectNeighbors_ignores_labels_witness :
  selectNeighbors [[0; 0; 1]; [1; 1; 0; 9]]%float example_query 1 2
  = selectNeighbors example_train example_query 1 2.
Proof.
  apply (selectNeighbors_ignores_labels
           example_train [[0; 0; 1]; [1; 1; 0; 9]]%float example_query 1 2).
  repeat constructor.
Defined.

(** ** The vote, whatever the labels *)

Lemma tally_labels (train : Dataset) (d : Z) (heap : list Neighbor) (labels : list Z) :
  Forall2 (fun n l => label_of train d n.2 = Ok l) heap labels ->
  tally train d heap = Ok (Z.of_nat (length labels) - 2 * count_label 0 labels).
Proof.
  intros HF. induction HF as [|n l heap labels Hl HF IH]; [reflexivity|].
  cbn [tally]. rewrite Hl, IH. cbn [mbind result_bind]. f_equal.
  unfold count_label, contribution. cbn [List.filter length].
  rewrite (Z.eqb_sym 0 l). destruct (l =? 0); cbn [length]; lia.
Qed.

(** X7: a label that is not 0 votes as a 1, whatever its value: the vote is
    the number of neighbours minus twice the number of 0 labels, it stays
    within the number of neighbours in absolute value, and [predictOne]
    returns 0 exactly when the 0 labels are a strict majority. *)
Theorem predictOne_vote_any_label
    (train : Dataset) (test : vec) (k d : Z) (heap : list Neighbor) (labels : list Z) :
  selectNeighbors train test k d = Ok heap ->
  Forall2 (fun n l => label_of train d n.2 = Ok l) heap labels ->
  exists vote,
    vote_loop train d (length heap) heap 0 = Ok vote /\
    vote = Z.of_nat (length labels) - 2 * count_label 0 labels /\
    - Z.of_nat (length heap) <= vote <= Z.of_nat (length heap) /\
    predictOne train test k d = Ok (if 0 <=? vote then 1 else 0) /\
    (predictOne train test k d = Ok 0 <->
     Z.of_nat (length labels) < 2 * count_label 0 labels).
Proof.
  intros Hs HF. pose proof (tally_labels train d heap labels HF) as Ht.
  exists (Z.of_nat (length labels) - 2 * count_label 0 labels).
  split; [|split; [reflexivity|split; [apply (tally_bound train d heap _ Ht)|]]].
  - destruct (vote_loop_tally train d (length heap) heap 0 eq_refl)
      as [(t' & Ht' & E) | (n & u & Hn & Hu & _)].
    + rewrite Ht in Ht'. injection Ht' as <-. exact E.
    + destruct (tally_elem train d heap _ n Ht Hn) as [l Hl]. congruence.
  - rewrite (predictOne_tally train test k d heap _ Hs Ht). split; [reflexivity|].
    destruct (0 <=? _) eqn:E; split; intros H; try discriminate; try reflexivity; lia.
Qed.

Lemma predictOne_vote_any_label_witness :
  exists vote,
    vote_loop [[0; 7]; [1; 0]; [2; -3]]%float 1 3 [(2%float, 2); (0%float, 0); (1%float, 1)] 0
      = Ok vote /\
    vote = Z.of_nat (length [-3; 7; 0]) - 2 * count_label 0 [-3; 7; 0] /\
    - Z.of_nat (length [(2%float, 2); (0%float, 0); (1%float, 1)]) <= vote
      <= Z.of_nat (length [(2%float, 2); (0%float, 0); (1%float, 1)]) /\
    predictOne [[0; 7]; [1; 0]; [2; -3]]%float [0]%float 3 1
      = Ok (if 0 <=? vote then 1 else 0) /\
    (predictOne [[0; 7]; [1; 0]; [2; -3]]%float [0]%float 3 1 = Ok 0 <->
     Z.of_nat (length [-3; 7; 0]) < 2 * count_label 0 [-3; 7; 0]).
Proof.
  apply (predictOne_vote_any_label [[0; 7]; [1; 0]; [2; -3]]%float [0]%float 3 1
           [(2%float, 2); (0%float, 0); (1%float, 1)] [-3; 7; 0]).
  - reflexivity.
  - repeat constructor.
Defined.

Lemma predictOne_Ok_binary (train : Dataset) (test : vec) (k d cls : Z) :
  predictOne train test k d = Ok cls -> cls = 0 \/ cls = 1.
Proof.
  unfold predictOne.
  destruct (selectNeighbors train test k d) as [heap| |]; cbn [mbind result_bind]; try discriminate.
  destruct (vote_loop train d (length heap) heap 0) as [vote| |];
    cbn [mbind result_bind]; try discriminate.
  intros H. injection H as <-. destruct (0 <=? vote); auto.
Qed.

(** X8: whatever the training labels are, a batch that [findKNN] completes
    has every point in its place with [0.0] or [1.0] appended: one more
    component each, and as many points as before. *)
Theorem findKNN_appends_binary (train tests out : Dataset) (k d : Z) :
  findKNN train tests k d = (out, Ok tt) ->
  length out = length tests /\
  Forall2 (fun p q : vec =>
             (q = p ++ [0%float] \/ q = p ++ [1%float]) /\ length q = S (length p))
    tests out.
Proof.
  intros E. destruct (findKNN_Ok train k d tests out E) as (labels & HF & ->).
  clear E. induction HF as [|p l tests labels Hp HF [IH1 IH2]]; [split; [reflexivity|constructor]|].
  cbn [zip_with length]. split; [f_equal; exact IH1|].
  constructor; [|exact IH2]. split.
  - destruct (predictOne_Ok_binary train p k d l Hp) as [-> | ->]; [left | right]; reflexivity.
  - rewrite length_app, Nat.add_1_r. reflexivity.
Qed.

Lemma findKNN_appends_binary_witness :
  length [[0; 1]%float] = length [[0]%float] /\
  Forall2 (fun p q : vec =>
             (q = p ++ [0%float] \/ q = p ++ [1%float]) /\ length q = S (length p))
    [[0]%float] [[0; 1]%float].
Proof.
  apply (findKNN_appends_binary [[0; 7]; [1; 0]; [2; -3]]%float [[0]%float] [[0; 1]%float] 3 1).
  reflexivity.
Defined.

Lemma findKNN_relabel (train : Dataset) (k d : Z) (tests : Dataset) (labels : list Z) :
  Forall2 (fun p l => predictOne train p k d = Ok l) tests labels ->
  Forall (fun p : vec => d <= Z.of_nat (length p)) tests ->
  findKNN train (zip_with (fun p l => p ++ [static_cast_double l]) tests labels) k d
  = (zip_with (fun p l => p ++ [static_cast_double l; static_cast_double l]) tests labels,
     Ok tt).
Proof.
  intros HF. induction HF as [|p l tests labels Hp HF IH]; intros Hd; [reflexivity|].
  apply Forall_cons_1 in Hd as [Hp' Hd]. cbn [zip_with findKNN].
  rewrite (predictOne_take_query train p (p ++ [static_cast_double l]) k d)
    by (symmetry; apply take_app_le; lia).
  rewrite Hp, (IH Hd), <- app_assoc. reflexivity.
Qed.

(** X9: [findKNN] on a batch it has already labelled appends the same
    labels once more: the label at index [d] of a test point is past the
    features and is not read. *)
Theorem findKNN_again (train tests out : Dataset) (k d : Z) :
  Forall (fun p : vec => d <= Z.of_nat (length p)) tests ->
  findKNN train tests k d = (out, Ok tt) ->
  exists labels,
    out = zip_with (fun p l => p ++ [static_cast_double l]) tests labels /\
    findKNN train out k d
    = (zip_with (fun p l => p ++ [static_cast_double l; static_cast_double l]) tests labels,
       Ok tt).
Proof.
  intros Hd E. destruct (findKNN_Ok train k d tests out E) as (labels & HF & ->).
  exists labels. split; [reflexivity|]. apply findKNN_relabel; assumption.
Qed.

Lemma findKNN_again_witness :
  exists labels,
    [example_query ++ [0%float]]
      = zip_with (fun p l => p ++ [static_cast_double l]) [example_query] labels /\
    findKNN example_train [example_query ++ [0%float]] 1 2
    = (zip_with (fun p l => p ++ [static_cast_double l; static_cast_double l])
         [example_query] labels, Ok tt).
Proof.
  apply (findKNN_again example_train [example_query] [example_query ++ [0%float]] 1 2).
  - repeat constructor. simpl. lia.
  - reflexivity.
Defined.

(** ** The heap after the scan *)

(** X10: on a valid call whose distances are not NaN, the neighbour on top
    of the heap when the scan ends is a farthest one of the [k] retained:
    none of them compares greater. *)
Theorem heap_top_farthest (train : Dataset) (test : vec) (k d : Z) :
  0 < k -> k <= Z.of_nat (length train) -> fits_int (length train) ->
  comparable train test d -> nonan_distances train test d ->
  exists top rest,
    selectNeighbors train test k d = Ok (top :: rest) /\
    pq_top (top :: rest) = Ok top /\
    forall n, n ∈ top :: rest -> (top.1 <? n.1)%float = false.
Proof.
  intros Hk Hn Hfit Hwf Hnn.
  destruct (comparable_distances train test d Hwf) as [ds Hds].
  pose proof (Forall2_length _ _ _ Hds) as Hlen.
  pose proof (distances_nonan train test d ds Hds Hnn) as Hdn.
  destruct (selectNeighbors_inv train test k d ds Hk Hn Hfit Hds) as (Hs & Hinv & Hord).
  specialize (Hord Hdn).
  pose proof (inv_length _ _ _ _ Hinv) as Hsize.
  destruct (scan_pure k 0 ds []) as [|top rest] eqn:Eh; [simpl in Hsize; lia|].
  exists top, rest. split; [exact Hs|]. split; [reflexivity|].
  intros n Hin. apply list_elem_of_lookup in Hin as [i Hi].
  apply (heap_top_max cmp nonan cmp_irrefl cmp_trans (top :: rest) top i n);
    [apply (ord_heap _ _ _ _ Hord) | | reflexivity | exact Hi].
  apply (scan_inv_nonan k ds Hdn _ _ Hinv).
Qed.

Lemma heap_top_farthest_witness :
  exists top rest,
    selectNeighbors tied_train tied_query 2 1 = Ok (top :: rest) /\
    pq_top (top :: rest) = Ok top /\
    forall n, n ∈ top :: rest -> (top.1 <? n.1)%float = false.
Proof.
  apply (heap_top_farthest tied_train tied_query 2 1).
  - lia.
  - simpl. lia.
  - unfold fits_int, INT_MAX. simpl. lia.
  - split; [simpl; lia|]. repeat constructor; simpl; lia.
  - repeat constructor; intros r E; vm_compute in E; injection E as <-; reflexivity.
Defined.

(** ** Every training point a neighbour *)

Lemma tally_indices_fmap (train : Dataset) (d : Z) (h : list Neighbor) :
  tally train d h = tally train d ((fun i : Z => (0%float, i)) <$> h.*2).
Proof.
  induction h as [|n h IH]; [reflexivity|].
  cbn [tally fmap list_fmap]. rewrite IH. reflexivity.
Qed.

Lemma tally_indices (train : Dataset) (d : Z) (h h' : list Neighbor) (t : Z) :
  h.*2 ≡ₚ h'.*2 -> tally train d h = Ok t -> tally train d h' = Ok t.
Proof.
  intros Hp. rewrite (tally_indices_fmap train d h), (tally_indices_fmap train d h').
  apply tally_perm, fmap_Permutation, Hp.
Qed.

Lemma scan_inv_all_indices (k : Z) (ds : list double) (heap : list Neighbor) :
  k = Z.of_nat (length ds) -> scan_inv k ds (length ds) heap ->
  heap.*2 ≡ₚ Z.of_nat <$> seq 0 (length ds).
Proof.
  intros Hk Hinv. apply submseteq_length_Permutation.
  - apply NoDup_submseteq; [apply (inv_nodup _ _ _ _ Hinv)|].
    intros i Hi. apply list_elem_of_fmap in Hi as (n & -> & Hn).
    destruct (inv_elem _ _ _ _ Hinv n Hn) as (j & -> & Hj & _).
    apply list_elem_of_fmap. exists j. split; [reflexivity|].
    apply elem_of_seq. lia.
  - rewrite !length_fmap, length_seq.
    pose proof (inv_length _ _ _ _ Hinv). lia.
Qed.

(** X11: with [k] the number of training points every training point is a
    neighbour, whatever the query; a label [predictOne] returns for one
    query is then the label it returns for any other. *)
Theorem predictOne_all_points (train : Dataset) (test test' : vec) (d : Z) :
  (0 < length train)%nat -> fits_int (length train) ->
  comparable train test d -> comparable train test' d ->
  (exists heap,
     selectNeighbors train test (Z.of_nat (length train)) d = Ok heap /\
     heap.*2 ≡ₚ Z.of_nat <$> seq 0 (length train)) /\
  (forall cls,
     predictOne train test (Z.of_nat (length train)) d = Ok cls ->
     predictOne train test' (Z.of_nat (length train)) d = Ok cls).
Proof.
  intros Hpos Hfit Hc Hc'.
  assert (Hsel : forall q, comparable train q d ->
            exists heap,
              selectNeighbors train q (Z.of_nat (length train)) d = Ok heap /\
              heap.*2 ≡ₚ Z.of_nat <$> seq 0 (length train)).
  { intros q Hq. destruct (comparable_distances train q d Hq) as [ds Hds].
    pose proof (Forall2_length _ _ _ Hds) as Hlen.
    destruct (selectNeighbors_inv train q (Z.of_nat (length train)) d ds) as (Hs & Hinv & _);
      [lia | lia | exact Hfit | exact Hds |].
    exists (scan_pure (Z.of_nat (length train)) 0 ds []). split; [exact Hs|].
    rewrite Hlen in Hinv |- *.
    apply (scan_inv_all_indices (Z.of_nat (length ds)) ds _ eq_refl Hinv). }
  split; [apply Hsel, Hc|].
  intros cls Hp.
  destruct (Hsel test Hc) as (h & Hs & Hperm), (Hsel test' Hc') as (h' & Hs' & Hperm').
  unfold predictOne in Hp. rewrite Hs in Hp. cbn [mbind result_bind] in Hp.
  destruct (vote_loop_tally train d (length h) h 0 eq_refl)
    as [(t & Ht & E) | (n & u & _ & _ & E)]; rewrite E in Hp; [|discriminate].
  cbn [mbind result_bind] in Hp. injection Hp as <-.
  apply (predictOne_tally train test' _ d h' t Hs').
  apply (tally_indices train d h h' t); [|exact Ht].
  rewrite Hperm, Hperm'. reflexivity.
Qed.

Lemma predictOne_all_points_witness :
  (exists heap,
     selectNeighbors tied_train tied_query (Z.of_nat (length tied_train)) 1 = Ok heap /\
     heap.*2 ≡ₚ Z.of_nat <$> seq 0 (length tied_train)) /\
  (forall cls,
     predictOne tied_train tied_query (Z.of_nat (length tied_train)) 1 = Ok cls ->
     predictOne tied_train [4; 2]%float (Z.of_nat (length tied_train)) 1 = Ok cls).
Proof.
  apply (predictOne_all_points tied_train tied_query [4; 2]%float 1).
  - simpl. lia.
  - unfold fits_int, INT_MAX. simpl. lia.
  - split; [simpl; lia|]. repeat constructor; simpl; lia.
  - split; [simpl; lia|]. repeat constructor; simpl; lia.
Defined.

(** ** Reads past the end *)

Lemma calcDistEuclidean_past_end (p1 p2 : vec) (d : Z) :
  Z.of_nat (length p1) < d \/ Z.of_nat (length p2) < d ->
  calcDistEuclidean p1 p2 d = Undefined OutOfBounds.
Proof.
  intros H. unfold calcDistEuclidean.
  rewrite calcDist_loop_out_of_bounds by lia. reflexivity.
Qed.

Lemma calcDist_loop_Undefined (p1 p2 : vec) (u : undefined) (n : nat) :
  forall i sum, calcDist_loop p1 p2 i n sum = Undefined u -> u = OutOfBounds.
Proof.
  induction n as [|n IH]; intros i sum; cbn [calcDist_loop]; [discriminate|].
  destruct (vec_at p1 i) as [a| |] eqn:Ha; cbn [mbind result_bind];
    [|discriminate | intros E; injection E as <-; apply (vec_at_Undefined _ _ _ Ha)].
  destruct (vec_at p2 i) as [b| |] eqn:Hb; cbn [mbind result_bind];
    [|discriminate | intros E; injection E as <-; apply (vec_at_Undefined _ _ _ Hb)].
  apply IH.
Qed.

Lemma calcDistEuclidean_Undefined (p1 p2 : vec) (d : Z) (u : undefined) :
  calcDistEuclidean p1 p2 d = Undefined u -> u = OutOfBounds.
Proof.
  unfold calcDistEuclidean.
  destruct (calcDist_loop p1 p2 0 (Z.to_nat d) 0) as [s| |] eqn:E;
    cbn [mbind result_bind]; try discriminate.
  intros H. injection H as <-. apply (calcDist_loop_Undefined _ _ _ _ _ _ E).
Qed.

Lemma int_of_size_0 : int_of_size 0 = 0.
Proof. reflexivity. Qed.

Lemma scan_loop_Undefined (train : Dataset) (test : vec) (k d : Z) (u : undefined) (n : nat) :
  0 < k ->
  forall i heap, scan_loop train test k d i n heap = Undefined u -> u = OutOfBounds.
Proof.
  intros Hk. induction n as [|n IH]; intros i heap; cbn [scan_loop]; [discriminate|].
  destruct (vec_at train i) as [row| |] eqn:Hr; cbn [mbind result_bind];
    [|discriminate | intros E; injection E as <-; apply (vec_at_Undefined _ _ _ Hr)].
  destruct (calcDistEuclidean test row d) as [x| |] eqn:Hx; cbn [mbind result_bind];
    [|discriminate | intros E; injection E as <-; apply (calcDistEuclidean_Undefined _ _ _ _ Hx)].
  destruct (int_of_size (length heap) <? k) eqn:Hsz; [apply IH|].
  destruct heap as [|top heap]; [cbn [length] in Hsz; rewrite int_of_size_0 in Hsz; lia|].
  cbn [pq_top pq_pop mbind result_bind].
  destruct (x <? top.1)%float; apply IH.
Qed.

Lemma scan_loop_Ok_rows (train : Dataset) (test : vec) (k d : Z) (n : nat) :
  forall i heap h, scan_loop train test k d i n heap = Ok h ->
  forall j, i <= j < i + Z.of_nat n ->
    exists row x, vec_at train j = Ok row /\ calcDistEuclidean test row d = Ok x.
Proof.
  induction n as [|n IH]; intros i heap h E j Hj; [lia|].
  cbn [scan_loop] in E.
  destruct (vec_at train i) as [row| |] eqn:Hr; cbn [mbind result_bind] in E; try discriminate.
  destruct (calcDistEuclidean test row d) as [x| |] eqn:Hx;
    cbn [mbind result_bind] in E; try discriminate.
  destruct (Z.eq_dec j i) as [->|Hne]; [eauto|].
  destruct (int_of_size (length heap) <? k); [apply (IH _ _ _ E); lia|].
  destruct (pq_top heap) as [top| |]; cbn [mbind result_bind] in E; try discriminate.
  destruct (x <? top.1)%float; [|apply (IH _ _ _ E); lia].
  destruct (pq_pop cmp heap) as [heap'| |]; cbn [mbind result_bind] in E; try discriminate.
  apply (IH _ _ _ E); lia.
Qed.

Lemma label_of_negative (train : Dataset) (d idx : Z) :
  d < 0 -> label_of train d idx = Undefined OutOfBounds.
Proof.
  intros Hd. unfold label_of.
  destruct (vec_at train idx) as [row| |] eqn:Hr; cbn [mbind result_bind].
  - unfold vec_at. destruct (d <? 0) eqn:E; [reflexivity | lia].
  - contradiction (vec_at_not_Throw _ _ _ Hr).
  - rewrite (vec_at_Undefined _ _ _ Hr). reflexivity.
Qed.

(** X12: on a call with a valid [k], [predictOne] reads past the end of a
    vector when [d] is negative (the distances are all 0, and the vote reads
    index [d]), when the query has fewer than [d] components, or when some
    training point has. *)
Theorem predictOne_out_of_bounds (train : Dataset) (test : vec) (k d : Z) :
  0 < k -> k <= Z.of_nat (length train) -> fits_int (length train) ->
  d < 0 \/ Z.of_nat (length test) < d \/
    Exists (fun row : vec => Z.of_nat (length row) < d) train ->
  predictOne train test k d = Undefined OutOfBounds /\
  (d < 0 -> exists heap, selectNeighbors train test k d = Ok heap /\
                         Forall (fun n : Neighbor => n.1 = 0%float) heap) /\
  (0 <= d -> selectNeighbors train test k d = Undefined OutOfBounds).
Proof.
  intros Hk Hn Hfit Hbad.
  assert (Hneg : d < 0 -> exists heap,
            selectNeighbors train test k d = Ok heap /\
            Forall (fun n : Neighbor => n.1 = 0%float) heap /\ heap <> []).
  { intros Hd.
    assert (Hc : comparable train test d).
    { split; [lia|]. apply Forall_forall. intros row _. lia. }
    destruct (comparable_distances train test d Hc) as [ds Hds].
    destruct (selectNeighbors_inv train test k d ds Hk Hn Hfit Hds) as (Hs & Hinv & _).
    exists (scan_pure k 0 ds []). split; [exact Hs|]. split.
    - apply Forall_forall. intros n Hin.
      destruct (inv_elem _ _ _ _ Hinv n Hin) as (j & _ & _ & Hj).
      destruct (Forall2_lookup_r _ _ _ _ _ Hds Hj) as (row & _ & Hx).
      unfold calcDistEuclidean in Hx. rewrite (Z2Nat.nonpos d) in Hx by lia.
      cbn in Hx. injection Hx as <-. reflexivity.
    - pose proof (inv_length _ _ _ _ Hinv) as Hsize.
      pose proof (Forall2_length _ _ _ Hds).
      intros E. rewrite E in Hsize. simpl in Hsize. lia. }
  assert (Hpos : 0 <= d -> selectNeighbors train test k d = Undefined OutOfBounds).
  { intros Hd.
    assert (Hrow : exists (j : nat) row, train !! j = Some row /\
              calcDistEuclidean test row d = Undefined OutOfBounds).
    { destruct Hbad as [Hbad | [Hbad | Hbad]]; [lia | |].
      - destruct (lookup_lt_is_Some_2 train 0) as [row Hrow]; [lia|].
        exists 0%nat, row. split; [exact Hrow|].
        apply calcDistEuclidean_past_end. left. exact Hbad.
      - apply Exists_exists in Hbad as (row & Hin & Hlt).
        apply list_elem_of_lookup in Hin as [j Hj].
        exists j, row. split; [exact Hj|].
        apply calcDistEuclidean_past_end. right. exact Hlt. }
    destruct Hrow as (j & row & Hj & Hx).
    unfold selectNeighbors. rewrite (int_of_size_fits _ Hfit), Nat2Z.id.
    destruct (k <=? 0) eqn:E1; [lia|].
    destruct (Z.of_nat (length train) <? k) eqn:E2; [lia|].
    destruct (scan_loop train test k d 0 (length train) []) as [h|e|u] eqn:Es.
    - destruct (scan_loop_Ok_rows train test k d _ _ _ _ Es (Z.of_nat j))
        as (row' & x & Hr' & Hx').
      { apply lookup_lt_Some in Hj. lia. }
      apply vec_at_Ok_inv in Hr' as [_ Hr']. rewrite Nat2Z.id, Hj in Hr'.
      injection Hr' as <-. congruence.
    - contradiction (scan_loop_not_Throw _ _ _ _ _ _ _ _ Es).
    - rewrite (scan_loop_Undefined train test k d u _ Hk _ _ Es). reflexivity. }
  split; [|split; [|exact Hpos]].
  - destruct (Z_lt_le_dec d 0) as [Hd|Hd].
    + destruct (Hneg Hd) as (heap & Hs & _ & Hne).
      unfold predictOne. rewrite Hs. cbn [mbind result_bind].
      destruct (vote_loop_tally train d (length heap) heap 0 eq_refl)
        as [(t & Ht & _) | (n & u & Hin & Hu & ->)].
      * destruct heap as [|n heap]; [contradiction|].
        destruct (tally_elem train d (n :: heap) t n Ht) as [l Hl];
          [apply elem_of_cons; left; reflexivity|].
        rewrite (label_of_negative train d n.2 Hd) in Hl. discriminate.
      * rewrite (label_of_negative train d n.2 Hd) in Hu. injection Hu as <-. reflexivity.
    + unfold predictOne. rewrite (Hpos Hd). reflexivity.
  - intros Hd. destruct (Hneg Hd) as (heap & Hs & Hz & _). eauto.
Qed.

Lemma predictOne_out_of_bounds_witness :
  predictOne example_train [0.5]%float 1 2 = Undefined OutOfBounds /\
  (2 < 0 -> exists heap, selectNeighbors example_train [0.5]%float 1 2 = Ok heap /\
                         Forall (fun n : Neighbor => n.1 = 0%float) heap) /\
  (0 <= 2 -> selectNeighbors example_train [0.5]%float 1 2 = Undefined OutOfBounds).
Proof.
  apply (predictOne_out_of_bounds example_train [0.5]%float 1 2).
  - lia.
  - simpl. lia.
  - unfold fits_int, INT_MAX. simpl. lia.
  - right. left. simpl. lia.
Defined.

(** ** The generator *)

Lemma reserve_cases {M : Type} (allocate : M -> request -> option M)
    (capacity n : Z) (storage : Z -> request) (mem : M) :
  (n < 0 /\ reserve allocate capacity n storage mem = (mem, length_error)) \/
  (0 <= n <= capacity /\ reserve allocate capacity n storage mem = (mem, Generated)) \/
  (0 <= n /\ capacity < n /\
     exists mem', allocate mem (storage n) = Some mem' /\
                  reserve allocate capacity n storage mem = (mem', Generated)) \/
  (0 <= n /\ capacity < n /\ allocate mem (storage n) = None /\
     reserve allocate capacity n storage mem = (mem, bad_alloc)).
Proof.
  unfold reserve. destruct (n <? 0) eqn:E1; [left; split; [lia | reflexivity]|].
  destruct (n <=? capacity) eqn:E2; [right; left; split; [lia | reflexivity]|].
  destruct (allocate mem (storage n)) as [mem'|] eqn:Ea.
  - right. right. left. repeat split; try lia. exists mem'. split; reflexivity.
  - right. right. right. repeat split; lia.
Qed.

Lemma reserve_within {M : Type} (allocate : M -> request -> option M)
    (capacity n : Z) (storage : Z -> request) (mem : M) :
  0 <= n <= capacity -> reserve allocate capacity n storage mem = (mem, Generated).
Proof.
  intros H. unfold reserve.
  destruct (n <? 0) eqn:E1; [lia|]. destruct (n <=? capacity) eqn:E2; [reflexivity | lia].
Qed.

Lemma reserve_never_fails {M : Type} (allocate : M -> request -> option M)
    (capacity n : Z) (storage : Z -> request) (mem : M) :
  never_fails allocate -> 0 <= n ->
  exists mem', reserve allocate capacity n storage mem = (mem', Generated).
Proof.
  intros Hnf Hn.
  destruct (reserve_cases allocate capacity n storage mem)
    as [[H _] | [[_ E] | [(_ & _ & mem' & _ & E) | (_ & _ & Ha & _)]]];
    [lia | eauto | eauto | contradiction (Hnf _ _ Ha)].
Qed.

Section GeneratorProperties.
Context {G M : Type}.
Variable dis : G -> double * G.
Variable cls : G -> Z * G.
Variable allocate : M -> request -> option M.
Variable P : double -> Prop.
Variable Q : Z -> Prop.
Hypothesis dis_P : forall g, P (dis g).1.
Hypothesis cls_Q : forall g, Q (cls g).1.

Lemma generatePoint_loop_spec (n : nat) :
  forall point gen, exists feats gen',
    generatePoint_loop dis n point gen = (point ++ feats, gen') /\
    length feats = n /\ Forall P feats.
Proof.
  induction n as [|n IH]; intros point gen; cbn [generatePoint_loop].
  - exists [], gen. rewrite app_nil_r. repeat split. constructor.
  - pose proof (dis_P gen) as Hx. destruct (dis gen) as [x g1].
    destruct (IH (point ++ [x]) g1) as (feats & gen' & -> & Hlen & HF).
    exists (x :: feats), gen'. rewrite <- app_assoc. repeat split.
    + simpl. f_equal. exact Hlen.
    + constructor; assumption.
Qed.

Lemma generatePoint_spec (point : vec) (capacity d : Z) (gen : G) (mem mem' : M) :
  reserve allocate capacity d Doubles mem = (mem', Generated) ->
  exists feats gen',
    generatePoint dis allocate point capacity d gen mem = (feats, gen', mem', Generated) /\
    Z.of_nat (length feats) = d /\ Forall P feats.
Proof.
  intros Hr.
  assert (Hd : 0 <= d).
  { destruct (reserve_cases allocate capacity d Doubles mem)
      as [[_ E] | [[H _] | [(H & _) | (_ & _ & _ & E)]]]; try lia; congruence. }
  unfold generatePoint. rewrite Hr.
  destruct (generatePoint_loop_spec (Z.to_nat d) [] gen) as (feats & gen' & -> & Hlen & HF).
  exists feats, gen'. repeat split; [lia | exact HF].
Qed.

Lemma generatePoints_loop_spec (d : Z) (test : bool) (n : nat) :
  0 <= d -> (test = false -> d <> INT_MAX) ->
  forall points gen mem, exists new gen' mem' status,
    generatePoints_loop dis cls allocate n points d test gen mem
      = (points ++ new, gen', mem', status) /\
    Forall (generated_row P Q d test) new /\
    (status = Generated /\ length new = n \/
     status = bad_alloc /\ (length new < n)%nat) /\
    (never_fails allocate -> status = Generated).
Proof.
  intros Hd Hmax. induction n as [|n IH]; intros points gen mem; cbn [generatePoints_loop].
  - exists [], gen, mem, Generated. rewrite app_nil_r.
    repeat split; [constructor | left; split; reflexivity].
  - assert (E1 : negb test && (d =? INT_MAX) = false).
    { destruct test; [reflexivity|]. specialize (Hmax eq_refl). simpl. lia. }
    rewrite E1. cbn zeta.
    assert (Hc : 0 <= d <= (if test then d else d + 1)) by (destruct test; lia).
    destruct (reserve_cases allocate 0 (if test then d else d + 1) Doubles mem)
      as [[H _] | [[_ E] | [(_ & _ & mem1 & _ & E) | (_ & _ & Ha & E)]]]; [lia | | |].
    3:{ rewrite E. exists [], gen, mem, bad_alloc. rewrite app_nil_r.
        repeat split; [constructor | right; split; [reflexivity | simpl; lia] |].
        intros Hnf. contradiction (Hnf _ _ Ha). }
    all: rewrite E;
      match goal with
      | |- context [generatePoint _ _ [] ?c ?d' ?g ?m] =>
          destruct (generatePoint_spec [] c d' g m m (reserve_within allocate c d' Doubles m Hc))
            as (feats & g1 & -> & Hlen & HF)
      end.
    all: destruct test.
    all: try (pose proof (cls_Q g1) as Hl; destruct (cls g1) as [l g2]).
    all: match goal with
         | |- context [generatePoints_loop _ _ _ _ (_ ++ [?row]) _ _ ?g ?m] =>
             destruct (IH (points ++ [row]) g m)
               as (new & gen' & mem' & status & -> & Hrows & Hst & Hnf);
             exists (row :: new), gen', mem', status
         end.
    all: rewrite <- app_assoc; split; [reflexivity|]; split;
      [constructor; [exists feats; repeat split; try assumption; eauto | exact Hrows]
      | split; [destruct Hst as [[-> Hn] | [-> Hn]];
                  [left; split; [reflexivity | simpl; f_equal; exact Hn]
                  | right; split; [reflexivity | simpl; lia]]
               | exact Hnf]].
Qed.

Lemma generatePoints_spec (points : Dataset) (capacity n d : Z) (test : bool)
    (gen : G) (mem : M) :
  0 <= capacity -> 0 <= n -> 0 <= d -> (test = false -> d <> INT_MAX) ->
  exists new gen' mem' status,
    generatePoints dis cls allocate points capacity n d test gen mem
      = (new, gen', mem', status) /\
    Forall (generated_row P Q d test) new /\
    (status = Generated /\ Z.of_nat (length new) = n \/
     status = bad_alloc /\ Z.of_nat (length new) < n) /\
    (never_fails allocate -> status = Generated).
Proof.
  intros Hcap Hn Hd Hmax. unfold generatePoints.
  destruct (reserve_cases allocate capacity n Vectors mem)
    as [[H _] | [[_ E] | [(_ & _ & mem1 & _ & E) | (_ & Hlt & Ha & E)]]]; [lia | | |].
  3:{ rewrite E. exists [], gen, mem, bad_alloc.
      repeat split; [constructor | right; split; [reflexivity | simpl; lia] |].
      intros Hnf. contradiction (Hnf _ _ Ha). }
  all: rewrite E;
    match goal with
    | |- context [generatePoints_loop _ _ _ _ [] _ _ _ ?m] =>
        destruct (generatePoints_loop_spec d test (Z.to_nat n) Hd Hmax [] gen m)
          as (new & gen' & mem' & status & -> & Hrows & Hst & Hnf)
    end.
  all: exists new, gen', mem', status; split; [reflexivity|]; split; [exact Hrows|];
    split; [destruct Hst as [[-> Hl] | [-> Hl]]; [left | right]; split; try reflexivity; lia
           | exact Hnf].
Qed.

(** X13: [generatePoint] empties [point] and reserves [d] components before
    it draws.  A negative [d] ends in [std::length_error]; a [d] above the
    capacity asks the allocator for [d] doubles and ends in
    [std::bad_alloc] when that is refused; in both cases [point] is left
    empty and nothing has been drawn.  Otherwise [point] holds exactly [d]
    components, each a draw of [dis], whatever it held before, and the
    allocator has been asked nothing when the capacity sufficed. *)
Theorem generatePoint_outcome (point : vec) (capacity d : Z) (gen : G) (mem : M) :
  (d < 0 ->
     generatePoint dis allocate point capacity d gen mem = ([], gen, mem, length_error)) /\
  (0 <= d -> capacity < d -> allocate mem (Doubles d) = None ->
     generatePoint dis allocate point capacity d gen mem = ([], gen, mem, bad_alloc)) /\
  (forall mem',
     0 <= d <= capacity /\ mem' = mem \/
     0 <= d /\ capacity < d /\ allocate mem (Doubles d) = Some mem' ->
     exists feats gen',
       generatePoint dis allocate point capacity d gen mem = (feats, gen', mem', Generated) /\
       Z.of_nat (length feats) = d /\ Forall P feats /\
       generatePoint dis allocate [] capacity d gen mem = (feats, gen', mem', Generated)).
Proof.
  destruct (reserve_cases allocate capacity d Doubles mem)
    as [[H E] | [[H E] | [(H1 & H2 & mem1 & Ha & E) | (H1 & H2 & Ha & E)]]].
  - split; [intros _; unfold generatePoint; rewrite E; reflexivity|].
    split; [intros; lia | intros mem' [[? _] | [? _]]; lia].
  - split; [intros; lia|]. split; [intros; lia|].
    intros mem' [[_ ->] | (_ & ? & _)]; [|lia].
    destruct (generatePoint_spec point capacity d gen mem mem E) as (feats & gen' & Ep & Hl & HF).
    exists feats, gen'. repeat split; assumption.
  - split; [intros; lia|]. split; [intros; congruence|].
    intros mem' [[? _] | (_ & _ & Ha')]; [lia|].
    assert (mem' = mem1) by congruence. subst mem'.
    destruct (generatePoint_spec point capacity d gen mem mem1 E) as (feats & gen' & Ep & Hl & HF).
    exists feats, gen'. repeat split; assumption.
  - split; [intros; lia|].
    split; [intros _ _ _; unfold generatePoint; rewrite E; reflexivity|].
    intros mem' [[? _] | (_ & _ & Ha')]; [lia | congruence].
Qed.

(** X14: called with [0 <= n] and [0 <= d] ([d < INT_MAX] for training
    data), [generatePoints] ends normally or in [std::bad_alloc], and
    normally when no allocation is refused.  The rows it leaves in [points]
    are of [d] features, each a draw of [dis], and for training data a label
    at index [d], the double of a draw of [cls]: [n] rows when it ends
    normally, fewer when an allocation was refused. *)
Theorem generatePoints_shape (points : Dataset) (capacity n d : Z) (test : bool)
    (gen : G) (mem : M) :
  0 <= capacity -> 0 <= n <= INT_MAX -> 0 <= d <= INT_MAX -> (test = false -> d < INT_MAX) ->
  exists new gen' mem' status,
    generatePoints dis cls allocate points capacity n d test gen mem
      = (new, gen', mem', status) /\
    Forall (generated_row P Q d test) new /\
    Forall (fun row : vec => Z.of_nat (length row) = if test then d else d + 1) new /\
    (status = Generated /\ Z.of_nat (length new) = n \/
     status = bad_alloc /\ Z.of_nat (length new) < n) /\
    (never_fails allocate -> status = Generated).
Proof.
  intros Hcap Hn Hd Hmax.
  destruct (generatePoints_spec points capacity n d test gen mem)
    as (new & gen' & mem' & status & E & HF & Hst & Hnf);
    [lia | lia | lia | intros Ht; specialize (Hmax Ht); lia|].
  exists new, gen', mem', status. repeat split; try assumption.
  eapply Forall_impl; [exact HF|]. intros row (feats & Hf & _ & Hrow).
  destruct test; [subst row; exact Hf|].
  destruct Hrow as (c & _ & ->). rewrite length_app. simpl. lia.
Qed.
End GeneratorProperties.

Lemma generatePoint_outcome_witness :
  (-1 < 0 ->
     generatePoint example_dis example_allocate [7%float] 1 (-1) 0%nat 0%nat
     = ([], 0%nat, 0%nat, length_error)) /\
  (0 <= -1 -> 1 < -1 -> example_allocate 0%nat (Doubles (-1)) = None ->
     generatePoint example_dis example_allocate [7%float] 1 (-1) 0%nat 0%nat
     = ([], 0%nat, 0%nat, bad_alloc)) /\
  (forall mem',
     0 <= -1 <= 1 /\ mem' = 0%nat \/
     0 <= -1 /\ 1 < -1 /\ example_allocate 0%nat (Doubles (-1)) = Some mem' ->
     exists feats gen',
       generatePoint example_dis example_allocate [7%float] 1 (-1) 0%nat 0%nat
       = (feats, gen', mem', Generated) /\
       Z.of_nat (length feats) = -1 /\
       Forall (fun x => x = 0.5%float \/ x = 0.25%float) feats /\
       generatePoint example_dis example_allocate [] 1 (-1) 0%nat 0%nat
       = (feats, gen', mem', Generated)).
Proof.
  apply (generatePoint_outcome example_dis example_allocate
           (fun x => x = 0.5%float \/ x = 0.25%float)).
  intros g. unfold example_dis. simpl. destruct (Nat.even g); auto.
Defined.

Lemma generatePoints_shape_witness :
  exists new gen' mem' status,
    generatePoints example_dis example_cls example_allocate [] 0 2 2 false 0%nat 0%nat
      = (new, gen', mem', status) /\
    Forall (generated_row (fun x => x = 0.5%float \/ x = 0.25%float)
              (fun c => c = 0 \/ c = 1) 2 false) new /\
    Forall (fun row : vec => Z.of_nat (length row) = if false then 2 else 2 + 1) new /\
    (status = Generated /\ Z.of_nat (length new) = 2 \/
     status = bad_alloc /\ Z.of_nat (length new) < 2) /\
    (never_fails example_allocate -> status = Generated).
Proof.
  apply (generatePoints_shape example_dis example_cls example_allocate
           (fun x => x = 0.5%float \/ x = 0.25%float) (fun c => c = 0 \/ c = 1)).
  - intros g. unfold example_dis. simpl. destruct (Nat.even g); auto.
  - intros g. unfold example_cls. simpl. destruct (Nat.even g); auto.
  - lia.
  - unfold INT_MAX. lia.
  - unfold INT_MAX. lia.
  - intros _. unfold INT_MAX. lia.
Defined.

Lemma draws_True {G A : Type} (f : G -> A * G) : forall g, (fun _ : A => True) (f g).1.
Proof. intros g. exact I. Qed.

Lemma generatePoints_loop_first {G M : Type} (dis : G -> double * G) (cls : G -> Z * G)
    (allocate : M -> request -> option M)
    (n : nat) (points : Dataset) (d : Z) (test : bool) (gen : G) (mem : M) :
  (d < 0 /\
     generatePoints_loop dis cls allocate (S n) points d test gen mem
     = (points, gen, mem, length_error)) \/
  (test = false /\ d = INT_MAX /\
     generatePoints_loop dis cls allocate (S n) points d test gen mem
     = (points, gen, mem, int_overflow)) \/
  (0 <= d /\ (test = false -> d <> INT_MAX)).
Proof.
  assert (Hmax : INT_MAX = 2147483647) by reflexivity.
  destruct (negb test && (d =? INT_MAX)) eqn:E1.
  { right. left. destruct test; [discriminate|]. simpl in E1.
    repeat split; [lia|]. cbn [generatePoints_loop]. simpl negb. cbn [andb].
    destruct (d =? INT_MAX); [reflexivity | discriminate]. }
  destruct (Z_lt_le_dec d 0) as [Hd|Hd].
  - left. split; [exact Hd|]. cbn [generatePoints_loop]. rewrite E1. cbn zeta.
    destruct (reserve_cases allocate 0 (if test then d else d + 1) Doubles mem)
      as [[_ E] | [[Hc E] | [(_ & Hc & _) | (_ & Hc & _)]]];
      [rewrite E; reflexivity | | destruct test; lia | destruct test; lia].
    rewrite E. unfold generatePoint.
    destruct (reserve_cases allocate (if test then d else d + 1) d Doubles mem)
      as [[_ E'] | [[Hc' _] | [(Hc' & _) | (Hc' & _)]]]; try lia.
    rewrite E'. reflexivity.
  - right. right. split; [exact Hd|]. intros ->. simpl in E1. lia.
Qed.

Lemma generatePoints_cases {G M : Type} (dis : G -> double * G) (cls : G -> Z * G)
    (allocate : M -> request -> option M)
    (points : Dataset) (capacity n d : Z) (test : bool) (gen : G) (mem : M) :
  (n < 0 /\
     generatePoints dis cls allocate points capacity n d test gen mem
     = ([], gen, mem, length_error)) \/
  (0 <= n /\ reserve allocate capacity n Vectors mem = (mem, bad_alloc) /\
     generatePoints dis cls allocate points capacity n d test gen mem
     = ([], gen, mem, bad_alloc)) \/
  (exists mem1,
     0 <= n /\ reserve allocate capacity n Vectors mem = (mem1, Generated) /\
     ((n = 0 /\
         generatePoints dis cls allocate points capacity n d test gen mem
         = ([], gen, mem1, Generated)) \/
      (0 < n /\ d < 0 /\
         generatePoints dis cls allocate points capacity n d test gen mem
         = ([], gen, mem1, length_error)) \/
      (0 < n /\ test = false /\ d = INT_MAX /\
         generatePoints dis cls allocate points capacity n d test gen mem
         = ([], gen, mem1, int_overflow)) \/
      (0 < n /\ 0 <= d /\ (test = false -> d <> INT_MAX) /\
         exists new gen' mem' status,
           generatePoints dis cls allocate points capacity n d test gen mem
           = (new, gen', mem', status) /\
           (status = Generated /\ Z.of_nat (length new) = n \/
            status = bad_alloc /\ Z.of_nat (length new) < n) /\
           (never_fails allocate -> status = Generated)))).
Proof.
  assert (Hsub : forall mem1,
            0 <= n -> reserve allocate capacity n Vectors mem = (mem1, Generated) ->
            (n = 0 /\
               generatePoints dis cls allocate points capacity n d test gen mem
               = ([], gen, mem1, Generated)) \/
            (0 < n /\ d < 0 /\
               generatePoints dis cls allocate points capacity n d test gen mem
               = ([], gen, mem1, length_error)) \/
            (0 < n /\ test = false /\ d = INT_MAX /\
               generatePoints dis cls allocate points capacity n d test gen mem
               = ([], gen, mem1, int_overflow)) \/
            (0 < n /\ 0 <= d /\ (test = false -> d <> INT_MAX) /\
               exists new gen' mem' status,
                 generatePoints dis cls allocate points capacity n d test gen mem
                 = (new, gen', mem', status) /\
                 (status = Generated /\ Z.of_nat (length new) = n \/
                  status = bad_alloc /\ Z.of_nat (length new) < n) /\
                 (never_fails allocate -> status = Generated))).
  { intros mem1 Hn E. unfold generatePoints. rewrite E.
    destruct (Z.eq_dec n 0) as [->|Hn0]; [left; split; reflexivity|].
    destruct (Z.to_nat n) as [|m] eqn:Em; [lia|].
    destruct (generatePoints_loop_first dis cls allocate m [] d test gen mem1)
      as [[Hd ->] | [(Ht & Hd & ->) | [Hd Hm]]].
    - right. left. repeat split; [lia | exact Hd].
    - right. right. left. repeat split; [lia | exact Ht | exact Hd].
    - right. right. right. repeat split; [lia | exact Hd | exact Hm|].
      destruct (generatePoints_loop_spec dis cls allocate (fun _ => True) (fun _ => True)
                  (draws_True dis) (draws_True cls) d test (S m) Hd Hm [] gen mem1)
        as (new & gen' & mem' & status & -> & _ & Hst & Hnf).
      exists new, gen', mem', status. split; [reflexivity|]. split; [|exact Hnf].
      destruct Hst as [[-> Hl] | [-> Hl]]; [left | right]; split; try reflexivity; lia. }
  destruct (reserve_cases allocate capacity n Vectors mem)
    as [[H E] | [[H E] | [(H & _ & mem1 & _ & E) | (H & _ & _ & E)]]].
  - left. split; [exact H|]. unfold generatePoints. rewrite E. reflexivity.
  - right. right. exists mem. split; [lia|]. split; [exact E|]. apply Hsub; [lia | exact E].
  - right. right. exists mem1. split; [lia|]. split; [exact E|]. apply Hsub; [lia | exact E].
  - right. left. split; [exact H|]. split; [exact E|].
    unfold generatePoints. rewrite E. reflexivity.
Qed.

(** X15: how [generatePoints] ends.  A negative [n] ends in
    [std::length_error] before anything is allocated.  Otherwise
    [points.reserve(n)] comes first: when its allocation is refused the call
    ends in [std::bad_alloc].  Once the reserve has succeeded, and not
    before, a positive [n] with a negative [d] ends in [std::length_error],
    and training data with a positive [n] and [d = INT_MAX] in the overflow
    of [d + 1]; in both cases no point has been generated and no number
    drawn.  With [n = 0] nothing more is checked and nothing generated. *)
Theorem generatePoints_outcome {G M : Type} (dis : G -> double * G) (cls : G -> Z * G)
    (allocate : M -> request -> option M)
    (points : Dataset) (capacity n d : Z) (test : bool) (gen : G) (mem : M) :
  ((generatePoints dis cls allocate points capacity n d test gen mem).2 = length_error <->
     n < 0 \/
     (0 < n /\ d < 0 /\ (reserve allocate capacity n Vectors mem).2 = Generated)) /\
  ((generatePoints dis cls allocate points capacity n d test gen mem).2 = int_overflow <->
     0 < n /\ test = false /\ d = INT_MAX /\
     (reserve allocate capacity n Vectors mem).2 = Generated) /\
  ((reserve allocate capacity n Vectors mem).2 = bad_alloc ->
     generatePoints dis cls allocate points capacity n d test gen mem
     = ([], gen, mem, bad_alloc)) /\
  ((generatePoints dis cls allocate points capacity n d test gen mem).2 = length_error \/
   (generatePoints dis cls allocate points capacity n d test gen mem).2 = int_overflow ->
     generatePoints dis cls allocate points capacity n d test gen mem
     = ([], gen, (reserve allocate capacity n Vectors mem).1,
        (generatePoints dis cls allocate points capacity n d test gen mem).2)) /\
  (n = 0 ->
     generatePoints dis cls allocate points capacity n d test gen mem
     = ([], gen, (reserve allocate capacity n Vectors mem).1,
        (reserve allocate capacity n Vectors mem).2)).
Proof.
  assert (Hmax : INT_MAX = 2147483647) by reflexivity.
  assert (Hneg : n < 0 -> reserve allocate capacity n Vectors mem = (mem, length_error)).
  { intros H. unfold reserve. destruct (n <? 0) eqn:E; [reflexivity | lia]. }
  destruct (generatePoints_cases dis cls allocate points capacity n d test gen mem)
    as [[Hn E] | [(Hn & Er & E) | (mem1 & Hn & Er & [(Hc & E) | [(Hc & Hd & E) |
         [(Hc & Ht & Hd & E) | (Hc & Hd & Hm & new & gen' & mem' & status & E & Hst & _)]]])]];
    rewrite E; try rewrite Er; try rewrite (Hneg Hn); cbn [fst snd].
  - split; [split; [intros _; left; exact Hn | reflexivity]|].
    split; [split; [discriminate | intros (H & _); lia]|].
    split; [discriminate|]. split; [reflexivity | intros; lia].
  - split; [split; [discriminate | intros [H | (_ & _ & H)]; [lia | discriminate]]|].
    split; [split; [discriminate | intros (_ & _ & _ & H); discriminate]|].
    split; [reflexivity|]. split; [intros [H | H]; discriminate | reflexivity].
  - split; [split; [discriminate | intros [H | (H & _)]; lia]|].
    split; [split; [discriminate | intros (H & _); lia]|].
    split; [discriminate|]. split; [intros [H | H]; discriminate | reflexivity].
  - split; [split; [intros _; right; repeat split; assumption | reflexivity]|].
    split; [split; [discriminate | intros (_ & _ & H & _); lia]|].
    split; [discriminate|]. split; [reflexivity | intros; lia].
  - split; [split; [discriminate | intros [H | (_ & H & _)]; lia]|].
    split; [split; [intros _; repeat split; assumption | reflexivity]|].
    split; [discriminate|]. split; [reflexivity | intros; lia].
  - assert (Hs : status <> length_error /\ status <> int_overflow)
      by (destruct Hst as [[-> _] | [-> _]]; split; discriminate).
    destruct Hs as [Hs1 Hs2].
    split; [split; [intros H; contradiction | intros [H | (_ & H & _)]; lia]|].
    split; [split; [intros H; contradiction
                   | intros (_ & H1 & H2 & _); contradiction (Hm H1 H2)]|].
    split; [discriminate|]. split; [intros [H | H]; contradiction | intros; lia].
Qed.

Lemma generatePoints_loop_test {G M : Type} (dis : G -> double * G) (cls cls' : G -> Z * G)
    (allocate : M -> request -> option M) (d : Z) (n : nat) :
  forall points gen mem,
    generatePoints_loop dis cls allocate n points d true gen mem
    = generatePoints_loop dis cls' allocate n points d true gen mem.
Proof.
  induction n as [|n IH]; intros points gen mem; cbn [generatePoints_loop]; [reflexivity|].
  cbn [negb andb]. cbn zeta.
  destruct (reserve allocate 0 d Doubles mem) as [mem1 [| | |]]; try reflexivity.
  destruct (generatePoint dis allocate [] d d gen mem1) as [[[temp g1] mem2] [| | |]];
    try reflexivity.
  apply IH.
Qed.

(** X16: test data carry no label: with [test] set, [generatePoints] never
    draws from [cls], and what the vector held before the call is
    discarded. *)
Theorem generatePoints_test_draws_no_label {G M : Type}
    (dis : G -> double * G) (cls cls' : G -> Z * G) (allocate : M -> request -> option M)
    (points points' : Dataset) (capacity n d : Z) (gen : G) (mem : M) :
  generatePoints dis cls allocate points capacity n d true gen mem
  = generatePoints dis cls' allocate points' capacity n d true gen mem.
Proof.
  unfold generatePoints.
  destruct (reserve allocate capacity n Vectors mem) as [mem1 [| | |]]; try reflexivity.
  apply generatePoints_loop_test.
Qed.

Lemma generatePoints_loop_from {G M : Type} (dis : G -> double * G) (cls : G -> Z * G)
    (allocate : M -> request -> option M) (d : Z) (test : bool) (n : nat) :
  forall points gen mem,
    generatePoints_loop dis cls allocate n points d test gen mem
    = let '(new, gen', mem', status) :=
        generatePoints_loop dis cls allocate n [] d test gen mem in
      (points ++ new, gen', mem', status).
Proof.
  induction n as [|n IH]; intros points gen mem; cbn [generatePoints_loop].
  { rewrite app_nil_r. reflexivity. }
  destruct (negb test && (d =? INT_MAX)); [rewrite app_nil_r; reflexivity|]. cbn zeta.
  destruct (reserve allocate 0 (if test then d else d + 1) Doubles mem) as [mem1 [| | |]];
    try (rewrite app_nil_r; reflexivity).
  destruct (generatePoint dis allocate [] (if test then d else d + 1) d gen mem1)
    as [[[temp g1] mem2] [| | |]]; try (rewrite app_nil_r; reflexivity).
  destruct (if test then (temp, g1)
            else let '(l, g) := cls g1 in (temp ++ [static_cast_double l], g))
    as [temp' g2].
  rewrite (IH (points ++ [temp']) g2 mem2), (IH ([] ++ [temp']) g2 mem2).
  destruct (generatePoints_loop dis cls allocate n [] d test g2 mem2)
    as [[[new gen'] mem'] status].
  rewrite <- app_assoc. reflexivity.
Qed.

Lemma generatePoints_loop_add {G M : Type} (dis : G -> double * G) (cls : G -> Z * G)
    (allocate : M -> request -> option M) (d : Z) (test : bool) (n m : nat) :
  forall points gen mem,
    generatePoints_loop dis cls allocate (n + m) points d test gen mem
    = match generatePoints_loop dis cls allocate n points d test gen mem with
      | (points', gen', mem', Generated) =>
          generatePoints_loop dis cls allocate m points' d test gen' mem'
      | r => r
      end.
Proof.
  induction n as [|n IH]; intros points gen mem; [reflexivity|].
  cbn [Nat.add generatePoints_loop].
  destruct (negb test && (d =? INT_MAX)); [reflexivity|]. cbn zeta.
  destruct (reserve allocate 0 (if test then d else d + 1) Doubles mem) as [mem1 [| | |]];
    try reflexivity.
  destruct (generatePoint dis allocate [] (if test then d else d + 1) d gen mem1)
    as [[[temp g1] mem2] [| | |]]; try reflexivity.
  destruct (if test then (temp, g1)
            else let '(l, g) := cls g1 in (temp ++ [static_cast_double l], g))
    as [temp' g2].
  apply IH.
Qed.

(** When no allocation is refused, the rows and the generator do not depend
    on the allocator's state. *)
Lemma generatePoints_loop_mem {G M : Type} (dis : G -> double * G) (cls : G -> Z * G)
    (allocate : M -> request -> option M) (d : Z) (test : bool) (n : nat) :
  never_fails allocate -> 0 <= d -> (test = false -> d <> INT_MAX) ->
  forall points gen mem1 mem2, exists new gen' mem1' mem2',
    generatePoints_loop dis cls allocate n points d test gen mem1
      = (new, gen', mem1', Generated) /\
    generatePoints_loop dis cls allocate n points d test gen mem2
      = (new, gen', mem2', Generated).
Proof.
  intros Hnf Hd Hmax. induction n as [|n IH]; intros points gen mem1 mem2;
    cbn [generatePoints_loop].
  { exists points, gen, mem1, mem2. split; reflexivity. }
  assert (E1 : negb test && (d =? INT_MAX) = false).
  { destruct test; [reflexivity|]. specialize (Hmax eq_refl). simpl. lia. }
  rewrite E1. cbn zeta.
  assert (Hc : 0 <= d <= (if test then d else d + 1)) by (destruct test; lia).
  destruct (reserve_never_fails allocate 0 (if test then d else d + 1) Doubles mem1 Hnf)
    as [m1 ->]; [lia|].
  destruct (reserve_never_fails allocate 0 (if test then d else d + 1) Doubles mem2 Hnf)
    as [m2 ->]; [lia|].
  unfold generatePoint. rewrite !reserve_within by exact Hc.
  destruct (generatePoint_loop dis (Z.to_nat d) [] gen) as [temp g1].
  destruct (if test then (temp, g1)
            else let '(l, g) := cls g1 in (temp ++ [static_cast_double l], g))
    as [temp' g2].
  apply IH.
Qed.

Lemma generatePoints_mem {G M : Type} (dis : G -> double * G) (cls : G -> Z * G)
    (allocate : M -> request -> option M) (n d : Z) (test : bool) (gen : G) :
  never_fails allocate -> 0 <= n -> 0 <= d -> (test = false -> d <> INT_MAX) ->
  forall mem0 : M, exists new gen',
    Z.of_nat (length new) = n /\
    forall points capacity mem, exists mem',
      generatePoints dis cls allocate points capacity n d test gen mem
      = (new, gen', mem', Generated).
Proof.
  intros Hnf Hn Hd Hmax mem0.
  destruct (generatePoints_loop_spec dis cls allocate (fun _ => True) (fun _ => True)
              (draws_True dis) (draws_True cls) d test (Z.to_nat n) Hd Hmax [] gen mem0)
    as (new & gen' & mem0' & status & E & _ & Hst & Hs).
  rewrite (Hs Hnf) in *. destruct Hst as [[_ Hl] | [H _]]; [|discriminate].
  exists new, gen'. split; [lia|].
  intros points capacity mem. unfold generatePoints.
  destruct (reserve_never_fails allocate capacity n Vectors mem Hnf Hn) as [m1 ->].
  destruct (generatePoints_loop_mem dis cls allocate d test (Z.to_nat n) Hnf Hd Hmax
              [] gen mem0 m1) as (new' & gen'' & a & b & E0 & E1).
  rewrite E in E0. cbn [app] in E0. injection E0 as <- <- <-.
  exists b. exact E1.
Qed.

(** X17: when no allocation is refused, generating [n + m] points is
    generating [n] points and then [m] more from the state the generator is
    left in, whatever the state of the allocator: the first [n] rows do not
    depend on how many follow. *)
Theorem generatePoints_more {G M : Type} (dis : G -> double * G) (cls : G -> Z * G)
    (allocate : M -> request -> option M) (n m d : Z) (test : bool) (gen : G) (mem0 : M) :
  never_fails allocate ->
  0 <= n -> 0 <= m -> n + m <= INT_MAX -> 0 <= d <= INT_MAX -> (test = false -> d < INT_MAX) ->
  exists first gen1 rest gen2,
    Z.of_nat (length first) = n /\ Z.of_nat (length rest) = m /\
    (forall points capacity mem, exists mem',
       generatePoints dis cls allocate points capacity n d test gen mem
       = (first, gen1, mem', Generated)) /\
    (forall points capacity mem, exists mem',
       generatePoints dis cls allocate points capacity m d test gen1 mem
       = (rest, gen2, mem', Generated)) /\
    (forall points capacity mem, exists mem',
       generatePoints dis cls allocate points capacity (n + m) d test gen mem
       = (first ++ rest, gen2, mem', Generated)).
Proof.
  intros Hnf Hn Hm Hnm Hd Hmax'.
  assert (Hmax : test = false -> d <> INT_MAX) by (intros Ht; specialize (Hmax' Ht); lia).
  destruct (generatePoints_mem dis cls allocate n d test gen Hnf Hn (proj1 Hd) Hmax mem0)
    as (first & gen1 & L1 & E1).
  destruct (generatePoints_mem dis cls allocate m d test gen1 Hnf Hm (proj1 Hd) Hmax mem0)
    as (rest & gen2 & L2 & E2).
  exists first, gen1, rest, gen2. split; [exact L1|]. split; [exact L2|].
  split; [exact E1|]. split; [exact E2|].
  intros points capacity mem.
  destruct (E1 points capacity mem) as [ma Ea]. unfold generatePoints in Ea |- *.
  destruct (reserve_never_fails allocate capacity n Vectors mem Hnf Hn) as [mn En].
  destruct (reserve_never_fails allocate capacity (n + m) Vectors mem Hnf) as [mnm ->]; [lia|].
  rewrite En in Ea. rewrite Z2Nat.inj_add by lia. rewrite generatePoints_loop_add.
  destruct (generatePoints_loop_mem dis cls allocate d test (Z.to_nat n) Hnf (proj1 Hd) Hmax
              [] gen mn mnm) as (new & g & a & b & Ha & ->).
  rewrite Ea in Ha. injection Ha as <- <- <-.
  rewrite generatePoints_loop_from.
  destruct (E2 [] 0 b) as [mb Eb]. unfold generatePoints in Eb.
  destruct (reserve_never_fails allocate 0 m Vectors b Hnf Hm) as [mm Em].
  rewrite Em in Eb.
  destruct (generatePoints_loop_mem dis cls allocate d test (Z.to_nat m) Hnf (proj1 Hd) Hmax
              [] gen1 mm b) as (new & g & c & e & Hc & ->).
  rewrite Eb in Hc. injection Hc as <- <- <-.
  exists e. reflexivity.
Qed.

Lemma example_allocate_never_fails : never_fails example_allocate.
Proof. intros mem r. discriminate. Qed.

Lemma generatePoints_more_witness :
  exists first gen1 rest gen2,
    Z.of_nat (length first) = 1 /\ Z.of_nat (length rest) = 2 /\
    (forall points capacity mem, exists mem',
       generatePoints example_dis example_cls example_allocate points capacity 1 2 false
         0%nat mem
       = (first, gen1, mem', Generated)) /\
    (forall points capacity mem, exists mem',
       generatePoints example_dis example_cls example_allocate points capacity 2 2 false
         gen1 mem
       = (rest, gen2, mem', Generated)) /\
    (forall points capacity mem, exists mem',
       generatePoints example_dis example_cls example_allocate points capacity (1 + 2) 2 false
         0%nat mem
       = (first ++ rest, gen2, mem', Generated)).
Proof.
  apply (generatePoints_more example_dis example_cls example_allocate 1 2 2 false 0%nat 0%nat).
  - exact example_allocate_never_fails.
  - lia.
  - lia.
  - unfold INT_MAX. lia.
  - unfold INT_MAX. lia.
  - intros _. unfold INT_MAX. lia.
Defined.

(** ** The program as a whole *)

Lemma generated_train_labels (P : double -> Prop) (d : Z) (train : Dataset) :
  Forall (generated_row P (fun c => c = 0 \/ c = 1) d false) train ->
  binary_labels train d /\ Forall (fun row : vec => Z.of_nat (length row) = d + 1) train.
Proof.
  intros HF. split; (eapply Forall_impl; [exact HF|]);
    intros row (feats & Hlen & _ & c & Hc & ->).
  - exists (static_cast_double c). split.
    + replace (Z.to_nat d) with (length feats) by lia.
      apply list_lookup_middle. reflexivity.
    + destruct Hc as [-> | ->]; [left | right]; reflexivity.
  - rewrite length_app. simpl. lia.
Qed.

Lemma generated_test_length (P : double -> Prop) (Q : Z -> Prop) (d : Z) (test : Dataset) :
  Forall (generated_row P Q d true) test ->
  Forall (fun row : vec => Z.of_nat (length row) = d) test.
Proof.
  intros HF. eapply Forall_impl; [exact HF|]. intros row (feats & Hlen & _ & ->). exact Hlen.
Qed.

Lemma predictOne_batch (train tests : Dataset) (k d : Z) :
  0 < k -> k <= Z.of_nat (length train) -> fits_int (length train) ->
  Forall (fun p => well_formed train p d) tests -> binary_labels train d ->
  exists labels,
    Forall2 (fun p l => predictOne train p k d = Ok l) tests labels /\
    Forall (fun l => l = 0 \/ l = 1) labels.
Proof.
  intros Hk Hn Hfit Hwf Hb.
  induction Hwf as [|p tests Hp Hwf (labels & IH1 & IH2)]; [exists []; split; constructor|].
  destruct (predictOne_ok train p k d Hk Hn Hfit Hp Hb) as (cls & Hc & Hcls).
  exists (cls :: labels). split; constructor; assumption.
Qed.

Lemma generatePoints_Generated {G M : Type} (dis : G -> double * G) (cls : G -> Z * G)
    (allocate : M -> request -> option M) (P : double -> Prop) (Q : Z -> Prop)
    (points : Dataset) (n d : Z) (test : bool) (gen : G) (mem : M) :
  (forall g, P (dis g).1) -> (forall g, Q (cls g).1) ->
  never_fails allocate -> 0 <= n -> 0 <= d -> (test = false -> d <> INT_MAX) ->
  exists new gen' mem',
    generatePoints dis cls allocate points 0 n d test gen mem = (new, gen', mem', Generated) /\
    Z.of_nat (length new) = n /\ Forall (generated_row P Q d test) new.
Proof.
  intros HP HQ Hnf Hn Hd Hmax.
  destruct (generatePoints_spec dis cls allocate P Q HP HQ points 0 n d test gen mem)
    as (new & gen' & mem' & status & E & HF & Hst & Hs); [lia | lia | lia | exact Hmax|].
  rewrite (Hs Hnf) in *. destruct Hst as [[_ Hl] | [H _]]; [|discriminate].
  exists new, gen', mem'. repeat split; assumption.
Qed.

(** X18: run on [0 < k <= n_train], [0 <= n_test] and [0 <= d < INT_MAX],
    with labels drawn from 0 and 1 and no allocation refused, [main]
    returns 0: it has generated [n_train] training points of [d] features
    and a 0/1 label and [n_test] test points of [d] features, and prints
    the training points as they are and each test point with the label
    [predictOne] gives it, 0 or 1, appended. *)
Theorem main_valid {G M : Type} (dis : G -> double * G) (cls : G -> Z * G)
    (allocate : M -> request -> option M)
    (n_train d n_test k : Z) (gen_train gen_test : G) (mem : M) :
  (forall g, (cls g).1 = 0 \/ (cls g).1 = 1) -> never_fails allocate ->
  0 < k -> k <= n_train -> n_train <= INT_MAX -> 0 <= n_test <= INT_MAX ->
  0 <= d < INT_MAX ->
  exists train gen1 mem1 test gen2 mem2 labels,
    generatePoints dis cls allocate [] 0 n_train d false gen_train mem
      = (train, gen1, mem1, Generated) /\
    generatePoints dis cls allocate [] 0 n_test d true gen_test mem1
      = (test, gen2, mem2, Generated) /\
    main dis cls allocate n_train d n_test k gen_train gen_test mem
    = Returns 0 train (zip_with (fun p l => p ++ [static_cast_double l]) test labels) /\
    Z.of_nat (length train) = n_train /\ Z.of_nat (length test) = n_test /\
    Forall (fun row : vec => Z.of_nat (length row) = d + 1) train /\
    Forall (fun row : vec => Z.of_nat (length row) = d) test /\
    binary_labels train d /\
    Forall2 (fun p l => predictOne train p k d = Ok l) test labels /\
    Forall (fun l => l = 0 \/ l = 1) labels.
Proof.
  intros Hcls Hnf Hk Hn Hfit Hnt Hd.
  destruct (generatePoints_Generated dis cls allocate (fun _ => True) (fun c => c = 0 \/ c = 1)
              [] n_train d false gen_train mem (draws_True dis) Hcls Hnf)
    as (train & g1 & mem1 & E1 & L1 & R1); [lia | lia | intros _; lia|].
  destruct (generatePoints_Generated dis cls allocate (fun _ => True) (fun _ => True)
              [] n_test d true gen_test mem1 (draws_True dis) (draws_True cls) Hnf)
    as (test & g2 & mem2 & E2 & L2 & R2); [lia | lia | discriminate|].
  destruct (generated_train_labels _ d train R1) as [Hb Hlen1].
  pose proof (generated_test_length _ _ d test R2) as Hlen2.
  destruct (predictOne_batch train test k d) as (labels & HF & Hl);
    [lia | lia | unfold fits_int; lia | | exact Hb |].
  { eapply Forall_impl; [exact Hlen2|]. intros p Hp. repeat split; [lia | simpl in Hp; lia|].
    eapply Forall_impl; [exact Hlen1|]. simpl. intros row Hrow. lia. }
  exists train, g1, mem1, test, g2, mem2, labels. unfold main. rewrite E1, E2.
  rewrite (findKNN_all_Ok train k d test labels HF).
  repeat split; assumption.
Qed.

Lemma main_valid_witness :
  exists train gen1 mem1 test gen2 mem2 labels,
    generatePoints example_dis example_cls example_allocate [] 0 3 2 false 0%nat 0%nat
      = (train, gen1, mem1, Generated) /\
    generatePoints example_dis example_cls example_allocate [] 0 2 2 true 1%nat mem1
      = (test, gen2, mem2, Generated) /\
    main example_dis example_cls example_allocate 3 2 2 1 0%nat 1%nat 0%nat
    = Returns 0 train (zip_with (fun p l => p ++ [static_cast_double l]) test labels) /\
    Z.of_nat (length train) = 3 /\ Z.of_nat (length test) = 2 /\
    Forall (fun row : vec => Z.of_nat (length row) = 2 + 1) train /\
    Forall (fun row : vec => Z.of_nat (length row) = 2) test /\
    binary_labels train 2 /\
    Forall2 (fun p l => predictOne train p 1 2 = Ok l) test labels /\
    Forall (fun l => l = 0 \/ l = 1) labels.
Proof.
  apply (main_valid example_dis example_cls example_allocate 3 2 2 1 0%nat 1%nat 0%nat).
  - intros g. unfold example_cls. simpl. destruct (Nat.even g); auto.
  - exact example_allocate_never_fails.
  - lia.
  - lia.
  - unfold INT_MAX. lia.
  - unfold INT_MAX. lia.
  - unfold INT_MAX. lia.
Defined.

Lemma generatePoints_first_row {G M : Type} (dis : G -> double * G) (cls : G -> Z * G)
    (allocate : M -> request -> option M)
    (points : Dataset) (capacity n d : Z) (test : bool) (gen : G) (mem mem1 : M) :
  reserve allocate capacity n Vectors mem = (mem1, Generated) -> 0 < n ->
  (d < 0 ->
     generatePoints dis cls allocate points capacity n d test gen mem
     = ([], gen, mem1, length_error)) /\
  (test = false -> d = INT_MAX ->
     generatePoints dis cls allocate points capacity n d test gen mem
     = ([], gen, mem1, int_overflow)).
Proof.
  assert (Hmax : INT_MAX = 2147483647) by reflexivity.
  intros Er Hn. unfold generatePoints. rewrite Er.
  destruct (Z.to_nat n) as [|m] eqn:Em; [lia|].
  destruct (generatePoints_loop_first dis cls allocate m [] d test gen mem1)
    as [[Hd ->] | [(Ht & Hd & ->) | [Hd Hm]]].
  - split; [reflexivity | intros; lia].
  - split; [intros; lia | reflexivity].
  - split; [intros; lia | intros Ht Hd'; contradiction (Hm Ht Hd')].
Qed.

Lemma generatePoints_not_refused {G M : Type} (dis : G -> double * G) (cls : G -> Z * G)
    (allocate : M -> request -> option M)
    (points : Dataset) (capacity n d : Z) (test : bool) (gen : G) (mem : M) :
  never_fails allocate ->
  (generatePoints dis cls allocate points capacity n d test gen mem).2 <> bad_alloc.
Proof.
  intros Hnf.
  destruct (generatePoints_cases dis cls allocate points capacity n d test gen mem)
    as [[_ ->] | [(Hn & Er & _) | (mem1 & _ & _ & [(_ & ->) | [(_ & _ & ->) |
         [(_ & _ & _ & ->) | (_ & _ & _ & new & gen' & mem' & status & -> & _ & Hs)]]])]];
    cbn [snd]; try discriminate.
  - destruct (reserve_never_fails allocate capacity n Vectors mem Hnf Hn) as [m E].
    congruence.
  - rewrite (Hs Hnf). discriminate.
Qed.

(** X19: how [main] fails.  A negative [n_train] ends it with an uncaught
    [std::length_error]; a refused allocation of the training vector with
    an uncaught [std::bad_alloc]; once that allocation is granted, a
    negative [d] ends it with an uncaught [std::length_error] and
    [d = INT_MAX] is an overflow of [d + 1].  When no allocation is refused
    [main] does not end in [std::bad_alloc]; a negative [n_test] then ends
    it with an uncaught [std::length_error]; with test points to label,
    [k <= 0] or [k > n_train] ends it with an uncaught
    [std::invalid_argument] and nothing is printed; with no test point [k]
    is never looked at. *)
Theorem main_outcomes {G M : Type} (dis : G -> double * G) (cls : G -> Z * G)
    (allocate : M -> request -> option M)
    (n_train d n_test k : Z) (gen_train gen_test : G) (mem : M) :
  (n_train < 0 ->
     main dis cls allocate n_train d n_test k gen_train gen_test mem
     = Uncaught_length_error) /\
  (0 < n_train -> allocate mem (Vectors n_train) = None ->
     main dis cls allocate n_train d n_test k gen_train gen_test mem
     = Uncaught_bad_alloc) /\
  (0 < n_train -> allocate mem (Vectors n_train) <> None -> d < 0 ->
     main dis cls allocate n_train d n_test k gen_train gen_test mem
     = Uncaught_length_error) /\
  (0 < n_train -> allocate mem (Vectors n_train) <> None -> d = INT_MAX ->
     main dis cls allocate n_train d n_test k gen_train gen_test mem
     = Undefined_behaviour) /\
  (never_fails allocate ->
     main dis cls allocate n_train d n_test k gen_train gen_test mem
     <> Uncaught_bad_alloc) /\
  (never_fails allocate ->
   0 <= n_train -> (0 < n_train -> 0 <= d < INT_MAX) -> n_test < 0 ->
     main dis cls allocate n_train d n_test k gen_train gen_test mem
     = Uncaught_length_error) /\
  (never_fails allocate ->
   0 <= n_train -> (0 < n_train -> 0 <= d < INT_MAX) -> n_test = 0 ->
     exists train,
       main dis cls allocate n_train d n_test k gen_train gen_test mem
       = Returns 0 train [] /\
       Z.of_nat (length train) = n_train) /\
  (never_fails allocate ->
   0 <= n_train <= INT_MAX -> 0 <= d < INT_MAX -> 0 < n_test ->
   k <= 0 \/ n_train < k ->
     exists e,
       main dis cls allocate n_train d n_test k gen_train gen_test mem = Uncaught e).
Proof.
  assert (Hmax : INT_MAX = 2147483647) by reflexivity.
  assert (Htrain : never_fails allocate ->
            0 <= n_train -> (0 < n_train -> 0 <= d < INT_MAX) ->
            exists train g1 mem1,
              generatePoints dis cls allocate [] 0 n_train d false gen_train mem
              = (train, g1, mem1, Generated) /\
              Z.of_nat (length train) = n_train).
  { intros Hnf Hn Hd. destruct (Z.eq_dec n_train 0) as [->|Hne].
    - exists [], gen_train, mem. split; reflexivity.
    - destruct (generatePoints_Generated dis cls allocate (fun _ => True) (fun _ => True)
                  [] n_train d false gen_train mem (draws_True dis) (draws_True cls) Hnf)
        as (train & g1 & mem1 & E & L & _); [lia | lia | lia|]. eauto. }
  assert (Hres : 0 < n_train -> allocate mem (Vectors n_train) <> None ->
            exists mem1, reserve allocate 0 n_train Vectors mem = (mem1, Generated)).
  { intros Hn Ha.
    destruct (reserve_cases allocate 0 n_train Vectors mem)
      as [[H _] | [[H _] | [(_ & _ & mem1 & _ & E) | (_ & _ & Ha' & _)]]];
      [lia | lia | eauto | contradiction]. }
  split; [|split; [|split; [|split; [|split; [|split; [|split]]]]]].
  - intros H. unfold main.
    destruct (generatePoints_cases dis cls allocate [] 0 n_train d false gen_train mem)
      as [[_ ->] | [(Hn & _) | (mem1 & Hn & _)]]; [reflexivity | lia | lia].
  - intros Hn Ha. unfold main, generatePoints, reserve.
    destruct (n_train <? 0) eqn:E1; [lia|]. destruct (n_train <=? 0) eqn:E2; [lia|].
    rewrite Ha. reflexivity.
  - intros Hn Ha Hd. destruct (Hres Hn Ha) as [mem1 Er]. unfold main.
    rewrite (proj1 (generatePoints_first_row dis cls allocate [] 0 n_train d false
                      gen_train mem mem1 Er Hn) Hd).
    reflexivity.
  - intros Hn Ha Hd. destruct (Hres Hn Ha) as [mem1 Er]. unfold main.
    rewrite (proj2 (generatePoints_first_row dis cls allocate [] 0 n_train d false
                      gen_train mem mem1 Er Hn) eq_refl Hd).
    reflexivity.
  - intros Hnf. unfold main.
    pose proof (generatePoints_not_refused dis cls allocate [] 0 n_train d false
                  gen_train mem Hnf) as H1.
    destruct (generatePoints dis cls allocate [] 0 n_train d false gen_train mem)
      as [[[train g1] mem1] [| | |]]; cbn [snd] in H1; try discriminate; [|contradiction].
    pose proof (generatePoints_not_refused dis cls allocate [] 0 n_test d true
                  gen_test mem1 Hnf) as H2.
    destruct (generatePoints dis cls allocate [] 0 n_test d true gen_test mem1)
      as [[[test g2] mem2] [| | |]]; cbn [snd] in H2; try discriminate; [|contradiction].
    destruct (findKNN train test k d) as [test' [[]|e|u]]; discriminate.
  - intros Hnf Hn Hd Hnt. destruct (Htrain Hnf Hn Hd) as (train & g1 & mem1 & E1 & _).
    unfold main. rewrite E1.
    destruct (generatePoints_cases dis cls allocate [] 0 n_test d true gen_test mem1)
      as [[_ ->] | [(H & _) | (m & H & _)]]; [reflexivity | lia | lia].
  - intros Hnf Hn Hd ->. destruct (Htrain Hnf Hn Hd) as (train & g1 & mem1 & E1 & L1).
    exists train. split; [|exact L1]. unfold main. rewrite E1. reflexivity.
  - intros Hnf Hn Hd Hnt Hk.
    destruct (Htrain Hnf (proj1 Hn) (fun _ => Hd)) as (train & g1 & mem1 & E1 & L1).
    destruct (generatePoints_Generated dis cls allocate (fun _ => True) (fun _ => True)
                [] n_test d true gen_test mem1 (draws_True dis) (draws_True cls) Hnf)
      as (test & g2 & mem2 & E2 & L2 & _); [lia | lia | discriminate|].
    unfold main. rewrite E1, E2.
    destruct test as [|p test]; [simpl in L2; lia|].
    destruct (proj2 (predictOne_Throw_iff train p k d ltac:(unfold fits_int; lia)))
      as [e He]; [lia|].
    cbn [findKNN]. rewrite He. exists e. reflexivity.
Qed.

(** The runs that allocation ends: a vector of [INT_MAX] rows that the
    allocator refuses, in [generatePoints] and in [main], a row of
    [INT_MAX] doubles that it refuses, and a row refused after the first
    has been generated. *)
Example generatePoints_refused :
  generatePoints example_dis example_cls budget_allocate [] 0 2147483647 0 true 0%nat 1024
  = ([], 0%nat, 1024, bad_alloc) /\
  main example_dis example_cls budget_allocate 2147483647 0 0 1 0%nat 0%nat 1024
  = Uncaught_bad_alloc /\
  main example_dis example_cls budget_allocate 1 2147483646 0 1 0%nat 0%nat 1024
  = Uncaught_bad_alloc /\
  generatePoints example_dis example_cls budget_allocate [] 0 3 2 true 0%nat 96
  = ([[0.5; 0.25]%float], 2%nat, 8, bad_alloc).
Proof. repeat split; vm_compute; reflexivity. Qed.

(** ** The draws of a point *)

Lemma generatePoint_loop_draws {G : Type} (dis : G -> double * G) (n : nat) :
  forall point gen,
    generatePoint_loop dis n point gen
    = (point ++ ((fun i => (dis (Nat.iter i (fun g => (dis g).2) gen)).1) <$> seq 0 n),
       Nat.iter n (fun g => (dis g).2) gen).
Proof.
  induction n as [|n IH]; intros point gen.
  - cbn. rewrite app_nil_r. reflexivity.
  - cbn [generatePoint_loop]. destruct (dis gen) as [x g1] eqn:E.
    rewrite IH, <- app_assoc. cbn [seq fmap list_fmap]. rewrite <- seq_shift.
    replace x with (dis gen).1 by (rewrite E; reflexivity).
    replace g1 with (dis gen).2 by (rewrite E; reflexivity).
    change (map S (seq 0 n)) with (S <$> seq 0 n).
    rewrite <- list_fmap_compose, Nat.iter_succ_r. cbn [app Nat.iter].
    do 3 f_equal. apply list_fmap_ext. intros j i _. unfold compose.
    rewrite Nat.iter_succ_r. reflexivity.
Qed.

(** X20: when its [reserve] succeeds, [generatePoint] draws exactly [d]
    numbers, one after the other from the one generator, and stores them in
    the order drawn: component [i] is the draw from the state [i] draws have
    left, and the generator ends in the state after [d] draws. *)
Theorem generatePoint_draws {G M : Type} (dis : G -> double * G)
    (allocate : M -> request -> option M)
    (point : vec) (capacity d : Z) (gen : G) (mem mem' : M) :
  reserve allocate capacity d Doubles mem = (mem', Generated) ->
  0 <= d /\
  generatePoint dis allocate point capacity d gen mem
  = ((fun i => (dis (Nat.iter i (fun g => (dis g).2) gen)).1) <$> seq 0 (Z.to_nat d),
     Nat.iter (Z.to_nat d) (fun g => (dis g).2) gen, mem', Generated).
Proof.
  intros Hr. split.
  - destruct (reserve_cases allocate capacity d Doubles mem)
      as [[_ E] | [[H _] | [(H & _) | (_ & _ & _ & E)]]]; try lia; congruence.
  - unfold generatePoint. rewrite Hr, generatePoint_loop_draws. reflexivity.
Qed.

Lemma generatePoint_draws_witness :
  0 <= 3 /\
  generatePoint example_dis example_allocate [7%float] 0 3 0%nat 0%nat
  = ((fun i => (example_dis (Nat.iter i (fun g => (example_dis g).2) 0%nat)).1)
       <$> seq 0 (Z.to_nat 3),
     Nat.iter (Z.to_nat 3) (fun g => (example_dis g).2) 0%nat, 1%nat, Generated).
Proof.
  apply (generatePoint_draws example_dis example_allocate [7%float] 0 3 0%nat 0%nat 1%nat).
  reflexivity.
Defined.

(** ** NaN *)

Lemma is_nan_true_Prim2SF (x : double) :
  is_nan x = true <-> Prim2SF x = S754_nan.
Proof.
  destruct (is_nan x) eqn:E.
  - split; [intros _|reflexivity].
    destruct (Prim2SF x) as [s|s| |s m e] eqn:Ex; try reflexivity;
      assert (H : is_nan x = false) by (apply is_nan_Prim2SF; rewrite Ex; discriminate);
      congruence.
  - apply is_nan_Prim2SF in E. split; [discriminate | intros H; contradiction].
Qed.

Lemma ltb_nan_l (x y : double) : is_nan x = true -> (x <? y)%float = false.
Proof.
  intros H. apply is_nan_true_Prim2SF in H.
  rewrite FloatAxioms.ltb_spec, H. reflexivity.
Qed.

Lemma ltb_nan_r (x y : double) : is_nan y = true -> (x <? y)%float = false.
Proof.
  intros H. apply is_nan_true_Prim2SF in H.
  rewrite FloatAxioms.ltb_spec, H. unfold SFltb, SFcompare.
  destruct (Prim2SF x) as [s|s| |s m e]; try destruct s; reflexivity.
Qed.

Lemma sub_nan (a b : double) :
  is_nan a = true \/ is_nan b = true -> is_nan (a - b) = true.
Proof.
  intros H. apply is_nan_true_Prim2SF. rewrite FloatAxioms.sub_spec. unfold SF64sub.
  destruct H as [H|H]; apply is_nan_true_Prim2SF in H; rewrite H;
    [reflexivity | destruct (Prim2SF a); reflexivity].
Qed.

Lemma mul_nan (a b : double) : is_nan a = true -> is_nan (a * b) = true.
Proof.
  intros H. apply is_nan_true_Prim2SF in H. apply is_nan_true_Prim2SF.
  rewrite FloatAxioms.mul_spec. unfold SF64mul. rewrite H. reflexivity.
Qed.

Lemma add_nan (a b : double) :
  is_nan a = true \/ is_nan b = true -> is_nan (a + b) = true.
Proof.
  intros H. apply is_nan_true_Prim2SF. rewrite FloatAxioms.add_spec. unfold SF64add.
  destruct H as [H|H]; apply is_nan_true_Prim2SF in H; rewrite H;
    [reflexivity | destruct (Prim2SF a); reflexivity].
Qed.

Lemma sqrt_nan (a : double) : is_nan a = true -> is_nan (PrimFloat.sqrt a) = true.
Proof.
  intros H. apply is_nan_true_Prim2SF in H. apply is_nan_true_Prim2SF.
  rewrite FloatAxioms.sqrt_spec. unfold SF64sqrt. rewrite H. reflexivity.
Qed.

Lemma calcDist_loop_nan (p1 p2 : vec) (i : nat) :
  (exists x, (p1 !! i = Some x \/ p2 !! i = Some x) /\ is_nan x = true) ->
  forall n j sum,
    0 <= j -> j + Z.of_nat n <= Z.of_nat (length p1) ->
    j + Z.of_nat n <= Z.of_nat (length p2) ->
    is_nan sum = true \/ j <= Z.of_nat i < j + Z.of_nat n ->
    exists r, calcDist_loop p1 p2 j n sum = Ok r /\ is_nan r = true.
Proof.
  intros (x & Hx & Hnan). induction n as [|n IH]; intros j sum Hj H1 H2 Hs;
    cbn [calcDist_loop].
  - destruct Hs as [Hs|Hs]; [eauto | lia].
  - destruct (vec_at_ok p1 j) as (a & -> & Ha); [lia|].
    destruct (vec_at_ok p2 j) as (b & -> & Hb); [lia|]. cbn [mbind result_bind].
    apply IH; try lia.
    destruct Hs as [Hs|Hs]; [left; apply add_nan; left; exact Hs|].
    destruct (Z.eq_dec j (Z.of_nat i)) as [->|Hne]; [|right; lia].
    left. apply add_nan. right. apply mul_nan, sub_nan.
    rewrite Nat2Z.id in Ha, Hb.
    destruct Hx as [Hx|Hx]; [left | right]; congruence.
Qed.

(** X21: a NaN among the first [d] components of either vector makes the
    distance NaN. *)
Theorem calcDistEuclidean_nan (p1 p2 : vec) (d : Z) (i : nat) (x : double) :
  d <= Z.of_nat (length p1) -> d <= Z.of_nat (length p2) -> Z.of_nat i < d ->
  p1 !! i = Some x \/ p2 !! i = Some x -> is_nan x = true ->
  exists r, calcDistEuclidean p1 p2 d = Ok r /\ is_nan r = true.
Proof.
  intros H1 H2 Hi Hx Hnan. unfold calcDistEuclidean.
  destruct (calcDist_loop_nan p1 p2 i (ex_intro _ x (conj Hx Hnan)) (Z.to_nat d) 0 0%float)
    as (r & -> & Hr); try lia.
  cbn [mbind result_bind]. eexists. split; [reflexivity|]. apply sqrt_nan, Hr.
Qed.

Lemma calcDistEuclidean_nan_witness :
  exists r, calcDistEuclidean [1; nan]%float [0; 4; 1]%float 2 = Ok r /\ is_nan r = true.
Proof.
  apply (calcDistEuclidean_nan [1; nan]%float [0; 4; 1]%float 2 1 nan).
  - simpl. lia.
  - simpl. lia.
  - lia.
  - left. reflexivity.
  - reflexivity.
Defined.

(** X22: a training point whose distance from the query is NaN never
    displaces a retained neighbour: appended to a training set of at least
    [k] points it leaves the selection as it was, whatever the other
    distances are. *)
Theorem nan_distance_not_selected
    (train : Dataset) (test row : vec) (k d : Z) (x : double) :
  0 < k -> k <= Z.of_nat (length train) -> fits_int (S (length train)) ->
  comparable train test d ->
  calcDistEuclidean test row d = Ok x -> is_nan x = true ->
  selectNeighbors (train ++ [row]) test k d = selectNeighbors train test k d.
Proof.
  intros Hk Hn Hfit Hc Hx Hnan.
  assert (Hfit0 : fits_int (length train)) by (unfold fits_int in *; lia).
  destruct (comparable_distances train test d Hc) as [ds Hds].
  destruct (selectNeighbors_inv train test k d ds Hk Hn Hfit0 Hds) as (Hs & Hinv & _).
  pose proof (Forall2_length _ _ _ Hds) as Hlen.
  rewrite Hs, (selectNeighbors_pure (train ++ [row]) test k d (ds ++ [x])); try assumption.
  - rewrite scan_pure_snoc. f_equal. apply scan_step_keeps; try assumption.
    + rewrite (inv_length _ _ _ _ Hinv). lia.
    + unfold fits_int in Hfit0. lia.
    + intros n _. apply ltb_nan_l, Hnan.
  - rewrite length_app. simpl. lia.
  - rewrite length_app, Nat.add_1_r. exact Hfit.
  - apply Forall2_app; [exact Hds | constructor; [exact Hx | constructor]].
Qed.

Lemma nan_distance_not_selected_witness :
  selectNeighbors (example_train ++ [[nan; 0; 1]%float]) example_query 1 2
  = selectNeighbors example_train example_query 1 2.
Proof.
  apply (nan_distance_not_selected example_train example_query [nan; 0; 1]%float 1 2 nan).
  - lia.
  - simpl. lia.
  - unfold fits_int, INT_MAX. simpl. lia.
  - split; [simpl; lia|]. repeat constructor; simpl; lia.
  - reflexivity.
  - reflexivity.
Defined.

Lemma __push_heap_nan (v : Neighbor) (heap : list Neighbor) (fuel : nat) :
  is_nan v.1 = true ->
  __push_heap cmp fuel (heap ++ [v]) (length heap) 0 v = heap ++ [v].
Proof.
  intros Hnan.
  assert (Hid : <[length heap := v]> (heap ++ [v]) = heap ++ [v])
    by (apply list_insert_id, list_lookup_middle; reflexivity).
  destruct fuel as [|fuel]; cbn [__push_heap]; [exact Hid|].
  destruct ((heap ++ [v]) !! ((length heap - 1) / 2)%nat) as [p|]; [|exact Hid].
  unfold cmp at 1. rewrite (ltb_nan_r p.1 v.1 Hnan), andb_false_r. exact Hid.
Qed.

Lemma pq_push_nan (x : double) (i : Z) (heap : list Neighbor) :
  is_nan x = true -> pq_push cmp (x, i) heap = heap ++ [(x, i)].
Proof.
  intros Hnan. unfold pq_push, push_heap. rewrite last_snoc, length_app.
  cbn [length]. replace (length heap + 1 - 1)%nat with (length heap) by lia.
  apply __push_heap_nan. exact Hnan.
Qed.

Lemma indexed_snoc (ds : list double) (x : double) :
  indexed (ds ++ [x]) = indexed ds ++ [(x, Z.of_nat (length ds))].
Proof.
  unfold indexed. rewrite imap_app. cbn [imap]. rewrite Nat.add_0_r. reflexivity.
Qed.

Lemma scan_step_nan (k : Z) (pre : list double) (x : double) :
  0 < k -> k <= INT_MAX -> is_nan x = true ->
  scan_step k (take (Z.to_nat k) (indexed pre)) x (Z.of_nat (length pre))
  = take (Z.to_nat k) (indexed (pre ++ [x])).
Proof.
  intros Hk Hmax Hnan. unfold scan_step.
  assert (Hlen : length (indexed pre) = length pre) by (unfold indexed; apply length_imap).
  rewrite int_of_size_fits by (rewrite length_take; lia).
  rewrite indexed_snoc. rewrite length_take, Hlen.
  destruct (Z.of_nat (Z.to_nat k `min` length pre) <? k) eqn:E.
  - rewrite (take_ge (indexed pre)) by lia.
    rewrite pq_push_nan by exact Hnan.
    rewrite take_ge; [reflexivity|]. rewrite length_app, Hlen. simpl. lia.
  - rewrite take_app_le by lia.
    destruct (take (Z.to_nat k) (indexed pre)) as [|top heap] eqn:Eh; [reflexivity|].
    rewrite (ltb_nan_l x top.1 Hnan). reflexivity.
Qed.

Lemma scan_pure_nan (k : Z) (ds : list double) :
  0 < k -> k <= INT_MAX -> Forall (fun x => is_nan x = true) ds ->
  forall rest pre, ds = pre ++ rest ->
    scan_pure k (Z.of_nat (length pre)) rest (take (Z.to_nat k) (indexed pre))
    = take (Z.to_nat k) (indexed ds).
Proof.
  intros Hk Hmax Hnan rest.
  induction rest as [|x rest IH]; intros pre E; cbn [scan_pure].
  - rewrite E, app_nil_r. reflexivity.
  - rewrite scan_step_nan; try assumption.
    + specialize (IH (pre ++ [x])).
      rewrite length_app, Nat.add_1_r, Nat2Z.inj_succ, <- Z.add_1_r in IH.
      apply IH. rewrite <- app_assoc. exact E.
    + apply (Forall_lookup_1 _ _ (length pre) _ Hnan).
      rewrite E. apply list_lookup_middle. reflexivity.
Qed.

(** X23: a query with a NaN among its first [d] components is at a NaN
    distance from every training point, no comparison [dist < top] holds,
    and the neighbours are the first [k] training points, in the heap in
    the order of their indices. *)
Theorem nan_query_first_k (train : Dataset) (test : vec) (k d : Z) (i : nat) (x : double) :
  0 < k -> k <= Z.of_nat (length train) -> fits_int (length train) ->
  comparable train test d ->
  Z.of_nat i < d -> test !! i = Some x -> is_nan x = true ->
  exists ds,
    distances_of test d train ds /\
    Forall (fun y => is_nan y = true) ds /\
    selectNeighbors train test k d = Ok (take (Z.to_nat k) (indexed ds)) /\
    forall j, (j < Z.to_nat k)%nat ->
      exists y, take (Z.to_nat k) (indexed ds) !! j = Some (y, Z.of_nat j) /\
                is_nan y = true.
Proof.
  intros Hk Hn Hfit Hc Hi Hx Hnan.
  destruct (comparable_distances train test d Hc) as [ds Hds].
  pose proof (Forall2_length _ _ _ Hds) as Hlen.
  assert (Hall : Forall (fun y => is_nan y = true) ds).
  { apply Forall_lookup. intros j y Hy.
    destruct (Forall2_lookup_r _ _ _ _ _ Hds Hy) as (row & Hrow & Hd).
    destruct Hc as [Ht HF]. pose proof (Forall_lookup_1 _ _ _ _ HF Hrow) as Hr. simpl in Hr.
    unfold calcDistEuclidean in Hd.
    destruct (calcDist_loop_nan test row i (ex_intro _ x (conj (or_introl Hx) Hnan))
                (Z.to_nat d) 0 0%float) as (s & Es & Hs); try lia.
    rewrite Es in Hd. cbn [mbind result_bind] in Hd. injection Hd as <-.
    apply sqrt_nan, Hs. }
  exists ds. split; [exact Hds|]. split; [exact Hall|]. split.
  - rewrite (selectNeighbors_pure train test k d ds Hk Hn Hfit Hds). f_equal.
    assert (Hmax : k <= INT_MAX) by (unfold fits_int in Hfit; lia).
    pose proof (scan_pure_nan k ds Hk Hmax Hall ds [] eq_refl) as H.
    change (indexed []) with (@nil Neighbor) in H. rewrite take_nil in H. exact H.
  - intros j Hj.
    destruct (lookup_lt_is_Some_2 ds j) as [y Hy]; [lia|].
    exists y. split; [|apply (Forall_lookup_1 _ _ _ _ Hall Hy)].
    rewrite lookup_take_lt by exact Hj. unfold indexed.
    rewrite list_lookup_imap, Hy. reflexivity.
Qed.

Lemma nan_query_first_k_witness :
  exists ds,
    distances_of [nan]%float 1 tied_train ds /\
    Forall (fun y => is_nan y = true) ds /\
    selectNeighbors tied_train [nan]%float 2 1 = Ok (take (Z.to_nat 2) (indexed ds)) /\
    forall j, (j < Z.to_nat 2)%nat ->
      exists y, take (Z.to_nat 2) (indexed ds) !! j = Some (y, Z.of_nat j) /\
                is_nan y = true.
Proof.
  apply (nan_query_first_k tied_train [nan]%float 2 1 0 nan).
  - lia.
  - simpl. lia.
  - unfold fits_int, INT_MAX. simpl. lia.
  - split; [simpl; lia|]. repeat constructor; simpl; lia.
  - lia.
  - reflexivity.
  - reflexivity.
Defined.
